(** * Terminal-Orchestrator-MCP: identity, command safety, tailing,
      classification and trigger debouncing

    A shallow embedding of six classes of the TypeScript sources, with the
    properties stated about them:
    - [PaneIdResolver], [CommandEscaper] and [FileWatcher]
      (utils/pane-id-resolver, utils/command-escaper, utils/file-watcher;
      in the source tree at hand all three are in src/utils/errors.ts);
    - [LogAnalyzer] (core/log-analyzer, src/unnamed/part_001);
    - [ErrorWatcher] (core/error-watcher, in src/core/index.ts);
    - [McpIntegrator] (src/core/mcp-integrator.ts).

    Conventions.
    - A JavaScript string is the list of its UTF-16 code units ([list N]).
    - A JavaScript [Map] or [Set] whose iteration order can be observed is
      an insertion-ordered list ([JsMap]); maps and sets that are only
      looked up are stdpp's [gmap] and [gset].
    - Objects that two containers share live in an explicit object store,
      and the containers hold references into it.
    - [Date.now()] and [new Date()] are an explicit argument [now], in
      milliseconds; one call of a method sees one instant.
    - A method that can throw returns what it throws or a flag, next to the
      state it leaves behind.
    - Calls to the logger and to [emit] are recorded in the component's
      state, in order. *)

From Stdlib Require Import ZArith NArith Ascii String DecimalZ DecimalFacts DecimalPos.
From Stdlib.Strings Require Import Byte.
From stdpp Require Import base numbers option list gmap strings.

(* ===================================================================== *)
(** * Part I.  Definitions                                                *)
(* ===================================================================== *)

(** ** JavaScript values used by the sources *)

Module Js.

(** A string literal of the source, as code units. *)
Definition lit (s : string) : list N :=
  (λ a, N_of_ascii a) <$> list_ascii_of_string s.

(** Numbers: the sources only handle the results of [parseInt] and integer
    indices, so a number is an integer or [NaN].  An integer stands for its
    exact value; JavaScript agrees up to 2^53 and prints integers in plain
    decimal up to 10^21. *)
Inductive num : Type :=
| NaN
| Int (z : Z).

#[global] Instance num_eq_dec : EqDecision num.
Proof. solve_decision. Defined.

(** [a === b] on numbers: [NaN] is not equal to itself. *)
Definition strictEq (a b : num) : bool :=
  match a, b with
  | Int x, Int y => bool_decide (x = y)
  | _, _ => false
  end.

Definition isNaN (a : num) : bool :=
  match a with NaN => true | Int _ => false end.

Fixpoint uint_units (d : Decimal.uint) : list N :=
  match d with
  | Decimal.Nil => []
  | Decimal.D0 d => 48%N :: uint_units d
  | Decimal.D1 d => 49%N :: uint_units d
  | Decimal.D2 d => 50%N :: uint_units d
  | Decimal.D3 d => 51%N :: uint_units d
  | Decimal.D4 d => 52%N :: uint_units d
  | Decimal.D5 d => 53%N :: uint_units d
  | Decimal.D6 d => 54%N :: uint_units d
  | Decimal.D7 d => 55%N :: uint_units d
  | Decimal.D8 d => 56%N :: uint_units d
  | Decimal.D9 d => 57%N :: uint_units d
  end.

Definition int_units (i : Decimal.int) : list N :=
  match i with
  | Decimal.Pos d => uint_units d
  | Decimal.Neg d => 45%N :: uint_units d
  end.

(** [`${n}`] for a number [n]: decimal digits, a leading [-] when negative,
    ["NaN"] for [NaN]. *)
Definition numberToString (n : num) : list N :=
  match n with
  | NaN => lit "NaN"
  | Int z => int_units (Z.to_int z)
  end.

(** WhiteSpace and LineTerminator code units: what [trim], [parseInt] and
    the regular-expression class [\s] skip. *)
Definition isWhiteSpace (c : N) : bool :=
  (bool_decide (9 ≤ c ≤ 13) || bool_decide (c = 32) || bool_decide (c = 160)
   || bool_decide (c = 5760) || bool_decide (8192 ≤ c ≤ 8202)
   || bool_decide (c = 8232) || bool_decide (c = 8233) || bool_decide (c = 8239)
   || bool_decide (c = 8287) || bool_decide (c = 12288) || bool_decide (c = 65279))%N.

Definition isLineTerminator (c : N) : bool :=
  (bool_decide (c = 10) || bool_decide (c = 13)
   || bool_decide (c = 8232) || bool_decide (c = 8233))%N.

Fixpoint trimStart (s : list N) : list N :=
  match s with
  | [] => []
  | c :: t => if isWhiteSpace c then trimStart t else s
  end.

Definition trimEnd (s : list N) : list N := rev (trimStart (rev s)).

Definition trim (s : list N) : list N := trimEnd (trimStart s).

(** Truthiness of a string: non-empty. *)
Definition truthy (s : list N) : bool :=
  match s with [] => false | _ :: _ => true end.

Fixpoint startsWith (p s : list N) : bool :=
  match p, s with
  | [], _ => true
  | _ :: _, [] => false
  | a :: p', b :: s' => bool_decide (a = b) && startsWith p' s'
  end.

Fixpoint includes (p s : list N) : bool :=
  startsWith p s || match s with [] => false | _ :: t => includes p t end.

(** [s.split(sep)] for a one-unit separator: never empty. *)
Fixpoint split (sep : N) (s : list N) : list (list N) :=
  match s with
  | [] => [[]]
  | c :: t =>
      if bool_decide (c = sep) then [] :: split sep t
      else match split sep t with
           | h :: r => (c :: h) :: r
           | [] => [[c]]
           end
  end.

(** [a.join(sep)]. *)
Fixpoint join (sep : list N) (a : list (list N)) : list N :=
  match a with
  | [] => []
  | [x] => x
  | x :: r => x ++ sep ++ join sep r
  end.

(** [a.pop()] as a value: the last element, [None] for [undefined]. *)
Definition pop (a : list (list N)) : option (list N) := last a.

(** [x || d] where [x] may be [undefined] or the empty string. *)
Definition orElse (x : option (list N)) (d : list N) : list N :=
  match x with
  | Some s => if truthy s then s else d
  | None => d
  end.

(** [toLowerCase], on the ASCII letters; other units are kept. *)
Definition lowerUnit (c : N) : N :=
  if bool_decide (65 ≤ c ≤ 90)%N then (c + 32)%N else c.

Definition toLowerCase (s : list N) : list N := lowerUnit <$> s.

(** Value of a digit in radix up to 36. *)
Definition digitVal (c : N) : option Z :=
  if bool_decide (48 ≤ c ≤ 57)%N then Some (Z.of_N c - 48)%Z
  else if bool_decide (97 ≤ c ≤ 122)%N then Some (Z.of_N c - 87)%Z
  else if bool_decide (65 ≤ c ≤ 90)%N then Some (Z.of_N c - 55)%Z
  else None.

(** Longest prefix of radix-[R] digits, read as a number; [None] when the
    prefix is empty. *)
Fixpoint digitsPrefix (R : Z) (acc : option Z) (s : list N) : option Z :=
  match s with
  | [] => acc
  | c :: t =>
      match digitVal c with
      | Some d =>
          if bool_decide (d < R)%Z
          then digitsPrefix R (Some (default 0 acc * R + d)%Z) t
          else acc
      | None => acc
      end
  end.

(** [parseInt(s, radix)]; [radix = None] is the one-argument call. *)
Definition parseInt (s : list N) (radix : option Z) : num :=
  let s1 := trimStart s in
  let '(sign, s2) :=
    match s1 with
    | 45%N :: t => ((-1)%Z, t)
    | 43%N :: t => (1%Z, t)
    | _ => (1%Z, s1)
    end in
  let R0 := default 0%Z radix in
  if bool_decide (R0 ≠ 0 ∧ (R0 < 2 ∨ 36 < R0))%Z then NaN
  else
    let strip := bool_decide (R0 = 0 ∨ R0 = 16)%Z in
    let R1 := if bool_decide (R0 = 0)%Z then 10%Z else R0 in
    let '(R, s3) :=
      match s2 with
      | 48%N :: x :: t =>
          if strip && (bool_decide (x = 120%N) || bool_decide (x = 88%N))
          then (16%Z, t) else (R1, s2)
      | _ => (R1, s2)
      end in
    match digitsPrefix R None s3 with
    | Some v => Int (sign * v)
    | None => NaN
    end.

(** An optional string used as a condition: [undefined] and the empty
    string are falsy. *)
Definition given (x : option (list N)) : option (list N) :=
  match x with
  | Some s => if truthy s then Some s else None
  | None => None
  end.

(** [String(x)] of an array element that may be [undefined]. *)
Definition toStringOpt (x : option (list N)) : list N :=
  match x with
  | Some s => s
  | None => lit "undefined"
  end.

Definition isDigit (c : N) : Prop := (48 ≤ c ≤ 57)%N.

(** The units of a printed number: digits, [-], or the letters of [NaN]. *)
Definition isNumberUnit (c : N) : Prop :=
  isDigit c ∨ c = 45%N ∨ c = 78%N ∨ c = 97%N.

End Js.

Import Js.

(** ** Insertion-ordered maps *)

(** The [Map]s of the pane resolver are iterated ([values()], [entries()]),
    and the iteration order of a JavaScript [Map] is the order in which the
    keys were first inserted. *)
Module JsMap.

Section Ops.
Context {V : Type}.

Fixpoint get (k : list N) (m : list (list N * V)) : option V :=
  match m with
  | [] => None
  | (k', v) :: r => if decide (k' = k) then Some v else get k r
  end.

Definition has (k : list N) (m : list (list N * V)) : bool :=
  match get k m with Some _ => true | None => false end.

(** [m.set(k, v)]: an existing key keeps its place. *)
Fixpoint set (k : list N) (v : V) (m : list (list N * V)) : list (list N * V) :=
  match m with
  | [] => [(k, v)]
  | (k', v') :: r =>
      if decide (k' = k) then (k', v) :: r else (k', v') :: set k v r
  end.

Fixpoint delete (k : list N) (m : list (list N * V)) : list (list N * V) :=
  match m with
  | [] => []
  | (k', v') :: r =>
      if decide (k' = k) then delete k r else (k', v') :: delete k r
  end.

Definition values (m : list (list N * V)) : list V := snd <$> m.

Definition keys (m : list (list N * V)) : list (list N) := fst <$> m.

End Ops.

End JsMap.

(** ** Regular expressions *)

(** The backtracking semantics of ECMAScript regular expressions, for the
    constructs the sources use: literals, [.], classes, groups,
    alternation, greedy and lazy [*] and [+], [^] and [$], and the flags
    [i] and [s]. *)
Module Regex.

Inductive classItem : Type :=
| CUnit (c : N)
| CDigit
| CSpace.

Inductive regex : Type :=
| REmpty
| RChar (c : N)
| RAny
| RSet (invert : bool) (items : list classItem)
| RSeq (r1 r2 : regex)
| RAlt (r1 r2 : regex)
| RGroup (n : nat) (r : regex)
| RStar (greedy : bool) (r : regex)
| RBol
| REol.

Record RegExp : Type := {
  body : regex;
  groupCount : nat;
  ignoreCase : bool;
  dotAll : bool;
}.

(** [r+] is [r r*]; the copies share their group numbers. *)
Definition RPlus (greedy : bool) (r : regex) : regex := RSeq r (RStar greedy r).

Definition rseq (l : list regex) : regex := foldr RSeq REmpty l.

Definition ralt (l : list regex) : regex :=
  match l with
  | [] => REmpty
  | r :: rs => foldl RAlt r rs
  end.

Definition rlit (s : string) : regex := rseq (RChar <$> lit s).

Definition rdigit : regex := RSet false [CDigit].
Definition rspace : regex := RSet false [CSpace].

(** Canonicalize of the [i] flag.  Only ASCII letters fold; a code unit
    above 127 never canonicalizes to an ASCII one, which is all that the
    ASCII patterns of the sources can observe. *)
Definition canonicalize (ic : bool) (c : N) : N :=
  if ic && bool_decide (97 ≤ c ≤ 122)%N then (c - 32)%N else c.

Definition unitEq (ic : bool) (a b : N) : bool :=
  bool_decide (canonicalize ic a = canonicalize ic b).

Definition itemMatches (ic : bool) (c : N) (it : classItem) : bool :=
  match it with
  | CUnit a => unitEq ic a c
  | CDigit => bool_decide (48 ≤ c ≤ 57)%N
  | CSpace => isWhiteSpace c
  end.

Definition setMatches (ic : bool) (invert : bool) (items : list classItem) (c : N) : bool :=
  xorb invert (existsb (itemMatches ic c) items).

(** Matcher state: the end index, the input left, and the captures
    (index 0 is unused by the matcher; [exec] fills it). *)
Record mstate : Type := {
  pos : nat;
  rest : list N;
  caps : list (option (list N));
}.

Fixpoint groupsOf (r : regex) : list nat :=
  match r with
  | RSeq a b | RAlt a b => groupsOf a ++ groupsOf b
  | RGroup n a => n :: groupsOf a
  | RStar _ a => groupsOf a
  | _ => []
  end.

Definition clearCaps (gs : list nat) (st : mstate) : mstate :=
  {| pos := pos st; rest := rest st;
     caps := foldr (λ g cs, <[g := None]> cs) (caps st) gs |}.

Definition advance (st : mstate) : mstate :=
  {| pos := S (pos st); rest := tail (rest st); caps := caps st |}.

Definition firstOf {A} (a b : option A) : option A :=
  match a with Some x => Some x | None => b end.

(** The loop of a starred atom whose matcher is [m]: an iteration that
    consumes nothing is rejected, so every iteration shortens the input and
    [fuel] above the length of the input left is never used up
    ([starLoop_fuel] in Part II). *)
Fixpoint starLoop (m : mstate → (mstate → option mstate) → option mstate)
    (greedy : bool) (k : mstate → option mstate) (fuel : nat) (st : mstate)
    {struct fuel} : option mstate :=
  match fuel with
  | O => None
  | S fuel' =>
      let iter :=
        m st (λ st', if bool_decide (pos st' = pos st) then None
                     else starLoop m greedy k fuel' st') in
      if greedy then firstOf iter (k st) else firstOf (k st) iter
  end.

Fixpoint rmatch (ic da : bool) (r : regex) (st : mstate)
    (k : mstate → option mstate) {struct r} : option mstate :=
  match r with
  | REmpty => k st
  | RChar c =>
      match rest st with
      | x :: _ => if unitEq ic c x then k (advance st) else None
      | [] => None
      end
  | RAny =>
      match rest st with
      | x :: _ => if da || negb (isLineTerminator x) then k (advance st) else None
      | [] => None
      end
  | RSet inv items =>
      match rest st with
      | x :: _ => if setMatches ic inv items x then k (advance st) else None
      | [] => None
      end
  | RSeq a b => rmatch ic da a st (λ st', rmatch ic da b st' k)
  | RAlt a b => firstOf (rmatch ic da a st k) (rmatch ic da b st k)
  | RGroup n a =>
      rmatch ic da a st (λ st',
        k {| pos := pos st'; rest := rest st';
             caps := <[n := Some (take (pos st' - pos st) (rest st))]> (caps st') |})
  | RStar greedy a =>
      starLoop (λ st' k', rmatch ic da a (clearCaps (groupsOf a) st') k')
        greedy k (S (length (rest st))) st
  | RBol => if bool_decide (pos st = 0) then k st else None
  | REol => match rest st with [] => k st | _ :: _ => None end
  end.

(** First index, from [i] on, at which the pattern matches. *)
Fixpoint search (re : RegExp) (i : nat) (suffix : list N) : option (nat * mstate) :=
  match rmatch (ignoreCase re) (dotAll re) (body re)
          {| pos := i; rest := suffix; caps := replicate (S (groupCount re)) None |}
          Some with
  | Some st => Some (i, st)
  | None =>
      match suffix with
      | [] => None
      | _ :: t => search re (S i) t
      end
  end.

(** [re.exec(s)] / [s.match(re)] for a regular expression without the [g]
    flag: the array of the whole match and the groups, [None] marking a
    group that did not take part. *)
Definition exec (re : RegExp) (s : list N) : option (list (option (list N))) :=
  match search re 0 s with
  | Some (i, st) => Some (<[0 := Some (take (pos st - i) (drop i s))]> (caps st))
  | None => None
  end.

Definition test (re : RegExp) (s : list N) : bool :=
  match exec re s with Some _ => true | None => false end.

(** [st] with [n] more units consumed and [r] left. *)
Definition after (st : mstate) (n : nat) (r : list N) : mstate :=
  {| pos := pos st + n; rest := r; caps := caps st |}.

(** [st'] is [st] after some more of the input was consumed. *)
Definition extends (st st' : mstate) : Prop :=
  ∃ n, n ≤ length (rest st) ∧ rest st' = drop n (rest st) ∧ pos st' = pos st + n.

(** A matcher looks at its continuation only in states that extend its own. *)
Definition local (m : mstate → (mstate → option mstate) → option mstate) : Prop :=
  ∀ st k1 k2, (∀ st', extends st st' → k1 st' = k2 st') → m st k1 = m st k2.

(** [m[i]] on a match array. *)
Definition group (m : list (option (list N))) (i : nat) : option (list N) :=
  mjoin (m !! i).

End Regex.

Import Regex.

(** ** Shared types ([types/index.ts]) *)

Inductive Severity : Type :=
| error
| warning
| info.

#[global] Instance Severity_eq_dec : EqDecision Severity.
Proof. solve_decision. Defined.

(** [captureGroups]: the group index of each role; [message] is required. *)
Record CaptureGroups : Type := {
  cg_file : option nat;
  cg_line : option nat;
  cg_column : option nat;
  cg_message : nat;
}.

Record ErrorPattern : Type := {
  ep_name : list N;
  ep_regex : RegExp;
  ep_type : Severity;
  ep_language : option (list N);
  ep_captureGroups : CaptureGroups;
}.

Record ErrorEntry : Type := {
  e_id : list N;
  e_paneId : list N;
  e_file : option (list N);
  e_line : option num;
  e_column : option num;
  e_message : list N;
  e_type : Severity;
  e_language : option (list N);
  e_timestamp : Z;
}.

(** [g ? x : undefined] for an optional group index [g]: index 0 is falsy. *)
Definition whenGroup {A} (g : option nat) (f : nat → A) : option A :=
  match g with
  | Some (S n) => Some (f (S n))
  | _ => None
  end.

(** ** Log analyzer ([core/log-analyzer.ts]) *)

Module LogAnalyzer.

(** [/^(.+?)\((\d+),(\d+)\):\s*(error|warning)\s*TS\d+:\s*(.+)$/i] *)
Definition typescript_regex : RegExp :=
  {| body := rseq [RBol; RGroup 1 (RPlus false RAny); rlit "(";
                   RGroup 2 (RPlus true rdigit); rlit ",";
                   RGroup 3 (RPlus true rdigit); rlit "):";
                   RStar true rspace;
                   RGroup 4 (ralt [rlit "error"; rlit "warning"]);
                   RStar true rspace; rlit "TS"; RPlus true rdigit; rlit ":";
                   RStar true rspace; RGroup 5 (RPlus true RAny); REol];
     groupCount := 5; ignoreCase := true; dotAll := false |}.

(** [/^(.+?):(\d+):(\d+):\s*(Error|SyntaxError|TypeError|ReferenceError):\s*(.+)$/i] *)
Definition javascript_regex : RegExp :=
  {| body := rseq [RBol; RGroup 1 (RPlus false RAny); rlit ":";
                   RGroup 2 (RPlus true rdigit); rlit ":";
                   RGroup 3 (RPlus true rdigit); rlit ":";
                   RStar true rspace;
                   RGroup 4 (ralt [rlit "Error"; rlit "SyntaxError";
                                   rlit "TypeError"; rlit "ReferenceError"]);
                   rlit ":"; RStar true rspace; RGroup 5 (RPlus true RAny); REol];
     groupCount := 5; ignoreCase := true; dotAll := false |}.

(** [/File "(.+?)", line (\d+).*?\n(.+?Error): (.+)/s] *)
Definition python_regex : RegExp :=
  {| body := rseq [rlit "File "; RChar 34; RGroup 1 (RPlus false RAny);
                   RChar 34; rlit ", line "; RGroup 2 (RPlus true rdigit);
                   RStar false RAny; RChar 10;
                   RGroup 3 (RSeq (RPlus false RAny) (rlit "Error"));
                   rlit ": "; RGroup 4 (RPlus true RAny)];
     groupCount := 4; ignoreCase := false; dotAll := true |}.

(** [/^error.*?:\s*(.+)\n.*?--> (.+?):(\d+):(\d+)/s] *)
Definition rust_regex : RegExp :=
  {| body := rseq [RBol; rlit "error"; RStar false RAny; rlit ":";
                   RStar true rspace; RGroup 1 (RPlus true RAny); RChar 10;
                   RStar false RAny; rlit "--> "; RGroup 2 (RPlus false RAny);
                   rlit ":"; RGroup 3 (RPlus true rdigit); rlit ":";
                   RGroup 4 (RPlus true rdigit)];
     groupCount := 4; ignoreCase := false; dotAll := true |}.

(** [/^(.+?):(\d+):(\d+):\s*(.+)$/] *)
Definition go_regex : RegExp :=
  {| body := rseq [RBol; RGroup 1 (RPlus false RAny); rlit ":";
                   RGroup 2 (RPlus true rdigit); rlit ":";
                   RGroup 3 (RPlus true rdigit); rlit ":";
                   RStar true rspace; RGroup 4 (RPlus true RAny); REol];
     groupCount := 4; ignoreCase := false; dotAll := false |}.

(** [/(ERROR|FAIL|Exception|Error:|Failed)/i] *)
Definition general_error_regex : RegExp :=
  {| body := RGroup 1 (ralt [rlit "ERROR"; rlit "FAIL"; rlit "Exception";
                             rlit "Error:"; rlit "Failed"]);
     groupCount := 1; ignoreCase := true; dotAll := false |}.

(** [/(WARN|Warning|Deprecated|Notice)/i] *)
Definition general_warning_regex : RegExp :=
  {| body := RGroup 1 (ralt [rlit "WARN"; rlit "Warning"; rlit "Deprecated";
                             rlit "Notice"]);
     groupCount := 1; ignoreCase := true; dotAll := false |}.

(** [/npm ERR!\s*(.+)/i] *)
Definition npm_error_regex : RegExp :=
  {| body := rseq [rlit "npm ERR!"; RStar true rspace; RGroup 1 (RPlus true RAny)];
     groupCount := 1; ignoreCase := true; dotAll := false |}.

(** [/docker: Error response from daemon: (.+)/i] *)
Definition docker_error_regex : RegExp :=
  {| body := rseq [rlit "docker: Error response from daemon: ";
                   RGroup 1 (RPlus true RAny)];
     groupCount := 1; ignoreCase := true; dotAll := false |}.

Definition groups (f l c : option nat) (m : nat) : CaptureGroups :=
  {| cg_file := f; cg_line := l; cg_column := c; cg_message := m |}.

(** The seeded pattern list, in the order of the source. *)
Definition errorPatterns : list ErrorPattern :=
  [ {| ep_name := lit "typescript"; ep_regex := typescript_regex;
       ep_type := error; ep_language := Some (lit "typescript");
       ep_captureGroups := groups (Some 1) (Some 2) (Some 3) 5 |};
    {| ep_name := lit "javascript"; ep_regex := javascript_regex;
       ep_type := error; ep_language := Some (lit "javascript");
       ep_captureGroups := groups (Some 1) (Some 2) (Some 3) 5 |};
    {| ep_name := lit "python"; ep_regex := python_regex;
       ep_type := error; ep_language := Some (lit "python");
       ep_captureGroups := groups (Some 1) (Some 2) None 4 |};
    {| ep_name := lit "rust"; ep_regex := rust_regex;
       ep_type := error; ep_language := Some (lit "rust");
       ep_captureGroups := groups (Some 2) (Some 3) (Some 4) 1 |};
    {| ep_name := lit "go"; ep_regex := go_regex;
       ep_type := error; ep_language := Some (lit "go");
       ep_captureGroups := groups (Some 1) (Some 2) (Some 3) 4 |};
    {| ep_name := lit "general_error"; ep_regex := general_error_regex;
       ep_type := error; ep_language := None;
       ep_captureGroups := groups None None None 0 |};
    {| ep_name := lit "general_warning"; ep_regex := general_warning_regex;
       ep_type := warning; ep_language := None;
       ep_captureGroups := groups None None None 0 |};
    {| ep_name := lit "npm_error"; ep_regex := npm_error_regex;
       ep_type := error; ep_language := Some (lit "npm");
       ep_captureGroups := groups None None None 1 |};
    {| ep_name := lit "docker_error"; ep_regex := docker_error_regex;
       ep_type := error; ep_language := Some (lit "docker");
       ep_captureGroups := groups None None None 1 |} ].

(** [/^(.+)\.log$/] *)
Definition log_suffix_regex : RegExp :=
  {| body := rseq [RBol; RGroup 1 (RPlus true RAny); rlit ".log"; REol];
     groupCount := 1; ignoreCase := false; dotAll := false |}.

Definition extractPaneIdFromPath (filePath : list N) : list N :=
  let basename := orElse (pop (split 47 filePath)) [] in
  match exec log_suffix_regex basename with
  | Some m => toStringOpt (group m 1)
  | None => basename
  end.

(** The entry built when [pattern] matched [line] with match array [m]. *)
Definition entryOf (now : Z) (pattern : ErrorPattern) (m : list (option (list N)))
    (line filePath : list N) (lineNumber : Z) : ErrorEntry :=
  let g := ep_captureGroups pattern in
  {| e_id := filePath ++ lit ":" ++ numberToString (Int lineNumber)
             ++ lit ":" ++ numberToString (Int now);
     e_paneId := extractPaneIdFromPath filePath;
     e_file := mjoin (whenGroup (cg_file g) (group m));
     e_line := whenGroup (cg_line g) (λ i, parseInt (toStringOpt (group m i)) None);
     e_column := whenGroup (cg_column g) (λ i, parseInt (toStringOpt (group m i)) None);
     e_message := orElse (group m (cg_message g)) line;
     e_type := ep_type pattern;
     e_language := ep_language pattern;
     e_timestamp := now |}.

(** The loop of [matchErrorPatterns] over a pattern list: the first pattern
    whose regular expression matches decides. *)
Fixpoint matchFirst (now : Z) (patterns : list ErrorPattern)
    (line filePath : list N) (lineNumber : Z) : option ErrorEntry :=
  match patterns with
  | [] => None
  | pattern :: more =>
      match exec (ep_regex pattern) line with
      | Some m => Some (entryOf now pattern m line filePath lineNumber)
      | None => matchFirst now more line filePath lineNumber
      end
  end.

(** The analyzer's only state that classification reads. *)
Record t : Type := { patterns : list ErrorPattern }.

Definition create : t := {| patterns := errorPatterns |}.

Definition matchErrorPatterns (now : Z) (self : t)
    (line filePath : list N) (lineNumber : Z) : option ErrorEntry :=
  matchFirst now (patterns self) line filePath lineNumber.

Fixpoint firstName (patterns : list ErrorPattern) (line : list N) : option (list N) :=
  match patterns with
  | [] => None
  | pattern :: more =>
      if test (ep_regex pattern) line then Some (ep_name pattern)
      else firstName more line
  end.

Definition getMatchingPatternName (self : t) (line : list N) : option (list N) :=
  firstName (patterns self) line.

Definition addCustomPattern (pattern : ErrorPattern) (self : t) : t :=
  {| patterns := patterns self ++ [pattern] |}.

(** [findIndex] then [splice(index, 1)]: the first pattern of that name goes. *)
Fixpoint removeFirst (name : list N) (patterns : list ErrorPattern) : list ErrorPattern :=
  match patterns with
  | [] => []
  | p :: more =>
      if decide (ep_name p = name) then more else p :: removeFirst name more
  end.

Definition removePattern (name : list N) (self : t) : t :=
  {| patterns := removeFirst name (patterns self) |}.

Definition getPatterns (self : t) : list ErrorPattern := patterns self.

(** *** Reading a log file *)

(** The methods below read the file through [readline]: [yielded] is the
    list of lines it yields, and a stream is [None] when opening or reading
    the file fails. *)

(** One turn of the loop of [getRecentLogs]: [shift] when the buffer
    holds [lineCount] lines or more, then [push]. *)
Definition keepRecent (lineCount : Z) (lines : list (list N)) (line : list N)
    : list (list N) :=
  (if bool_decide (lineCount ≤ Z.of_nat (length lines))%Z then tail lines else lines)
  ++ [line].

Definition getRecentLogs (stream : option (list (list N))) (lineCount : Z)
    : list (list N) :=
  match stream with
  | Some yielded => foldl (keepRecent lineCount) [] yielded
  | None => []
  end.

(** The loop of [searchLogs], which breaks once [maxResults] lines are
    collected. *)
Fixpoint searchLoop (regex : RegExp) (maxResults : Z) (matches : list (list N))
    (yielded : list (list N)) : list (list N) :=
  match yielded with
  | [] => matches
  | line :: more =>
      if test regex line then
        let matches' := matches ++ [line] in
        if bool_decide (maxResults ≤ Z.of_nat (length matches'))%Z then matches'
        else searchLoop regex maxResults matches' more
      else searchLoop regex maxResults matches more
  end.

(** [searchLogs]; [regex] is [new RegExp(pattern, 'i')], [None] when the
    constructor throws. *)
Definition searchLogs (regex : option RegExp) (stream : option (list (list N)))
    (maxResults : Z) : list (list N) :=
  match regex, stream with
  | Some re, Some yielded => searchLoop re maxResults [] yielded
  | _, _ => []
  end.

(** [\d{n}] and a greedy [(?:r)?]. *)
Definition rdigits (n : nat) : regex := rseq (replicate n rdigit).
Definition ropt (r : regex) : regex := RAlt r REmpty.

(** [\d{4}-\d{2}-\d{2}[T ]\d{2}:\d{2}:\d{2}(?:\.\d{3})?(?:Z|[+-]\d{2}:\d{2})?] *)
Definition stamp : regex :=
  rseq [rdigits 4; rlit "-"; rdigits 2; rlit "-"; rdigits 2;
        RSet false [CUnit 84; CUnit 32];
        rdigits 2; rlit ":"; rdigits 2; rlit ":"; rdigits 2;
        ropt (rseq [rlit "."; rdigits 3]);
        ropt (ralt [rlit "Z";
                    rseq [RSet false [CUnit 43; CUnit 45]; rdigits 2; rlit ":";
                          rdigits 2]])].

(** The three timestamp patterns: a bracketed stamp, a bare stamp, and a
    bracketed time of day. *)
Definition timestampPatterns : list RegExp :=
  [ {| body := rseq [rlit "["; RGroup 1 stamp; rlit "]"];
       groupCount := 1; ignoreCase := false; dotAll := false |};
    {| body := RGroup 1 stamp;
       groupCount := 1; ignoreCase := false; dotAll := false |};
    {| body := rseq [rlit "["; RGroup 1 (rseq [rdigits 2; rlit ":"; rdigits 2;
                                                rlit ":"; rdigits 2]); rlit "]"];
       groupCount := 1; ignoreCase := false; dotAll := false |} ].

(** A [Date]: the instant of a call of [new Date()], or [new Date(text)]
    for a text cut out of a log line.  The constructor does not throw, so
    [extractTimestamp] answers with the first pattern that matches. *)
Inductive DateValue : Type :=
| At (ms : Z)
| Parsed (text : list N).

Fixpoint firstStamp (patterns : list RegExp) (line : list N) : option DateValue :=
  match patterns with
  | [] => None
  | pattern :: more =>
      match exec pattern line with
      | Some m => Some (Parsed (toStringOpt (group m 1)))
      | None => firstStamp more line
      end
  end.

Definition extractTimestamp (line : list N) : option DateValue :=
  firstStamp timestampPatterns line.

(** A value of the [patterns] object of a summary, which is a plain
    object: a count, or, under a name that [Object.prototype] defines, the
    text of the inherited member followed by [ones] characters [1]. *)
Inductive TallyValue : Type :=
| Count (n : nat)
| Inherited (member : list N) (ones : nat).

(** The methods of [Object.prototype]; its one other property is the
    accessor [__proto__]. *)
Definition objectPrototypeMethods : list (list N) :=
  lit <$> ["constructor"; "__defineGetter__"; "__defineSetter__"; "hasOwnProperty";
           "__lookupGetter__"; "__lookupSetter__"; "isPrototypeOf";
           "propertyIsEnumerable"; "toString"; "valueOf"; "toLocaleString"]%string.

Record LogSummary : Type := {
  s_paneId : list N;
  s_totalLines : nat;
  s_errors : nat;
  s_warnings : nat;
  s_start : DateValue;
  s_end : DateValue;
  s_errorSamples : list ErrorEntry;
  s_patterns : gmap (list N) TallyValue;
}.

(** The variables of the loop of [analyzeLogFile].  The buffer of recent
    lines that the loop also keeps is never read. *)
Record Scan : Type := {
  totalLines : nat;
  lineCount : nat;
  rangeStart : DateValue;
  rangeEnd : DateValue;
  errors : list ErrorEntry;
  warnings : list ErrorEntry;
  tallies : gmap (list N) TallyValue;
}.

(** [patterns[name] = (patterns[name] || 0) + 1] on the plain object
    [patterns].  An own property is read and written back: a number is
    incremented, a string gets [1] appended.  Where the object has no own
    property the read goes to [Object.prototype]: one of its methods is
    truthy, [+ 1] makes a string of it and the assignment stores that
    string; for [__proto__] the assignment reaches the setter, which
    ignores a string; any other name starts at 1. *)
Definition tally (name : list N) (tallies : gmap (list N) TallyValue)
    : gmap (list N) TallyValue :=
  match tallies !! name with
  | Some (Count n) => <[name := Count (S n)]> tallies
  | Some (Inherited member ones) => <[name := Inherited member (S ones)]> tallies
  | None =>
      if bool_decide (name = lit "__proto__") then tallies
      else if bool_decide (name ∈ objectPrototypeMethods)
           then <[name := Inherited name 1]> tallies
           else <[name := Count 1]> tallies
  end.

Definition scanLine (now : Z) (self : t) (filePath : list N) (sc : Scan)
    (line : list N) : Scan :=
  let timestamp := extractTimestamp line in
  let start :=
    match timestamp with
    | Some ts => if bool_decide (lineCount sc = 0) then ts else rangeStart sc
    | None => rangeStart sc
    end in
  let stop := default (rangeEnd sc) timestamp in
  let errorEntry := matchErrorPatterns now self line filePath (Z.of_nat (lineCount sc)) in
  let counted :=
    match errorEntry with
    | Some _ =>
        match given (getMatchingPatternName self line) with
        | Some patternName => tally patternName (tallies sc)
        | None => tallies sc
        end
    | None => tallies sc
    end in
  {| totalLines := S (totalLines sc);
     lineCount := S (lineCount sc);
     rangeStart := start;
     rangeEnd := stop;
     errors :=
       match errorEntry with
       | Some entry => if decide (e_type entry = error) then errors sc ++ [entry]
                       else errors sc
       | None => errors sc
       end;
     warnings :=
       match errorEntry with
       | Some entry => if decide (e_type entry = warning) then warnings sc ++ [entry]
                       else warnings sc
       | None => warnings sc
       end;
     tallies := counted |}.

(** [a.slice(-n)] *)
Definition lastN {A} (n : nat) (a : list A) : list A := drop (length a - n) a.

(** [analyzeLogFile]: [None] when it rethrows a failure of [stat] or of
    the stream.  [maxLines] only bounds the buffer that is never read. *)
Definition analyzeLogFile (now : Z) (self : t) (stream : option (list (list N)))
    (filePath : list N) (maxLines : Z) : option LogSummary :=
  match stream with
  | None => None
  | Some yielded =>
      let sc :=
        foldl (scanLine now self filePath)
          {| totalLines := 0; lineCount := 0; rangeStart := At now; rangeEnd := At now;
             errors := []; warnings := []; tallies := ∅ |} yielded in
      Some {| s_paneId := extractPaneIdFromPath filePath;
              s_totalLines := totalLines sc;
              s_errors := length (errors sc);
              s_warnings := length (warnings sc);
              s_start := rangeStart sc;
              s_end := rangeEnd sc;
              s_errorSamples := lastN 5 (errors sc) ++ lastN 3 (warnings sc);
              s_patterns := tallies sc |}
  end.

End LogAnalyzer.

(** ** Logger calls *)

(** The components report through a shared [Logger]; a component state
    records the calls it made, level and text. *)
Inductive LogLevel : Type :=
| DEBUG
| INFO
| WARN
| ERROR.

#[global] Instance LogLevel_eq_dec : EqDecision LogLevel.
Proof. solve_decision. Defined.

(** ** Pane id resolver ([utils/pane-id-resolver.ts]) *)

Module PaneIdResolver.

Record PaneMapping : Type := {
  nativeId : list N;
  structuredId : list N;
  sessionName : list N;
  windowIndex : num;
  paneIndex : num;
  lastSeen : Z;
}.

(** Both maps hold references to mapping objects: [registerPane] stores one
    object under both keys, and [updateLastSeen] mutates the object found
    through [nativeToStructured]. *)
Record t : Type := {
  store : list PaneMapping;
  nativeToStructured : list (list N * nat);
  structuredToNative : list (list N * nat);
  logged : list (LogLevel * list N);
}.

Definition create : t :=
  {| store := []; nativeToStructured := []; structuredToNative := []; logged := [] |}.

Definition deref (self : t) (ref : nat) : option PaneMapping := store self !! ref.

(** [this.nativeToStructured.get(k)] and [this.structuredToNative.get(k)],
    as the mapping objects they yield. *)
Definition getNative (self : t) (k : list N) : option PaneMapping :=
  JsMap.get k (nativeToStructured self) ≫= deref self.

Definition getStructured (self : t) (k : list N) : option PaneMapping :=
  JsMap.get k (structuredToNative self) ≫= deref self.

Definition log (level : LogLevel) (msg : list N) (self : t) : t :=
  {| store := store self;
     nativeToStructured := nativeToStructured self;
     structuredToNative := structuredToNative self;
     logged := logged self ++ [(level, msg)] |}.

Definition buildStructuredId (session : list N) (window pane : num) : list N :=
  session ++ lit ":" ++ numberToString window ++ lit "." ++ numberToString pane.

Definition registerPane (now : Z) (native session : list N) (window pane : num)
    (self : t) : list N * t :=
  let sid := buildStructuredId session window pane in
  let mapping :=
    {| nativeId := native; structuredId := sid; sessionName := session;
       windowIndex := window; paneIndex := pane; lastSeen := now |} in
  let n2s :=
    match getStructured self sid with
    | Some existingStructured =>
        if decide (nativeId existingStructured ≠ native)
        then JsMap.delete (nativeId existingStructured) (nativeToStructured self)
        else nativeToStructured self
    | None => nativeToStructured self
    end in
  let ref := length (store self) in
  (sid,
   {| store := store self ++ [mapping];
      nativeToStructured := JsMap.set native ref n2s;
      structuredToNative := JsMap.set sid ref (structuredToNative self);
      logged := logged self
                ++ [(DEBUG, lit "Registered pane mapping: " ++ native
                            ++ lit " <-> " ++ sid)] |}).

Definition touch (now : Z) (m : PaneMapping) : PaneMapping :=
  {| nativeId := nativeId m; structuredId := structuredId m;
     sessionName := sessionName m; windowIndex := windowIndex m;
     paneIndex := paneIndex m; lastSeen := now |}.

Definition updateLastSeen (now : Z) (native : list N) (self : t) : t :=
  match JsMap.get native (nativeToStructured self) with
  | Some ref =>
      {| store := alter (touch now) ref (store self);
         nativeToStructured := nativeToStructured self;
         structuredToNative := structuredToNative self;
         logged := logged self |}
  | None => self
  end.

(** The mapping objects of [nativeToStructured.values()], in iteration order. *)
Definition nativeValues (self : t) : list PaneMapping :=
  omap (deref self) (JsMap.values (nativeToStructured self)).

Definition attemptStructuredResolution (sid : list N) (self : t) : option (list N) :=
  match split 58 sid with
  | [session; windowPane] =>
      match split 46 windowPane with
      | [w; p] =>
          let window := parseInt w (Some 10%Z) in
          let pane := parseInt p (Some 10%Z) in
          if isNaN window || isNaN pane then None
          else
            nativeId <$>
              find (λ mapping,
                      bool_decide (sessionName mapping = session)
                      && strictEq (windowIndex mapping) window
                      && strictEq (paneIndex mapping) pane)
                   (nativeValues self)
      | _ => None
      end
  | _ => None
  end.

Definition resolveToNative (now : Z) (paneId : list N) (self : t) : list N * t :=
  if startsWith (lit "%") paneId then (paneId, updateLastSeen now paneId self)
  else
    match getStructured self paneId with
    | Some mapping => (nativeId mapping, updateLastSeen now (nativeId mapping) self)
    | None =>
        let fallback :=
          (paneId,
           log WARN (lit "Unknown pane ID format: " ++ paneId
                     ++ lit ", attempting direct use") self) in
        if includes (lit ":") paneId && includes (lit ".") paneId then
          match attemptStructuredResolution paneId self with
          | Some resolvedNative =>
              if truthy resolvedNative then (resolvedNative, self) else fallback
          | None => fallback
          end
        else fallback
    end.

Definition resolveToStructured (now : Z) (paneId : list N) (self : t) : list N * t :=
  if negb (startsWith (lit "%") paneId) then (paneId, self)
  else
    match getNative self paneId with
    | Some mapping => (structuredId mapping, updateLastSeen now paneId self)
    | None =>
        (paneId,
         log WARN (lit "No structured mapping found for native ID: " ++ paneId) self)
    end.

Definition getSessionMappings (session : list N) (self : t) : list PaneMapping :=
  filter (λ mapping, sessionName mapping = session) (nativeValues self).

(** One turn of the loops of [clearSession] and [cleanupOldMappings]. *)
Definition forget (self : t) (mapping : PaneMapping) : t :=
  {| store := store self;
     nativeToStructured := JsMap.delete (nativeId mapping) (nativeToStructured self);
     structuredToNative := JsMap.delete (structuredId mapping) (structuredToNative self);
     logged := logged self |}.

Definition clearSession (session : list N) (self : t) : t :=
  let mappings := getSessionMappings session self in
  log DEBUG (lit "Cleared " ++ numberToString (Int (Z.of_nat (length mappings)))
             ++ lit " mappings for session: " ++ session)
      (foldl forget self mappings).

(** [cleanupOldMappings], run by the interval timer: mappings not seen for
    an hour go.  The loop deletes the entry it is visiting, so it visits
    the entries present when it started. *)
Definition cleanupOldMappings (now : Z) (self : t) : t :=
  let cutoff := (now - 60 * 60 * 1000)%Z in
  let old := filter (λ mapping, (lastSeen mapping < cutoff)%Z) (nativeValues self) in
  let self' := foldl forget self old in
  if bool_decide (0 < length old)
  then log DEBUG (lit "Cleaned up " ++ numberToString (Int (Z.of_nat (length old)))
                  ++ lit " old pane mappings") self'
  else self'.

Definition totalMappings (self : t) : nat := length (nativeToStructured self).

Definition destroy (self : t) : t :=
  {| store := store self; nativeToStructured := []; structuredToNative := [];
     logged := logged self |}.

End PaneIdResolver.

(** ** [String.prototype.replace] with a global regular expression *)

Module Replace.

(** GetSubstitution for a pattern without capture groups: [$$], [$&],
    [$`] and [$'] are expanded, every other [$] is literal. *)
Fixpoint getSubstitution (matched before after replacement : list N) : list N :=
  match replacement with
  | [] => []
  | c :: r =>
      if bool_decide (c = 36%N) then
        match r with
        | d :: r' =>
            if bool_decide (d = 36%N) then 36%N :: getSubstitution matched before after r'
            else if bool_decide (d = 38%N) then matched ++ getSubstitution matched before after r'
            else if bool_decide (d = 96%N) then before ++ getSubstitution matched before after r'
            else if bool_decide (d = 39%N) then after ++ getSubstitution matched before after r'
            else c :: getSubstitution matched before after r
        | [] => [c]
        end
      else c :: getSubstitution matched before after r
  end.

(** [s.replace(re, replacement)] for [re] with the [g] flag and no groups.
    [i] is the index in [s] at which [suffix] starts; after an empty match
    the scan moves on by one unit, and stops at the end of the input.  Each
    turn consumes at least one unit, so [fuel] above the length of [suffix]
    is never used up. *)
Fixpoint replaceFrom (fuel : nat) (re : RegExp) (replacement s : list N)
    (i : nat) (suffix : list N) : list N :=
  match fuel with
  | O => suffix
  | S fuel' =>
      match search re i suffix with
      | None => suffix
      | Some (j, st) =>
          let e := pos st in
          let untouched := take (j - i) suffix in
          let matched := take (e - j) (drop (j - i) suffix) in
          let substituted := getSubstitution matched (take j s) (drop e s) replacement in
          if bool_decide (e = j) then
            match drop (j - i) suffix with
            | [] => untouched ++ substituted
            | x :: more =>
                untouched ++ substituted ++ x
                :: replaceFrom fuel' re replacement s (S j) more
            end
          else
            untouched ++ substituted
            ++ replaceFrom fuel' re replacement s e (drop (e - i) suffix)
      end
  end.

Definition replaceAll (re : RegExp) (replacement s : list N) : list N :=
  replaceFrom (S (length s)) re replacement s 0 s.

(** A regular-expression literal that is one (escaped) character, as in
    [/\\/g] or [/;/g]. *)
Definition unitRegExp (c : N) : RegExp :=
  {| body := RChar c; groupCount := 0; ignoreCase := false; dotAll := false |}.

(** A replacement text without [$] patterns stands for itself. *)
Definition plain (replacement : list N) : Prop :=
  ∀ matched before after, getSubstitution matched before after replacement = replacement.

End Replace.

(** ** Command escaper ([utils/command-escaper.ts]) *)

Module CommandEscaper.

Definition dangerousCommands : list (list N) :=
  lit <$> ["rm"; "rmdir"; "dd"; "mkfs"; "fdisk"; "sudo"; "su"; "chmod"; "chown";
           "kill"; "killall"; "pkill"; "halt"; "reboot"; "shutdown"; "format";
           "del"; "deltree"]%string.

Definition safeDevelopmentCommands : list (list N) :=
  lit <$> ["node"; "npm"; "yarn"; "pnpm"; "python"; "python3"; "pip"; "cargo";
           "rustc"; "go"; "java"; "javac"; "tsc"; "tsx"; "jest"; "vitest";
           "mocha"; "pytest"; "git"; "docker"; "docker-compose"; "make";
           "cmake"; "webpack"; "vite"; "rollup"; "esbuild"; "ls"; "cat";
           "echo"; "pwd"; "cd"; "mkdir"; "touch"; "cp"; "mv"; "grep"; "find";
           "which"; "whereis"; "ps"; "top"; "htop"; "curl"; "wget"; "ping";
           "netstat"; "lsof"]%string.

(** [Set.prototype.has]. *)
Definition has (set : list (list N)) (x : list N) : bool := bool_decide (x ∈ set).

(** The options after the constructor merged the defaults in. *)
Record Options : Type := {
  allowDangerous : bool;
  logCommands : bool;
  defaultTimeout : Z;
}.

Definition defaultOptions : Options :=
  {| allowDangerous := false; logCommands := true; defaultTimeout := 30000 |}.

Definition backslash : N := 92.

(** The chain of [replace] calls of [escapeForTmuxSendKeys]. *)
Definition escapeForTmuxSendKeys (command : list N) : list N :=
  let s1 := Replace.replaceAll (Replace.unitRegExp backslash) [backslash; backslash] command in
  let s2 := Replace.replaceAll (Replace.unitRegExp 34) [backslash; 34%N] s1 in
  let s3 := Replace.replaceAll (Replace.unitRegExp 39) [39; 34; 39; 34; 39]%N s2 in
  let s4 := Replace.replaceAll (Replace.unitRegExp 36) [backslash; 36%N] s3 in
  let s5 := Replace.replaceAll (Replace.unitRegExp 96) [backslash; 96%N] s4 in
  let s6 := Replace.replaceAll (Replace.unitRegExp 59) [backslash; 59%N] s5 in
  let s7 := Replace.replaceAll (Replace.unitRegExp 124) [backslash; 124%N] s6 in
  Replace.replaceAll (Replace.unitRegExp 38) [backslash; 38%N] s7.

Definition verb : regex := RGroup 1 (ralt [rlit "rm"; rlit "del"; rlit "format"]).

Definition chained (sep : regex) : RegExp :=
  {| body := rseq [sep; RStar true rspace; verb];
     groupCount := 1; ignoreCase := true; dotAll := false |}.

Definition wrapped (opening : regex) (closing : N) : RegExp :=
  {| body := rseq [opening; RStar true (RSet true [CUnit closing]); rlit "rm";
                   RStar true (RSet true [CUnit closing]); RChar closing];
     groupCount := 0; ignoreCase := true; dotAll := false |}.

(** [/;\s*(rm|del|format)/i], [/\|\s*(rm|del|format)/i],
    [/&&\s*(rm|del|format)/i], [/\$\([^)]*rm[^)]*\)/i], [/`[^`]*rm[^`]*`/i] *)
Definition suspiciousPatterns : list RegExp :=
  [ chained (rlit ";"); chained (rlit "|"); chained (rlit "&&");
    wrapped (rlit "$(") 41; wrapped (RChar 96) 96 ].

(** A call either throws [Error(message)] or returns, having sent the
    listed lines to the logger. *)
Inductive Outcome : Type :=
| Threw (message : list N)
| Returned (logs : list (LogLevel * list N)).

Definition baseCommandOf (command : list N) : list N :=
  orElse (pop (split 47 command)) command.

Definition validateCommand (options : Options) (command : list N)
    (args : list (list N)) : Outcome :=
  let baseCommand := baseCommandOf command in
  if has dangerousCommands baseCommand && negb (allowDangerous options) then
    Threw (lit "Dangerous command blocked: " ++ baseCommand
           ++ lit ". Use allowDangerous option to override.")
  else
    let allArgs := join (lit " ") args in
    if existsb (λ pattern, test pattern allArgs) suspiciousPatterns then
      Threw (lit "Suspicious command pattern detected in arguments: " ++ allArgs)
    else if negb (has safeDevelopmentCommands baseCommand)
            && negb (bool_decide (baseCommand = lit "tmux")) then
      Returned [(WARN, lit "Executing non-standard development command: " ++ baseCommand)]
    else Returned [].

(** [isCommandSafe]: [{ safe, reason }]. *)
Definition isCommandSafe (options : Options) (command : list N)
    (args : list (list N)) : bool * option (list N) :=
  match validateCommand options command args with
  | Returned _ => (true, None)
  | Threw message => (false, Some message)
  end.

(** [CommandOptions], as far as the escaper reads them; an absent key is
    [None].  The environment is handed on as it is given. *)
Record CommandOptions : Type := {
  cwd : option (list N);
  timeout : option Z;
  validate : option bool;
}.

Definition noCommandOptions : CommandOptions :=
  {| cwd := None; timeout := None; validate := None |}.

(** The call of [execFile] that [executeCommand] makes. *)
Record Launch : Type := {
  l_file : list N;
  l_args : list (list N);
  l_cwd : option (list N);
  l_timeout : Z;
}.

(** [executeCommand] up to the call of [execFile]: the validation throws,
    or the process is launched after the listed logger calls. *)
Inductive Attempt : Type :=
| Refused (message : list N)
| Launched (logs : list (LogLevel * list N)) (launch : Launch).

Definition executeCommand (options : Options) (command : list N)
    (args : list (list N)) (o : CommandOptions) : Attempt :=
  let validated :=
    if default false (validate o) then validateCommand options command args
    else Returned [] in
  match validated with
  | Threw message => Refused message
  | Returned logs =>
      Launched
        (logs
         ++ if logCommands options
            then [(DEBUG, lit "Executing command: " ++ command ++ lit " "
                          ++ join (lit " ") args)]
            else [])
        {| l_file := command; l_args := args; l_cwd := cwd o;
           l_timeout :=
             match timeout o with
             | Some ms => if bool_decide (ms = 0%Z) then defaultTimeout options else ms
             | None => defaultTimeout options
             end |}
  end.

(** [executeTmuxCommand]: [validate] is on unless the caller's options
    carry the key. *)
Definition executeTmuxCommand (options : Options) (subcommand : list N)
    (args : list (list N)) (o : CommandOptions) : Attempt :=
  executeCommand options (lit "tmux") (subcommand :: args)
    {| cwd := cwd o; timeout := timeout o;
       validate := Some (default true (validate o)) |}.

Definition sendKeysToPane (options : Options) (paneId command : list N)
    (o : CommandOptions) : Attempt :=
  executeTmuxCommand options (lit "send-keys")
    [lit "-t"; paneId; escapeForTmuxSendKeys command; lit "Enter"] o.

End CommandEscaper.

(** ** Sending a command to a pane ([core/tmux-manager.ts]) *)

Module TmuxManager.

(** [executeCommand(paneId, command)]: the pane id is resolved to the
    native handle, and the command is typed into that pane.  The result is
    what the escaper attempted, the resolver afterwards, and the manager's
    own logger calls; a refusal is logged and thrown on. *)
Definition executeCommand (now : Z) (options : CommandEscaper.Options)
    (paneId command : list N) (resolver : PaneIdResolver.t)
    : CommandEscaper.Attempt * PaneIdResolver.t * list (LogLevel * list N) :=
  let '(nativePaneId, resolver') := PaneIdResolver.resolveToNative now paneId resolver in
  let attempt :=
    CommandEscaper.sendKeysToPane options nativePaneId command
      CommandEscaper.noCommandOptions in
  (attempt, resolver',
   (DEBUG, lit "Executing command in pane " ++ paneId ++ lit ": " ++ command)
   :: match attempt with
      | CommandEscaper.Refused _ =>
          [(ERROR, lit "Failed to execute command in pane " ++ paneId ++ lit ":")]
      | CommandEscaper.Launched _ _ => []
      end).

End TmuxManager.

(** ** [Buffer.prototype.toString('utf8')] *)

(** UTF-8 decoding with U+FFFD for every ill-formed maximal subpart, then
    UTF-16 encoding of the code points. *)
Module Utf8.

Record dstate : Type := {
  codePoint : N;
  needed : nat;
  seen : nat;
  lower : N;
  upper : N;
}.

Definition idle : dstate :=
  {| codePoint := 0; needed := 0; seen := 0; lower := 0x80; upper := 0xBF |}.

Definition lead (b : N) : dstate * list N :=
  if bool_decide (b ≤ 0x7F)%N then (idle, [b])
  else if bool_decide (0xC2 ≤ b ≤ 0xDF)%N then
    ({| codePoint := N.land b 0x1F; needed := 1; seen := 0;
        lower := 0x80; upper := 0xBF |}, [])
  else if bool_decide (0xE0 ≤ b ≤ 0xEF)%N then
    ({| codePoint := N.land b 0xF; needed := 2; seen := 0;
        lower := if bool_decide (b = 0xE0)%N then 0xA0 else 0x80;
        upper := if bool_decide (b = 0xED)%N then 0x9F else 0xBF |}, [])
  else if bool_decide (0xF0 ≤ b ≤ 0xF4)%N then
    ({| codePoint := N.land b 0x7; needed := 3; seen := 0;
        lower := if bool_decide (b = 0xF0)%N then 0x90 else 0x80;
        upper := if bool_decide (b = 0xF4)%N then 0x8F else 0xBF |}, [])
  else (idle, [0xFFFD%N]).

Definition feed (st : dstate) (b : N) : dstate * list N :=
  if bool_decide (needed st = 0) then lead b
  else if negb (bool_decide (lower st ≤ b ≤ upper st)%N) then
    let '(st', out) := lead b in (st', 0xFFFD%N :: out)
  else
    let cp := N.lor (N.shiftl (codePoint st) 6) (N.land b 0x3F) in
    if bool_decide (S (seen st) = needed st) then (idle, [cp])
    else ({| codePoint := cp; needed := needed st; seen := S (seen st);
             lower := 0x80; upper := 0xBF |}, []).

Fixpoint codePoints (st : dstate) (bytes : list byte) : list N :=
  match bytes with
  | [] => if bool_decide (needed st = 0) then [] else [0xFFFD%N]
  | b :: more =>
      let '(st', out) := feed st (Byte.to_N b) in out ++ codePoints st' more
  end.

Definition units (cp : N) : list N :=
  if bool_decide (cp < 0x10000)%N then [cp]
  else
    let c := (cp - 0x10000)%N in
    [(0xD800 + N.shiftr c 10)%N; (0xDC00 + N.land c 0x3FF)%N].

Definition decode (bytes : list byte) : list N := codePoints idle bytes ≫= units.

End Utf8.

(** ** File watcher ([utils/file-watcher.ts]) *)

Module FileWatcher.

Record WatcherOptions : Type := {
  debounceMs : Z;
  maxFileSize : N;
  excludePatterns : list (list N);
}.

Definition defaultOptions : WatcherOptions :=
  {| debounceMs := 100; maxFileSize := 10 * 1024 * 1024;
     excludePatterns := [lit "*.tmp"; lit "*.swp"] |}.

(** The file system as one notification sees it: the bytes of each
    existing file.  [stat] and the read that follows see the same file. *)
Definition Fs : Type := list N → option (list byte).

(** What the watcher does to the outside: reads of [length] bytes at
    [position], callback invocations, logger calls. *)
Inductive Effect : Type :=
| ReadRange (filePath : list N) (position length : N) (bytes : list byte)
| Delivered (filePath : list N) (content : list N)
| Logged (level : LogLevel) (message : list N).

(** A callback, as far as the watcher can tell: given the content, does it
    return ([true]) or throw ([false]). *)
Definition Callback : Type := list N → bool.

Record t : Type := {
  options : WatcherOptions;
  watchers : list (list N * unit);
  filePositions : gmap (list N) N;
  callbacks : gmap (list N) Callback;
  trace : list Effect;
}.

Definition create (options : WatcherOptions) : t :=
  {| options := options; watchers := []; filePositions := ∅; callbacks := ∅;
     trace := [] |}.

Definition emit (effects : list Effect) (self : t) : t :=
  {| options := options self; watchers := watchers self;
     filePositions := filePositions self; callbacks := callbacks self;
     trace := trace self ++ effects |}.

Definition setPosition (filePath : list N) (position : N) (self : t) : t :=
  {| options := options self; watchers := watchers self;
     filePositions := <[filePath := position]> (filePositions self);
     callbacks := callbacks self; trace := trace self |}.

Definition size (content : list byte) : N := N.of_nat (length content).

(** [fileHandle.read(buffer, 0, length, position)] into a fresh buffer. *)
Definition readAt (content : list byte) (position length : N) : list byte :=
  take (N.to_nat length) (drop (N.to_nat position) content).

(** [watchFile]: [false] when the promise rejects ([stat] failed). *)
Definition watchFile (fs : Fs) (filePath : list N) (callback : Callback)
    (self : t) : bool * t :=
  match fs filePath with
  | None =>
      (false, emit [Logged ERROR (lit "Failed to watch file " ++ filePath ++ lit ":")] self)
  | Some content =>
      let big := bool_decide (maxFileSize (options self) < size content)%N in
      let start := if big then size content else 0%N in
      (true,
       {| options := options self;
          watchers := JsMap.set filePath () (watchers self);
          filePositions := <[filePath := start]> (filePositions self);
          callbacks := <[filePath := callback]> (callbacks self);
          trace := trace self
                   ++ (if big
                       then [Logged WARN (lit "File " ++ filePath
                                          ++ lit " exceeds max size, watching from end")]
                       else [])
                   ++ [Logged DEBUG (lit "Started watching file: " ++ filePath)] |})
  end.

(** The recorded offset, [this.filePositions.get(filePath) || 0]. *)
Definition currentPosition (self : t) (filePath : list N) : N :=
  default 0%N (filePositions self !! filePath).

(** [handleFileChange], the handler of a change notification. *)
Definition handleFileChange (fs : Fs) (filePath : list N) (self : t) : t :=
  match (callbacks self !! filePath : option Callback) with
  | None => self
  | Some callback =>
      let position := currentPosition self filePath in
      match fs filePath with
      | None =>
          emit [Logged ERROR (lit "Error handling file change for " ++ filePath ++ lit ":")] self
      | Some content =>
          if bool_decide (size content < position)%N then setPosition filePath 0 self
          else if bool_decide (size content = position) then self
          else
            let length := (size content - position)%N in
            let bytes := readAt content position length in
            let newContent := Utf8.decode bytes in
            let self1 := emit [ReadRange filePath position length bytes] self in
            if truthy (trim newContent) then
              let self2 := emit [Delivered filePath newContent] self1 in
              if (callback : list N → bool) newContent then setPosition filePath (size content) self2
              else
                emit [Logged ERROR (lit "Error handling file change for "
                                    ++ filePath ++ lit ":")] self2
            else setPosition filePath (size content) self1
      end
  end.

(** The state after a notification that finds the file longer than the
    recorded offset. *)
Definition afterGrowth (filePath : list N) (callback : Callback) (content : list byte)
    (self : t) : t :=
  let offset := currentPosition self filePath in
  let bytes := drop (N.to_nat offset) content in
  let text := Utf8.decode bytes in
  let read := emit [ReadRange filePath offset (size content - offset) bytes] self in
  if truthy (trim text) then
    if callback text then setPosition filePath (size content) (emit [Delivered filePath text] read)
    else emit [Logged ERROR (lit "Error handling file change for " ++ filePath ++ lit ":")]
           (emit [Delivered filePath text] read)
  else setPosition filePath (size content) read.

Definition stopWatching (filePath : list N) (self : t) : t :=
  if JsMap.has filePath (watchers self) then
    {| options := options self;
       watchers := JsMap.delete filePath (watchers self);
       filePositions := delete filePath (filePositions self);
       callbacks := delete filePath (callbacks self);
       trace := trace self ++ [Logged DEBUG (lit "Stopped watching file: " ++ filePath)] |}
  else self.

Definition stopAll (self : t) : t :=
  foldl (λ acc filePath, stopWatching filePath acc) self (JsMap.keys (watchers self)).

Definition getWatchedFiles (self : t) : list (list N) := JsMap.keys (watchers self).

(** A run of change notifications for one file, each with the file system
    it finds. *)
Definition notifications (filePath : list N) (snapshots : list Fs) (self : t) : t :=
  foldl (λ acc fs, handleFileChange fs filePath acc) self snapshots.

(** The contents handed to the callback of [filePath], in order. *)
Definition deliveries (filePath : list N) (effects : list Effect) : list (list N) :=
  omap (λ e, match e with
             | Delivered p content => if decide (p = filePath) then Some content else None
             | _ => None
             end) effects.

(** The byte ranges read from [filePath], in order. *)
Definition reads (filePath : list N) (effects : list Effect) : list (N * list byte) :=
  omap (λ e, match e with
             | ReadRange p position _ bytes =>
                 if decide (p = filePath) then Some (position, bytes) else None
             | _ => None
             end) effects.

End FileWatcher.

(** ** Error watcher ([core/error-watcher.ts]) *)

Module ErrorWatcher.

(** The fields of [TmuxPane] that the watcher reads. *)
Record TmuxPane : Type := {
  id : list N;
  logFile : option (list N);
  command : list N;
}.

(** [/^(.+?)\((\d+),(\d+)\):\s*(error|warning)\s*TS\d+:\s*(.+)$/] *)
Definition typescript_watch_regex : RegExp :=
  {| body := body LogAnalyzer.typescript_regex; groupCount := 5;
     ignoreCase := false; dotAll := false |}.

(** [/^\s*(\d+):(\d+)\s+(error|warning)\s+(.+?)\s+(.+)$/] *)
Definition eslint_watch_regex : RegExp :=
  {| body := rseq [RBol; RStar true rspace; RGroup 1 (RPlus true rdigit); rlit ":";
                   RGroup 2 (RPlus true rdigit); RPlus true rspace;
                   RGroup 3 (ralt [rlit "error"; rlit "warning"]);
                   RPlus true rspace; RGroup 4 (RPlus false RAny);
                   RPlus true rspace; RGroup 5 (RPlus true RAny); REol];
     groupCount := 5; ignoreCase := false; dotAll := false |}.

Definition errorPatterns : list ErrorPattern :=
  [ {| ep_name := lit "typescript_watch"; ep_regex := typescript_watch_regex;
       ep_type := error; ep_language := Some (lit "typescript");
       ep_captureGroups := LogAnalyzer.groups (Some 1) (Some 2) (Some 3) 5 |};
    {| ep_name := lit "rust_watch"; ep_regex := LogAnalyzer.rust_regex;
       ep_type := error; ep_language := Some (lit "rust");
       ep_captureGroups := LogAnalyzer.groups (Some 2) (Some 3) (Some 4) 1 |};
    {| ep_name := lit "go_watch"; ep_regex := LogAnalyzer.go_regex;
       ep_type := error; ep_language := Some (lit "go");
       ep_captureGroups := LogAnalyzer.groups (Some 1) (Some 2) (Some 3) 4 |};
    {| ep_name := lit "eslint_watch"; ep_regex := eslint_watch_regex;
       ep_type := error; ep_language := Some (lit "javascript");
       ep_captureGroups := LogAnalyzer.groups None (Some 1) (Some 2) 4 |} ].

Definition buildCommands : list (list N * list N) :=
  [ (lit "typescript", lit "tsc --watch --noEmit");
    (lit "javascript", lit "eslint --cache --watch");
    (lit "rust", lit "cargo check --watch");
    (lit "go", lit "go build -watch");
    (lit "python", lit "python -m py_compile");
    (lit "java", lit "javac -Xlint:all") ].

Inductive Event : Type :=
| EvError (entry : ErrorEntry)
| EvWarning (entry : ErrorEntry)
| EvClear.

(** [buildWatchers] holds, for a pane, the command line of its child
    process; [watchedPanes] is a [Set], kept in insertion order. *)
Record t : Type := {
  fileWatcher : FileWatcher.t;
  buildWatchers : list (list N * list N);
  errorCache : list (list N * list ErrorEntry);
  watchedPanes : list (list N);
  patterns : list ErrorPattern;
  emitted : list Event;
  logged : list (LogLevel * list N);
}.

Definition defaultOptions : FileWatcher.WatcherOptions :=
  {| FileWatcher.debounceMs := 500; FileWatcher.maxFileSize := 50 * 1024 * 1024;
     FileWatcher.excludePatterns := [lit "node_modules/**"; lit ".git/**"; lit "dist/**"] |}.

Definition create (options : FileWatcher.WatcherOptions) : t :=
  {| fileWatcher := FileWatcher.create options; buildWatchers := [];
     errorCache := []; watchedPanes := []; patterns := errorPatterns;
     emitted := []; logged := [] |}.

Definition update (fw : FileWatcher.t) (bw : list (list N * list N))
    (cache : list (list N * list ErrorEntry)) (panes : list (list N))
    (events : list Event) (logs : list (LogLevel * list N)) (self : t) : t :=
  {| fileWatcher := fw; buildWatchers := bw; errorCache := cache;
     watchedPanes := panes; patterns := patterns self;
     emitted := emitted self ++ events; logged := logged self ++ logs |}.

Definition detectLanguage (command : list N) : option (list N) :=
  let commands := toLowerCase command in
  let has (w : string) := includes (lit w) commands in
  if has "tsc" || has "typescript" then Some (lit "typescript")
  else if has "cargo" || has "rust" then Some (lit "rust")
  else if has "go " || has "golang" then Some (lit "go")
  else if has "python" || has "py" then Some (lit "python")
  else if has "java" || has "javac" then Some (lit "java")
  else if has "node" || has "npm" || has "yarn" then Some (lit "javascript")
  else None.

(** [startBuildWatcher]: the detected language selects the child process. *)
Definition startBuildWatcher (pane : TmuxPane) (self : t) : t :=
  match detectLanguage (command pane) with
  | None =>
      update (fileWatcher self) (buildWatchers self) (errorCache self)
        (watchedPanes self) []
        [(DEBUG, lit "No specific language detected for pane " ++ id pane)] self
  | Some language =>
      match JsMap.get language buildCommands with
      | None =>
          update (fileWatcher self) (buildWatchers self) (errorCache self)
            (watchedPanes self) []
            [(DEBUG, lit "No build command available for language: " ++ language)] self
      | Some cmd =>
          update (fileWatcher self) (JsMap.set (id pane) cmd (buildWatchers self))
            (errorCache self) (watchedPanes self) []
            [(DEBUG, lit "Starting " ++ language ++ lit " build watcher for pane " ++ id pane)]
            self
      end
  end.

(** [Set.prototype.add]. *)
Definition setAdd (x : list N) (s : list (list N)) : list (list N) :=
  if bool_decide (x ∈ s) then s else s ++ [x].

(** The callback handed to the file watcher runs [processLogContent]; the
    server registers listeners for the events it emits, so it returns. *)
Definition tailCallback : FileWatcher.Callback := λ _, true.

(** [startWatching]: [false] when it rethrows the failure of [watchFile]. *)
Definition startWatching (fs : FileWatcher.Fs) (pane : TmuxPane) (self : t) : bool * t :=
  let self0 :=
    update (fileWatcher self) (buildWatchers self) (errorCache self)
      (watchedPanes self) []
      [(INFO, lit "Starting error watching for pane: " ++ id pane)] self in
  if bool_decide (id pane ∈ watchedPanes self) then
    (true,
     update (fileWatcher self0) (buildWatchers self0) (errorCache self0)
       (watchedPanes self0) []
       [(WARN, lit "Pane " ++ id pane ++ lit " is already being watched")] self0)
  else
    let panes := setAdd (id pane) (watchedPanes self0) in
    let watched :=
      match logFile pane with
      | Some file =>
          if truthy file then FileWatcher.watchFile fs file tailCallback (fileWatcher self0)
          else (true, fileWatcher self0)
      | None => (true, fileWatcher self0)
      end in
    let self1 :=
      update (watched.2) (buildWatchers self0) (errorCache self0) panes [] [] self0 in
    if watched.1 then
      let self2 := startBuildWatcher pane self1 in
      (true,
       update (fileWatcher self2) (buildWatchers self2) (errorCache self2)
         (watchedPanes self2) []
         [(INFO, lit "Error watching started for pane: " ++ id pane)] self2)
    else
      (false,
       update (fileWatcher self1) (buildWatchers self1) (errorCache self1)
         (watchedPanes self1) []
         [(ERROR, lit "Failed to start watching pane " ++ id pane ++ lit ":")] self1).

Definition stopWatching (paneId : list N) (self : t) : t :=
  update (fileWatcher self) (JsMap.delete paneId (buildWatchers self))
    (JsMap.delete paneId (errorCache self))
    (filter (λ p, p ≠ paneId) (watchedPanes self)) []
    [(INFO, lit "Stopping error watching for pane: " ++ paneId);
     (INFO, lit "Error watching stopped for pane: " ++ paneId)] self.

Fixpoint matchFirst (now : Z) (salt : list N) (patterns : list ErrorPattern)
    (line paneId : list N) (language : option (list N)) : option ErrorEntry :=
  match patterns with
  | [] => None
  | pattern :: more =>
      let skip :=
        match given language, given (ep_language pattern) with
        | Some l, Some pl => bool_decide (pl ≠ l)
        | _, _ => false
        end in
      if skip then matchFirst now salt more line paneId language
      else
        match exec (ep_regex pattern) line with
        | Some m =>
            let g := ep_captureGroups pattern in
            Some {| e_id := paneId ++ lit ":" ++ numberToString (Int now) ++ lit ":" ++ salt;
                    e_paneId := paneId;
                    e_file := mjoin (whenGroup (cg_file g) (group m));
                    e_line := whenGroup (cg_line g)
                                (λ i, parseInt (toStringOpt (group m i)) None);
                    e_column := whenGroup (cg_column g)
                                  (λ i, parseInt (toStringOpt (group m i)) None);
                    e_message := orElse (group m (cg_message g)) line;
                    e_type := ep_type pattern;
                    e_language :=
                      match given (ep_language pattern) with
                      | Some pl => Some pl
                      | None => language
                      end;
                    e_timestamp := now |}
        | None => matchFirst now salt more line paneId language
        end
  end.

(** [matchErrorPatterns]; [salt] is the random suffix of the entry id. *)
Definition matchErrorPatterns (now : Z) (salt : list N) (self : t)
    (line paneId : list N) (language : option (list N)) : option ErrorEntry :=
  matchFirst now salt (patterns self) line paneId language.

(** [addError]: append, then keep the last 100 of the pane. *)
Definition addError (entry : ErrorEntry) (self : t) : t :=
  let errors := default [] (JsMap.get (e_paneId entry) (errorCache self)) ++ [entry] in
  let kept := if bool_decide (100 < length errors) then drop (length errors - 100) errors
              else errors in
  update (fileWatcher self) (buildWatchers self)
    (JsMap.set (e_paneId entry) kept (errorCache self)) (watchedPanes self) [] [] self.

Definition announce (entry : ErrorEntry) (self : t) : t :=
  update (fileWatcher self) (buildWatchers self) (errorCache self) (watchedPanes self)
    (match e_type entry with
     | error => [EvError entry]
     | warning => [EvWarning entry]
     | info => []
     end) [] self.

(** The common loop of [processLogContent] and [processBuildOutput]. *)
Definition processLines (now : Z) (salt : list N) (text paneId : list N)
    (language : option (list N)) (self : t) : t :=
  let lines := filter (λ line, truthy (trim line) = true) (split 10 text) in
  foldl (λ acc line,
           match matchErrorPatterns now salt acc line paneId language with
           | Some entry => announce entry (addError entry acc)
           | None => acc
           end) self lines.

Definition processLogContent (now : Z) (salt : list N) (content paneId : list N)
    (self : t) : t :=
  processLines now salt content paneId None self.


Definition getErrors (paneId : list N) (self : t) : list ErrorEntry :=
  default [] (JsMap.get paneId (errorCache self)).

Definition getAllErrors (self : t) : list (list N * list ErrorEntry) := errorCache self.

Definition clearErrors (paneId : option (list N)) (self : t) : t :=
  match given paneId with
  | Some p =>
      update (fileWatcher self) (buildWatchers self) (JsMap.delete p (errorCache self))
        (watchedPanes self) [] [(DEBUG, lit "Cleared errors for pane: " ++ p)] self
  | None =>
      update (fileWatcher self) (buildWatchers self) [] (watchedPanes self)
        [EvClear] [(DEBUG, lit "Cleared all errors")] self
  end.

Record Summary : Type := {
  total : nat;
  errors : nat;
  warnings : nat;
}.

Definition count (entries : list ErrorEntry) : Summary :=
  {| total := length entries;
     errors := length (filter (λ e, e_type e = error) entries);
     warnings := length (filter (λ e, e_type e = warning) entries) |}.

Definition getErrorSummary (paneId : option (list N)) (self : t) : Summary :=
  let cacheToAnalyze :=
    match given paneId with
    | Some p => [(p, default [] (JsMap.get p (errorCache self)))]
    | None => errorCache self
    end in
  count (concat (JsMap.values cacheToAnalyze)).

Definition getWatchedPanes (self : t) : list (list N) := watchedPanes self.

Definition addCustomPattern (pattern : ErrorPattern) (self : t) : t :=
  {| fileWatcher := fileWatcher self; buildWatchers := buildWatchers self;
     errorCache := errorCache self; watchedPanes := watchedPanes self;
     patterns := patterns self ++ [pattern];
     emitted := emitted self;
     logged := logged self
               ++ [(DEBUG, lit "Added custom error pattern: " ++ ep_name pattern)] |}.

Definition removePattern (name : list N) (self : t) : t :=
  if bool_decide (name ∈ ep_name <$> patterns self) then
    {| fileWatcher := fileWatcher self; buildWatchers := buildWatchers self;
       errorCache := errorCache self; watchedPanes := watchedPanes self;
       patterns := LogAnalyzer.removeFirst name (patterns self);
       emitted := emitted self;
       logged := logged self ++ [(DEBUG, lit "Removed error pattern: " ++ name)] |}
  else self.

(** [m.set(k, (m.get(k) || 0) + 1)] on a [Map] that counts. *)
Fixpoint countUp {K} `{EqDecision K} (k : K) (m : list (K * nat)) : list (K * nat) :=
  match m with
  | [] => [(k, 1)]
  | (k', n) :: r => if decide (k' = k) then (k', S n) :: r else (k', n) :: countUp k r
  end.

(** [sort((a, b) => b.count - a.count)]: the sort of an array is stable, so
    the result is the one of inserting each element before the first one
    behind it that does not count more. *)
Fixpoint insertByCount {K} (x : K * nat) (sorted : list (K * nat)) : list (K * nat) :=
  match sorted with
  | [] => [x]
  | y :: r => if bool_decide (y.2 ≤ x.2) then x :: y :: r else y :: insertByCount x r
  end.

Definition sortByCount {K} (a : list (K * nat)) : list (K * nat) :=
  foldr insertByCount [] a.

Record ErrorAnalysis : Type := {
  recentErrors : list ErrorEntry;
  topFiles : list (list N * nat);
  errorTypes : list (Severity * nat);
  lastHour : nat;
  lastDay : nat;
}.

Definition analyzeErrors (now : Z) (paneId : list N) (self : t) : ErrorAnalysis :=
  let errors := getErrors paneId self in
  let oneHour := (60 * 60 * 1000)%Z in
  let oneDay := (24 * oneHour)%Z in
  let fileCount :=
    foldl (λ m e, match given (e_file e) with
                  | Some file => countUp file m
                  | None => m
                  end) [] errors in
  let typeCount := foldl (λ m e, countUp (e_type e) m) [] errors in
  {| recentErrors := drop (length errors - 10) errors;
     topFiles := take 5 (sortByCount fileCount);
     errorTypes := sortByCount typeCount;
     lastHour := length (filter (λ e, (now - e_timestamp e < oneHour)%Z) errors);
     lastDay := length (filter (λ e, (now - e_timestamp e < oneDay)%Z) errors) |}.

(** [destroy]: the build watchers are killed, the file watcher stops every
    file, the caches are cleared. *)
Definition destroy (self : t) : t :=
  update (FileWatcher.stopAll (fileWatcher self)) [] [] [] []
    [(INFO, lit "Destroying ErrorWatcher")] self.

End ErrorWatcher.

(** ** MCP integrator ([core/mcp-integrator.ts]) *)

Module McpIntegrator.

(** The switches of [McpIntegrationConfig] that the handlers read. *)
Record Config : Type := {
  sequentialThinking_enabled : bool;
  onError : bool;
  onMultipleErrors : Z;
  onProcessCrash : bool;
  rikaTesting_enabled : bool;
  onPortChange : bool;
  context7Docs_enabled : bool;
  onFrameworkDetection : bool;
  onErrorPattern : bool;
}.

Definition defaultConfig : Config :=
  {| sequentialThinking_enabled := true; onError := true; onMultipleErrors := 3;
     onProcessCrash := true; rikaTesting_enabled := false; onPortChange := false;
     context7Docs_enabled := true; onFrameworkDetection := true;
     onErrorPattern := true |}.

Record ProcessHealth : Type := {
  h_paneId : list N;
  h_processName : list N;
  h_pid : Z;
  h_restartCount : Z;
}.

(** The [params] handed to [triggerSequentialAnalysis] by the handlers. *)
Inductive Analysis : Type :=
| error_analysis (entry : ErrorEntry)
| multiple_errors_analysis (entries : list ErrorEntry)
| crash_analysis (health : ProcessHealth).

Inductive DocType : Type :=
| doc_error
| framework_setup
| best_practices.

Definition docTypeString (type : DocType) : list N :=
  match type with
  | doc_error => lit "error"
  | framework_setup => lit "framework_setup"
  | best_practices => lit "best_practices"
  end.

Definition severityString (type : Severity) : list N :=
  match type with
  | error => lit "error"
  | warning => lit "warning"
  | info => lit "info"
  end.

(** What [emit] sends out. *)
Inductive Emitted : Type :=
| mcp_event (type : list N) (paneId : list N) (timestamp : Z)
| trigger_sequential (paneId : list N) (analysis : Analysis) (timestamp : Z)
| trigger_context7 (library query : list N) (type : DocType) (timestamp : Z)
| trigger_rika (port : Z) (paneId : option (list N)) (timestamp : Z).

Record t : Type := {
  config : Config;
  lastTriggers : gmap (list N) Z;
  activeAnalyses : gset (list N);
  emitted : list Emitted;
  logged : list (LogLevel * list N);
}.

Definition create (config : Config) : t :=
  {| config := config; lastTriggers := ∅; activeAnalyses := ∅; emitted := [];
     logged := [] |}.

Definition log (level : LogLevel) (msg : list N) (self : t) : t :=
  {| config := config self; lastTriggers := lastTriggers self;
     activeAnalyses := activeAnalyses self; emitted := emitted self;
     logged := logged self ++ [(level, msg)] |}.

Definition emit (event : Emitted) (self : t) : t :=
  {| config := config self; lastTriggers := lastTriggers self;
     activeAnalyses := activeAnalyses self; emitted := emitted self ++ [event];
     logged := logged self |}.

Definition stamp (key : list N) (now : Z) (self : t) : t :=
  {| config := config self; lastTriggers := <[key := now]> (lastTriggers self);
     activeAnalyses := activeAnalyses self; emitted := emitted self;
     logged := logged self |}.

Definition setActive (active : gset (list N)) (self : t) : t :=
  {| config := config self; lastTriggers := lastTriggers self;
     activeAnalyses := active; emitted := emitted self; logged := logged self |}.

(** [lastTrigger && Date.now() - lastTrigger.getTime() < debounceMs] *)
Definition debounced (self : t) (key : list N) (now debounceMs : Z) : bool :=
  match lastTriggers self !! key with
  | Some lastTrigger => bool_decide (now - lastTrigger < debounceMs)%Z
  | None => false
  end.

Definition sequentialKey (paneId : list N) : list N := lit "sequential_" ++ paneId.

Definition context7Key (library : list N) (type : DocType) : list N :=
  lit "context7_" ++ library ++ lit "_" ++ docTypeString type.

Definition rikaKey (port : Z) : list N := lit "rika_" ++ numberToString (Int port).

Definition sequentialDebounceMs : Z := 5 * 60 * 1000.
Definition context7DebounceMs : Z := 10 * 60 * 1000.
Definition rikaDebounceMs : Z := 2 * 60 * 1000.

Definition triggerSequentialAnalysis (now : Z) (paneId : list N) (params : Analysis)
    (self : t) : t :=
  let key := sequentialKey paneId in
  if bool_decide (key ∈ activeAnalyses self) then
    log DEBUG (lit "Sequential analysis already active for pane " ++ paneId) self
  else if debounced self key now sequentialDebounceMs then
    log DEBUG (lit "Sequential analysis debounced for pane " ++ paneId) self
  else
    let self1 := stamp key now (setActive ({[key]} ∪ activeAnalyses self) self) in
    let self2 := log INFO (lit "Triggering sequential thinking analysis for pane " ++ paneId) self1 in
    let self3 := emit (trigger_sequential paneId params now) self2 in
    let self4 := log DEBUG (lit "Sequential thinking trigger parameters:") self3 in
    setActive (activeAnalyses self4 ∖ {[key]}) self4.

Definition triggerDocumentationLookup (now : Z) (library query : list N) (type : DocType)
    (self : t) : t :=
  let key := context7Key library type in
  if debounced self key now context7DebounceMs then self
  else
    let self1 := stamp key now self in
    let self2 := log INFO (lit "Triggering Context7 documentation lookup: "
                           ++ library ++ lit " - " ++ query) self1 in
    emit (trigger_context7 library query type now) self2.

Definition triggerRikaTest (now : Z) (port : Z) (paneId : option (list N)) (self : t) : t :=
  let key := rikaKey port in
  if debounced self key now rikaDebounceMs then self
  else
    let self1 := stamp key now self in
    let self2 := log INFO (lit "Triggering RIKA UI test for port "
                           ++ numberToString (Int port)) self1 in
    emit (trigger_rika port paneId now) self2.

Definition noveltyKey (entry : ErrorEntry) : list N :=
  lit "error_" ++ severityString (e_type entry) ++ lit "_" ++ take 50 (e_message entry).

(** [isNewErrorPattern]: records the sighting when it answers [true]. *)
Definition isNewErrorPattern (now : Z) (entry : ErrorEntry) (self : t) : bool * t :=
  let key := noveltyKey entry in
  let debounceMs := (30 * 60 * 1000)%Z in
  match lastTriggers self !! key with
  | Some lastSeen =>
      if bool_decide (now - lastSeen > debounceMs)%Z then (true, stamp key now self)
      else (false, self)
  | None => (true, stamp key now self)
  end.

Definition isUIPort (port : Z) : bool :=
  bool_decide (port ∈ [3000; 3001; 4000; 4200; 5000; 8000; 8080; 8100; 9000; 9090]%Z).

Definition handleError (now : Z) (entry : ErrorEntry) (self : t) : t :=
  let self0 :=
    log DEBUG (lit "Processing error event for pane " ++ e_paneId entry ++ lit ": "
               ++ e_message entry) self in
  let self1 := emit (mcp_event (lit "error_detected") (e_paneId entry) now) self0 in
  let self2 :=
    if sequentialThinking_enabled (config self1) && onError (config self1)
    then triggerSequentialAnalysis now (e_paneId entry) (error_analysis entry) self1
    else self1 in
  if context7Docs_enabled (config self2) && onErrorPattern (config self2) then
    match given (e_language entry) with
    | Some language =>
        let '(fresh, self3) := isNewErrorPattern now entry self2 in
        if fresh
        then triggerDocumentationLookup now language (e_message entry) doc_error self3
        else self3
    | None => self2
    end
  else self2.

Definition handleMultipleErrors (now : Z) (paneId : list N) (entries : list ErrorEntry)
    (self : t) : t :=
  let errorCount := Z.of_nat (length entries) in
  let self0 :=
    log INFO (lit "Processing " ++ numberToString (Int errorCount)
              ++ lit " errors for pane " ++ paneId) self in
  if sequentialThinking_enabled (config self0)
     && bool_decide (onMultipleErrors (config self0) ≤ errorCount)%Z
  then triggerSequentialAnalysis now paneId (multiple_errors_analysis entries) self0
  else self0.

Definition handleProcessCrash (now : Z) (health : ProcessHealth) (self : t) : t :=
  let self0 :=
    log WARN (lit "Processing process crash for pane " ++ h_paneId health ++ lit ": "
              ++ h_processName health) self in
  let self1 := emit (mcp_event (lit "process_crashed") (h_paneId health) now) self0 in
  if sequentialThinking_enabled (config self1) && onProcessCrash (config self1)
  then triggerSequentialAnalysis now (h_paneId health) (crash_analysis health) self1
  else self1.

Definition handlePortChange (now : Z) (port : Z) (opened : bool)
    (paneId : option (list N)) (self : t) : t :=
  if negb (rikaTesting_enabled (config self)) || negb (onPortChange (config self)) then self
  else
    let self0 :=
      log DEBUG (lit "Port " ++ numberToString (Int port)
                 ++ (if opened then lit " opened" else lit " closed")
                 ++ match given paneId with
                    | Some p => lit " in pane " ++ p
                    | None => []
                    end) self in
    if isUIPort port && opened then triggerRikaTest now port paneId self0
    else self0.

Definition clearHistory (self : t) : t :=
  log INFO (lit "MCP integration trigger history cleared")
    {| config := config self; lastTriggers := ∅; activeAnalyses := ∅;
       emitted := emitted self; logged := logged self |}.

(** *** Qualifying events, by trigger key *)

(** A trigger key: the trigger category and its target. *)
Inductive TriggerKey : Type :=
| KSequential (paneId : list N)
| KContext7 (library : list N) (type : DocType)
| KRika (port : Z).

#[global] Instance DocType_eq_dec : EqDecision DocType.
Proof. solve_decision. Defined.

#[global] Instance TriggerKey_eq_dec : EqDecision TriggerKey.
Proof. solve_decision. Defined.

(** The string under which the key's last firing is recorded. *)
Definition keyString (k : TriggerKey) : list N :=
  match k with
  | KSequential paneId => sequentialKey paneId
  | KContext7 library type => context7Key library type
  | KRika port => rikaKey port
  end.

(** The cooldown window of the key's category. *)
Definition window (k : TriggerKey) : Z :=
  match k with
  | KSequential _ => sequentialDebounceMs
  | KContext7 _ _ => context7DebounceMs
  | KRika _ => rikaDebounceMs
  end.

(** A call that reaches the integrator at time [at]: a qualifying event of
    one of the three categories, or a novelty check. *)
Inductive Call : Type :=
| Sequential (at_ : Z) (paneId : list N) (params : Analysis)
| Context7 (at_ : Z) (library query : list N) (type : DocType)
| Rika (at_ : Z) (port : Z) (paneId : option (list N))
| Novelty (at_ : Z) (entry : ErrorEntry).

Definition callTime (c : Call) : Z :=
  match c with
  | Sequential at_ _ _ | Context7 at_ _ _ _ | Rika at_ _ _ | Novelty at_ _ => at_
  end.

Definition callKey (c : Call) : option TriggerKey :=
  match c with
  | Sequential _ paneId _ => Some (KSequential paneId)
  | Context7 _ library _ type => Some (KContext7 library type)
  | Rika _ port _ => Some (KRika port)
  | Novelty _ _ => None
  end.

Definition step (self : t) (c : Call) : t :=
  match c with
  | Sequential now paneId params => triggerSequentialAnalysis now paneId params self
  | Context7 now library query type => triggerDocumentationLookup now library query type self
  | Rika now port paneId => triggerRikaTest now port paneId self
  | Novelty now entry => (isNewErrorPattern now entry self).2
  end.

Definition run (self : t) (calls : list Call) : t := foldl step self calls.

(** The key of an emitted trigger. *)
Definition emittedKey (e : Emitted) : option TriggerKey :=
  match e with
  | mcp_event _ _ _ => None
  | trigger_sequential paneId _ _ => Some (KSequential paneId)
  | trigger_context7 library _ type _ => Some (KContext7 library type)
  | trigger_rika port _ _ => Some (KRika port)
  end.

(** The triggers emitted for key [k], in order. *)
Definition triggersFor (k : TriggerKey) (self : t) : list Emitted :=
  filter (λ e, emittedKey e = Some k) (emitted self).

(** What the cooldown of key [k] rests on: its last firing is recorded at
    [t0], and no analysis of it is marked active. *)
Definition armed (k : TriggerKey) (t0 : Z) (self : t) : Prop :=
  lastTriggers self !! keyString k = Some t0
  ∧ ∀ paneId, k = KSequential paneId → sequentialKey paneId ∉ activeAnalyses self.

End McpIntegrator.

(** ** The error summary tool ([tools/index.ts]) *)

Module Tools.

Inductive TimeRange : Type :=
| hour
| day
| all.

Record PaneStat : Type := {
  ps_paneId : list N;
  ps_errors : nat;
  ps_warnings : nat;
  ps_latest : option ErrorEntry;
}.

(** The object that [handleErrorSummary] serializes. *)
Record ErrorSummary : Type := {
  r_timeRange : TimeRange;
  r_includeWarnings : bool;
  r_totalErrors : nat;
  r_totalWarnings : nat;
  r_activePanes : nat;
  r_watchedPanes : list (list N);
  r_paneStats : list PaneStat;
}.

Definition cutoffTime (now : Z) (timeRange : TimeRange) : Z :=
  match timeRange with
  | hour => (now - 60 * 60 * 1000)%Z
  | day => (now - 24 * 60 * 60 * 1000)%Z
  | all => 0%Z
  end.

(** The entries of one pane that the summary counts. *)
Definition filtered (now : Z) (timeRange : TimeRange) (includeWarnings : bool)
    (errors : list ErrorEntry) : list ErrorEntry :=
  let timeFiltered :=
    filter (λ e, (cutoffTime now timeRange ≤ e_timestamp e)%Z) errors in
  if includeWarnings then timeFiltered
  else filter (λ e, e_type e = error) timeFiltered.

Definition errorCount (errors : list ErrorEntry) : nat :=
  length (filter (λ e, e_type e = error) errors).

Definition warningCount (errors : list ErrorEntry) : nat :=
  length (filter (λ e, e_type e = warning) errors).

Definition handleErrorSummary (now : Z) (paneId : option (list N))
    (timeRange : TimeRange) (includeWarnings : bool) (errorWatcher : ErrorWatcher.t)
    : ErrorSummary :=
  let allErrors :=
    match given paneId with
    | Some p => [(p, ErrorWatcher.getErrors p errorWatcher)]
    | None => ErrorWatcher.getAllErrors errorWatcher
    end in
  let filteredErrors :=
    foldl (λ m entry, JsMap.set entry.1 (filtered now timeRange includeWarnings entry.2) m)
      [] allErrors in
  let paneStats :=
    omap (λ entry,
            match entry.2 with
            | [] => None
            | _ :: _ =>
                Some {| ps_paneId := entry.1;
                        ps_errors := errorCount entry.2;
                        ps_warnings := warningCount entry.2;
                        ps_latest := last entry.2 |}
            end) filteredErrors in
  {| r_timeRange := timeRange;
     r_includeWarnings := includeWarnings;
     r_totalErrors := foldl (λ n entry, n + errorCount entry.2) 0 filteredErrors;
     r_totalWarnings := foldl (λ n entry, n + warningCount entry.2) 0 filteredErrors;
     r_activePanes := length paneStats;
     r_watchedPanes := ErrorWatcher.getWatchedPanes errorWatcher;
     r_paneStats := paneStats |}.

End Tools.

(** ** Reference definitions for the statements of Part II *)

Module Spec.

(** The TypeScript diagnostic of the analyzer's test. *)
Definition ts_line : list N :=
  lit "src/index.ts(42,10): error TS2339: Property 'foo' does not exist on type 'string'.".

(** The names of the five language patterns and the two generic ones. *)
Definition language_then_generic : list (list N) :=
  lit <$> ["typescript"; "javascript"; "python"; "rust"; "go";
           "general_error"; "general_warning"]%string.

(** The regular expressions of the five language patterns. *)
Definition language_regexes : list RegExp :=
  [LogAnalyzer.typescript_regex; LogAnalyzer.javascript_regex;
   LogAnalyzer.python_regex; LogAnalyzer.rust_regex; LogAnalyzer.go_regex].

(** The failure vocabulary of the two generic patterns. *)
Definition errorVocabulary : list (list N) :=
  lit <$> ["ERROR"; "FAIL"; "Exception"; "Error:"; "Failed"]%string.

Definition warningVocabulary : list (list N) :=
  lit <$> ["WARN"; "Warning"; "Deprecated"; "Notice"]%string.

(** [line] contains one of [words], in any letter case. *)
Definition mentions (words : list (list N)) (line : list N) : Prop :=
  ∃ pre w post, line = pre ++ w ++ post ∧ toLowerCase w ∈ toLowerCase <$> words.

(** A line that the docker daemon prints when it refuses a request. *)
Definition docker_line : list N := lit "docker: Error response from daemon: conflict".

(** A pane with a log file and a shell in it, and a file system holding
    that log, empty. *)
Definition dev_pane : ErrorWatcher.TmuxPane :=
  {| ErrorWatcher.id := lit "dev:0.0";
     ErrorWatcher.logFile := Some (lit "/logs/dev_0_0.log");
     ErrorWatcher.command := lit "bash" |}.

Definition one_file (path : list N) (content : list byte) : FileWatcher.Fs :=
  λ p, if decide (p = path) then Some content else None.

Definition no_errors : ErrorWatcher.Summary :=
  {| ErrorWatcher.total := 0; ErrorWatcher.errors := 0; ErrorWatcher.warnings := 0 |}.

(** An entry as the error watcher hands it to the integrator. *)
Definition sample_error : ErrorEntry :=
  {| e_id := lit "dev:0.0:1000:k3x9q2m1z"; e_paneId := lit "dev:0.0";
     e_file := Some (lit "src/index.ts"); e_line := Some (Int 42);
     e_column := Some (Int 10);
     e_message := lit "Property 'foo' does not exist on type 'string'.";
     e_type := error; e_language := Some (lit "typescript");
     e_timestamp := 1000 |}.

(** *** The escaper, in the words of its contract *)

(** One character-class replacement: every occurrence of [c] becomes
    [replacement], every other unit stays. *)
Definition replaceUnit (c : N) (replacement : list N) (s : list N) : list N :=
  s ≫= (λ x, if bool_decide (x = c) then replacement else [x]).

(** The eight replacements, in their order: backslash, double quote, single
    quote, dollar, backtick, semicolon, pipe, ampersand. *)
Definition escapeTable : list (N * list N) :=
  [ (92, [92; 92]); (34, [92; 34]); (39, [39; 34; 39; 34; 39]); (36, [92; 36]);
    (96, [92; 96]); (59, [92; 59]); (124, [92; 124]); (38, [92; 38]) ]%N.

Definition escapeInOrder (s : list N) : list N :=
  foldl (λ acc entry, replaceUnit entry.1 entry.2 acc) s escapeTable.

(** What becomes of one unit of the input under the whole chain. *)
Fixpoint lookupUnit (x : N) (table : list (N * list N)) : option (list N) :=
  match table with
  | [] => None
  | (c, replacement) :: more =>
      if bool_decide (x = c) then Some replacement else lookupUnit x more
  end.

Definition escapeUnit (x : N) : list N := default [x] (lookupUnit x escapeTable).

(** Reading an escaped command back: a backslash stands for the unit
    after it, the five units of a broken quote for the quote. *)
Fixpoint unescape (s : list N) : list N :=
  match s with
  | [] => []
  | c :: t =>
      if bool_decide (c = 92%N) then
        match t with
        | x :: t' => x :: unescape t'
        | [] => [c]
        end
      else if bool_decide (c = 39%N) then
        match t with
        | _ :: _ :: _ :: _ :: t' => 39%N :: unescape t'
        | _ => [c]
        end
      else c :: unescape t
  end.

(** The characters the shell acts on outside quotes that the escaper
    guards with a backslash: dollar, backtick, semicolon, pipe, ampersand. *)
Definition metacharacters : list N := [36; 96; 59; 124; 38]%N.

(** The words the argument check looks for behind a separator. *)
Definition chainedVerbs : list (list N) := [lit "rm"; lit "del"; lit "format"].

(** In [out], every metacharacter has a backslash right before it. *)
Definition guarded (out : list N) : Prop :=
  ∀ i c, out !! i = Some c → c ∈ metacharacters →
    ∃ j, i = S j ∧ out !! j = Some 92%N.

(** *** A greedy star, spelled out *)

(** What a greedy [.*] does with the input [w] at position [p] when every
    unit of [w] is one that [.] accepts: it hands the continuation the
    longest split first, then the shorter ones. *)
Fixpoint greedyAt (K : mstate → option mstate) (p : nat)
    (cs : list (option (list N))) (w : list N) : option mstate :=
  match w with
  | [] => K {| pos := p; rest := []; caps := cs |}
  | x :: w' =>
      firstOf (greedyAt K (S p) cs w') (K {| pos := p; rest := x :: w'; caps := cs |})
  end.

(** *** The final path component *)

(** The substring after the last [/], the whole string when it has none. *)
Fixpoint finalComponent (s : list N) : list N :=
  match s with
  | [] => []
  | c :: t =>
      if bool_decide (47%N ∈ t) then finalComponent t
      else if bool_decide (c = 47%N) then t else s
  end.

(** *** Tailing *)

Definition bytesOf (s : string) : list byte := list_byte_of_string s.





(** Position [q] holds byte [b] in every snapshot: it was never rewritten. *)
Definition kept (q : nat) (b : byte) (contents : list (list byte)) : Prop :=
  Forall (λ content, content !! q = Some b) contents.

(** Notifications for [filePath] that find, one after the other, the given
    contents. *)
Definition tail (filePath : list N) (contents : list (list byte))
    (self : FileWatcher.t) : FileWatcher.t :=
  FileWatcher.notifications filePath (one_file filePath <$> contents) self.

Definition log_path : list N := lit "/logs/dev_0_0.log".

(** *** Pane identities *)

(** A native handle and a structured id are a live pair when each map
    sends one of them to a mapping that holds the other. *)
Definition live (self : PaneIdResolver.t) (native sid : list N) : Prop :=
  (∃ m, PaneIdResolver.getNative self native = Some m
        ∧ PaneIdResolver.structuredId m = sid)
  ∧ (∃ m, PaneIdResolver.getStructured self sid = Some m
          ∧ PaneIdResolver.nativeId m = native).

(** [resolveToNative(resolveToStructured(h))] *)
Definition nativeRoundTrip (now1 now2 : Z) (self : PaneIdResolver.t) (h : list N) : list N :=
  let '(sid, self1) := PaneIdResolver.resolveToStructured now1 h self in
  (PaneIdResolver.resolveToNative now2 sid self1).1.

(** [resolveToStructured(resolveToNative(id))] *)
Definition structuredRoundTrip (now1 now2 : Z) (self : PaneIdResolver.t) (sid : list N) : list N :=
  let '(h, self1) := PaneIdResolver.resolveToNative now1 sid self in
  (PaneIdResolver.resolveToStructured now2 h self1).1.

(** The resolver states that sequences of [registerPane] calls produce. *)
Inductive registered : PaneIdResolver.t → Prop :=
| registered_create : registered PaneIdResolver.create
| registered_more now native session window pane self :
    registered self →
    registered (PaneIdResolver.registerPane now native session window pane self).2.

(** What holds of the two maps in every such state: keys are unique; a
    native entry leads to a mapping of that handle whose structured id
    leads back to the same object; a structured entry leads to a mapping
    of that id; and ids are built from the mapping's own position. *)
Record consistent (self : PaneIdResolver.t) : Prop := {
  native_keys : NoDup (JsMap.keys (PaneIdResolver.nativeToStructured self));
  structured_keys : NoDup (JsMap.keys (PaneIdResolver.structuredToNative self));
  native_entry k ref :
    JsMap.get k (PaneIdResolver.nativeToStructured self) = Some ref →
    ∃ m, PaneIdResolver.store self !! ref = Some m
         ∧ PaneIdResolver.nativeId m = k
         ∧ JsMap.get (PaneIdResolver.structuredId m)
             (PaneIdResolver.structuredToNative self) = Some ref;
  structured_entry k ref :
    JsMap.get k (PaneIdResolver.structuredToNative self) = Some ref →
    ∃ m, PaneIdResolver.store self !! ref = Some m
         ∧ PaneIdResolver.structuredId m = k;
  built_ids ref m :
    PaneIdResolver.store self !! ref = Some m →
    PaneIdResolver.structuredId m
    = PaneIdResolver.buildStructuredId (PaneIdResolver.sessionName m)
        (PaneIdResolver.windowIndex m) (PaneIdResolver.paneIndex m);
}.

(** The resolver states that sequences of calls of any of its methods
    produce, the hourly cleanup included. *)
Inductive reachable : PaneIdResolver.t → Prop :=
| reachable_create : reachable PaneIdResolver.create
| reachable_registerPane now native session window pane self :
    reachable self →
    reachable (PaneIdResolver.registerPane now native session window pane self).2
| reachable_resolveToNative now paneId self :
    reachable self → reachable (PaneIdResolver.resolveToNative now paneId self).2
| reachable_resolveToStructured now paneId self :
    reachable self → reachable (PaneIdResolver.resolveToStructured now paneId self).2
| reachable_clearSession session self :
    reachable self → reachable (PaneIdResolver.clearSession session self)
| reachable_cleanupOldMappings now self :
    reachable self → reachable (PaneIdResolver.cleanupOldMappings now self)
| reachable_destroy self :
    reachable self → reachable (PaneIdResolver.destroy self).

(** *** Trigger keys *)

(** The trigger categories that the description of the orchestrator tells
    apart, each with a window of its own. *)
Inductive Category : Type :=
| single_error_analysis
| multi_error_analysis
| process_crash_analysis
| documentation_lookup
| ui_test.

#[global] Instance Category_eq_dec : EqDecision Category.
Proof. solve_decision. Defined.

(** The key of an emitted trigger in that reading: its category and its
    target (the pane, the library, the port). *)
Definition categoryKey (e : McpIntegrator.Emitted) : option (Category * list N) :=
  match e with
  | McpIntegrator.mcp_event _ _ _ => None
  | McpIntegrator.trigger_sequential paneId (McpIntegrator.error_analysis _) _ =>
      Some (single_error_analysis, paneId)
  | McpIntegrator.trigger_sequential paneId (McpIntegrator.multiple_errors_analysis _) _ =>
      Some (multi_error_analysis, paneId)
  | McpIntegrator.trigger_sequential paneId (McpIntegrator.crash_analysis _) _ =>
      Some (process_crash_analysis, paneId)
  | McpIntegrator.trigger_context7 library _ _ _ => Some (documentation_lookup, library)
  | McpIntegrator.trigger_rika port _ _ => Some (ui_test, numberToString (Int port))
  end.

(** The triggers emitted for a category and a target, in order. *)
Definition triggersOf (category : Category) (target : list N) (self : McpIntegrator.t)
    : list McpIntegrator.Emitted :=
  filter (λ e, categoryKey e = Some (category, target)) (McpIntegrator.emitted self).

(** Key [k] is idle at time [now]: no firing of it is recorded less than
    its window before [now], and no analysis of it is marked active. *)
Definition idle (k : McpIntegrator.TriggerKey) (now : Z) (self : McpIntegrator.t) : bool :=
  match McpIntegrator.lastTriggers self !! McpIntegrator.keyString k with
  | Some lastFiredAt => bool_decide (McpIntegrator.window k ≤ now - lastFiredAt)%Z
  | None => true
  end
  && match k with
     | McpIntegrator.KSequential paneId =>
         bool_decide (McpIntegrator.sequentialKey paneId
                      ∉ McpIntegrator.activeAnalyses self)
     | _ => true
     end.

(** The trigger that a qualifying event asks for. *)
Definition triggerOf (c : McpIntegrator.Call) : option McpIntegrator.Emitted :=
  match c with
  | McpIntegrator.Sequential now paneId params =>
      Some (McpIntegrator.trigger_sequential paneId params now)
  | McpIntegrator.Context7 now library query type =>
      Some (McpIntegrator.trigger_context7 library query type now)
  | McpIntegrator.Rika now port paneId =>
      Some (McpIntegrator.trigger_rika port paneId now)
  | McpIntegrator.Novelty _ _ => None
  end.

(** *** Tallies *)

(** A name under which a plain object counts: not empty, and no property
    of [Object.prototype]. *)
Definition plainName (name : list N) : Prop :=
  name ≠ [] ∧ name ≠ lit "__proto__" ∧ name ∉ LogAnalyzer.objectPrototypeMethods.

(** The sum of the counts among the values. *)
Definition tallied (m : gmap (list N) LogAnalyzer.TallyValue) : nat :=
  map_fold (λ _ v n, match v with
                     | LogAnalyzer.Count k => k + n
                     | LogAnalyzer.Inherited _ _ => n
                     end) 0 m.

(** *** Rankings *)

(** The counts run from the highest down: no element counts more than one
    before it. *)
Fixpoint descending {K} (l : list (K * nat)) : Prop :=
  match l with
  | [] => True
  | x :: r => Forall (λ y, y.2 ≤ x.2) r ∧ descending r
  end.

End Spec.

(* ===================================================================== *)
(** * Part II.  Properties                                                *)
(* ===================================================================== *)


(** ** The regular-expression matcher *)

Section RegexFacts.

Lemma extends_refl st : extends st st.
Proof. exists 0. rewrite Nat.add_0_r. split; [lia|]. by split. Qed.

Lemma extends_trans st1 st2 st3 : extends st1 st2 → extends st2 st3 → extends st1 st3.
Proof.
  intros (n & Hn & Hr & Hp) (n' & Hn' & Hr' & Hp').
  rewrite Hr, length_drop in Hn'. exists (n + n').
  split; [lia|]. split.
  - by rewrite Hr', Hr, drop_drop.
  - lia.
Qed.

Lemma extends_advance st x t : rest st = x :: t → extends st (advance st).
Proof.
  intros H. exists 1. unfold advance. cbn. rewrite H. cbn.
  split; [lia|]. split; [by rewrite drop_0 | lia].
Qed.

Lemma extends_caps st st' cs :
  extends st {| pos := pos st'; rest := rest st'; caps := cs |} ↔ extends st st'.
Proof. done. Qed.

Lemma extends_clearCaps gs st st' : extends (clearCaps gs st) st' ↔ extends st st'.
Proof. done. Qed.

Lemma starLoop_local m greedy :
  local m →
  ∀ fuel st0 k1 k2,
    (∀ st', extends st0 st' → k1 st' = k2 st') →
    starLoop m greedy k1 fuel st0 = starLoop m greedy k2 fuel st0.
Proof.
  intros Hm. induction fuel as [|fuel IH]; intros st0 k1 k2 Hk; [done|].
  cbn [starLoop]. rewrite (Hk st0) by apply extends_refl.
  rewrite (Hm st0 _ (λ st', if bool_decide (pos st' = pos st0) then None
                            else starLoop m greedy k2 fuel st')).
  - done.
  - intros st' Hext. case_bool_decide; [done|]. apply IH.
    intros st'' Hext'. apply Hk. by eapply extends_trans.
Qed.

Lemma rmatch_local ic da r : local (rmatch ic da r).
Proof.
  induction r as [|c| |inv items|a IHa b IHb|a IHa b IHb|n a IHa|greedy a IHa| |];
    intros st k1 k2 Hk; cbn [rmatch].
  - apply Hk, extends_refl.
  - destruct (rest st) as [|x t] eqn:E; [done|].
    destruct (unitEq ic c x); [|done]. by eapply Hk, extends_advance.
  - destruct (rest st) as [|x t] eqn:E; [done|].
    destruct (da || negb (isLineTerminator x)); [|done]. by eapply Hk, extends_advance.
  - destruct (rest st) as [|x t] eqn:E; [done|].
    destruct (setMatches ic inv items x); [|done]. by eapply Hk, extends_advance.
  - apply IHa. intros st' Hext. apply IHb. intros st'' Hext'.
    apply Hk. by eapply extends_trans.
  - by rewrite (IHa st k1 k2), (IHb st k1 k2).
  - apply IHa. intros st' Hext. by apply Hk.
  - apply starLoop_local; [|done].
    intros st' k1' k2' Hk'. apply IHa. intros st'' Hext. apply Hk'. exact Hext.
  - case_bool_decide; [|done]. apply Hk, extends_refl.
  - destruct (rest st); [|done]. apply Hk, extends_refl.
Qed.

(** Fuel above the length of the input left is never used up: the loop
    gives the same result for every such amount. *)
Lemma starLoop_fuel m greedy k :
  local m →
  ∀ fuel1 fuel2 st,
    length (rest st) < fuel1 → length (rest st) < fuel2 →
    starLoop m greedy k fuel1 st = starLoop m greedy k fuel2 st.
Proof.
  intros Hm. induction fuel1 as [|fuel1 IH]; intros fuel2 st H1 H2; [lia|].
  destruct fuel2 as [|fuel2]; [lia|]. cbn [starLoop].
  rewrite (Hm st _ (λ st', if bool_decide (pos st' = pos st) then None
                           else starLoop m greedy k fuel2 st')).
  - done.
  - intros st' (n & Hn & Hr & Hp). case_bool_decide as Hpos; [done|].
    apply IH; rewrite Hr, length_drop; lia.
Qed.

(** The star of [rmatch] is that loop with any sufficient fuel. *)
Lemma rmatch_star_fuel ic da greedy a st k fuel :
  length (rest st) < fuel →
  rmatch ic da (RStar greedy a) st k
  = starLoop (λ st' k', rmatch ic da a (clearCaps (groupsOf a) st') k') greedy k fuel st.
Proof.
  intros Hfuel. cbn [rmatch]. apply starLoop_fuel; [|lia|done].
  intros st' k1 k2 Hk. apply rmatch_local. intros st'' Hext. by apply Hk.
Qed.

End RegexFacts.

Section Literals.

(** Matching a literal: the input starts with units that canonicalize like
    the literal's, and the continuation takes over behind them. *)
Lemma rmatch_literal ic da (l : list N) st k :
  rmatch ic da (rseq (RChar <$> l)) st k
  = match decide (length l ≤ length (rest st)
                  ∧ canonicalize ic <$> l = canonicalize ic <$> take (length l) (rest st)) with
    | left _ => k (after st (length l) (drop (length l) (rest st)))
    | right _ => None
    end.
Proof.
  revert st. induction l as [|c l IH]; intros st.
  - cbn. rewrite decide_True by (split; [lia|done]).
    unfold after. rewrite Nat.add_0_r, drop_0. by destruct st.
  - cbn [fmap list_fmap rseq foldr rmatch].
    destruct (rest st) as [|x t] eqn:E.
    + rewrite decide_False; [done|]. cbn. lia.
    + unfold unitEq. case_bool_decide as Hc.
      * fold (rseq (RChar <$> l)). rewrite IH. unfold advance. rewrite E. cbn.
        destruct (decide (length l ≤ length t
                          ∧ canonicalize ic <$> l = canonicalize ic <$> take (length l) t))
          as [[H1 H2]|Hn].
        -- rewrite decide_True by (split; [lia | by rewrite Hc, H2]).
           unfold after. cbn. f_equal. f_equal. lia.
        -- rewrite decide_False; [done|]. intros [H1 H2]. apply Hn.
           split; [lia | congruence].
      * rewrite decide_False; [done|]. intros [_ H2]. cbn in H2. congruence.
Qed.

Lemma take_drop_take {A} (l : list A) (a b c : nat) :
  a + b ≤ c → take b (drop a (take c l)) = take b (drop a l).
Proof.
  intros H. rewrite !take_drop_commute, take_take. do 2 f_equal. lia.
Qed.

Lemma search_found (re : RegExp) (i : nat) (suffix : list N) j st :
  search re i suffix = Some (j, st) →
  ∃ n, j = i + n ∧ n ≤ length suffix
       ∧ rmatch (ignoreCase re) (dotAll re) (body re)
           {| pos := j; rest := drop n suffix;
              caps := replicate (S (groupCount re)) None |} Some = Some st.
Proof.
  revert i. induction suffix as [|x t IH]; intros i; cbn [search].
  - destruct (rmatch _ _ _ _ _) as [st'|] eqn:E; [|done].
    intros [= <- <-]. exists 0. rewrite Nat.add_0_r. cbn. by repeat split.
  - destruct (rmatch _ _ _ _ _) as [st'|] eqn:E.
    + intros [= <- <-]. exists 0. rewrite Nat.add_0_r. cbn. split; [done|]. split; [lia|done].
    + intros (n & -> & Hn & Hm)%IH. exists (S n). cbn.
      split; [lia|]. split; [lia|done].
Qed.

Lemma search_finds (re : RegExp) (i : nat) (suffix : list N) n :
  n ≤ length suffix →
  is_Some (rmatch (ignoreCase re) (dotAll re) (body re)
             {| pos := i + n; rest := drop n suffix;
                caps := replicate (S (groupCount re)) None |} Some) →
  is_Some (search re i suffix).
Proof.
  revert i n. induction suffix as [|x t IH]; intros i n Hn Hm; cbn [search].
  - assert (n = 0) as -> by (cbn in Hn; lia). rewrite Nat.add_0_r in Hm.
    change (drop 0 []) with (@nil N) in Hm.
    destruct Hm as [st ->]. by eexists.
  - destruct (rmatch _ _ _ {| pos := i |} _) as [st'|] eqn:E; [by eexists|].
    destruct n as [|n].
    + rewrite Nat.add_0_r in Hm. change (drop 0 (x :: t)) with (x :: t) in Hm.
      rewrite E in Hm. by destruct Hm.
    + apply (IH (S i) n); [cbn in Hn; lia|].
      replace (S i + n) with (i + S n) by lia. exact Hm.
Qed.

End Literals.


(** ** Facts about the JavaScript values *)

(** Evaluate the string literals of a goal. *)
Ltac eval_lits :=
  repeat match goal with
         | |- context [lit ?s] =>
             let v := eval vm_compute in (lit s) in change (lit s) with v
         | H : context [lit ?s] |- _ =>
             let v := eval vm_compute in (lit s) in change (lit s) with v in H
         end.

Section JsFacts.

Lemma uint_units_digits (d : Decimal.uint) : Forall isDigit (uint_units d).
Proof.
  induction d; cbn; constructor; try done; unfold isDigit; lia.
Qed.

Lemma uint_units_inj (d d' : Decimal.uint) :
  uint_units d = uint_units d' → d = d'.
Proof.
  revert d'. induction d; intros [] H; cbn in H; try discriminate; try done;
    f_equal; apply IHd; congruence.
Qed.

Lemma int_units_inj (i i' : Decimal.signed_int) :
  int_units i = int_units i' → i = i'.
Proof.
  destruct i as [d|d], i' as [d'|d']; cbn; intros H.
  - f_equal. by apply uint_units_inj.
  - pose proof (uint_units_digits d) as Hd. rewrite H in Hd.
    inversion_clear Hd as [|? ? Hc _]. unfold isDigit in Hc. lia.
  - pose proof (uint_units_digits d') as Hd. rewrite <- H in Hd.
    inversion_clear Hd as [|? ? Hc _]. unfold isDigit in Hc. lia.
  - f_equal. apply uint_units_inj. congruence.
Qed.

Lemma numberToString_units (n : num) : Forall isNumberUnit (numberToString n).
Proof.
  destruct n as [|z]; cbn.
  - repeat constructor; unfold isNumberUnit; cbn; tauto.
  - destruct (Z.to_int z) as [d|d]; cbn.
    + eapply Forall_impl; [apply uint_units_digits|]. unfold isNumberUnit; tauto.
    + constructor; [unfold isNumberUnit; tauto|].
      eapply Forall_impl; [apply uint_units_digits|]. unfold isNumberUnit; tauto.
Qed.

Lemma numberToString_Int_inj (z z' : Z) :
  numberToString (Int z) = numberToString (Int z') → z = z'.
Proof.
  cbn. intros H%int_units_inj.
  rewrite <- (DecimalZ.of_to z), <- (DecimalZ.of_to z'). by rewrite H.
Qed.

Lemma numberToString_inj (n n' : num) :
  numberToString n = numberToString n' → n = n'.
Proof.
  destruct n as [|z], n' as [|z']; intros H; [done| | |].
  - exfalso. cbn in H. destruct (Z.to_int z') as [d|d]; cbn in H.
    + pose proof (uint_units_digits d) as Hd. rewrite <- H in Hd.
      inversion_clear Hd as [|? ? Hc _]. vm_compute in Hc. by destruct Hc.
    + vm_compute in H. discriminate.
  - exfalso. cbn in H. destruct (Z.to_int z) as [d|d]; cbn in H.
    + pose proof (uint_units_digits d) as Hd. rewrite H in Hd.
      inversion_clear Hd as [|? ? Hc _]. vm_compute in Hc. by destruct Hc.
    + vm_compute in H. discriminate.
  - f_equal. by apply numberToString_Int_inj.
Qed.

End JsFacts.

(** ** Pane identities ([PaneIdResolver]) *)

Section JsMapFacts.
Context {V : Type}.
Implicit Types (m : list (list N * V)) (k : list N) (v : V).

Lemma get_set_eq k v m : JsMap.get k (JsMap.set k v m) = Some v.
Proof.
  induction m as [|[k' v'] r IH]; cbn.
  - by rewrite decide_True.
  - case_decide as Hk; cbn; rewrite ?decide_True by done; [done|].
    by rewrite decide_False.
Qed.

Lemma get_set_ne k k' v m : k ≠ k' → JsMap.get k' (JsMap.set k v m) = JsMap.get k' m.
Proof.
  intros Hne. induction m as [|[k0 v0] r IH]; cbn.
  - by rewrite decide_False.
  - case_decide as Hk; cbn.
    + subst k0. by rewrite !decide_False.
    + case_decide; [done | exact IH].
Qed.

Lemma get_delete_eq k m : JsMap.get k (JsMap.delete k m) = None.
Proof.
  induction m as [|[k0 v0] r IH]; cbn; [done|].
  case_decide; [done|]. cbn. by rewrite decide_False.
Qed.

Lemma get_delete_ne k k' m : k ≠ k' → JsMap.get k' (JsMap.delete k m) = JsMap.get k' m.
Proof.
  intros Hne. induction m as [|[k0 v0] r IH]; cbn; [done|].
  case_decide as Hk; cbn.
  - subst k0. by rewrite decide_False.
  - case_decide; [done | exact IH].
Qed.

Lemma get_Some_elem k v m : JsMap.get k m = Some v → (k, v) ∈ m.
Proof.
  induction m as [|[k0 v0] r IH]; cbn; [done|].
  case_decide as Hk.
  - intros [= ->]. subst. apply list_elem_of_here.
  - intros H. apply list_elem_of_further. by apply IH.
Qed.

Lemma get_None_keys k m : JsMap.get k m = None ↔ k ∉ JsMap.keys m.
Proof.
  unfold JsMap.keys. induction m as [|[k0 v0] r IH]; cbn.
  - split; [intros _; apply not_elem_of_nil | done].
  - destruct (decide (k0 = k)) as [->|Hk].
    + split; [done|]. intros H. exfalso. apply H. apply list_elem_of_here.
    + rewrite IH, not_elem_of_cons. split; [by intros ?|by intros [_ ?]].
Qed.

Lemma elem_get k v m : NoDup (JsMap.keys m) → (k, v) ∈ m → JsMap.get k m = Some v.
Proof.
  unfold JsMap.keys. induction m as [|[k0 v0] r IH]; cbn.
  - intros _ H. by apply elem_of_nil in H.
  - intros [Hk0 Hr]%NoDup_cons [[= -> ->]|Hin]%elem_of_cons.
    + by rewrite decide_True.
    + destruct (decide (k0 = k)) as [->|Hk]; [|by apply IH].
      exfalso. apply Hk0. apply list_elem_of_fmap. by exists (k, v).
Qed.

Lemma keys_set k v m :
  JsMap.keys (JsMap.set k v m)
  = if bool_decide (k ∈ JsMap.keys m) then JsMap.keys m else JsMap.keys m ++ [k].
Proof.
  unfold JsMap.keys. induction m as [|[k0 v0] r IH]; cbn; [done|].
  destruct (decide (k0 = k)) as [->|Hk]; cbn.
  - by rewrite bool_decide_eq_true_2 by apply list_elem_of_here.
  - rewrite IH. destruct (decide (k ∈ r.*1)) as [Hin|Hin].
    + rewrite !bool_decide_eq_true_2; [done| |done]. by apply list_elem_of_further.
    + rewrite !bool_decide_eq_false_2; [done| |done].
      intros [?|?]%elem_of_cons; congruence.
Qed.

Lemma NoDup_keys_set k v m : NoDup (JsMap.keys m) → NoDup (JsMap.keys (JsMap.set k v m)).
Proof.
  intros H. rewrite keys_set. case_bool_decide as Hin; [done|].
  apply NoDup_app. split; [done|]. split; [|apply NoDup_singleton].
  intros x Hx ->%list_elem_of_singleton. done.
Qed.

Lemma keys_delete k m : JsMap.keys (JsMap.delete k m) = filter (λ x, x ≠ k) (JsMap.keys m).
Proof.
  unfold JsMap.keys. induction m as [|[k0 v0] r IH]; [done|].
  cbn [JsMap.delete]. rewrite fmap_cons. cbn [fst].
  destruct (decide (k0 = k)) as [->|Hk].
  - rewrite filter_cons_False by (intros H; by apply H). exact IH.
  - rewrite filter_cons_True by done. rewrite fmap_cons. cbn [fst]. by rewrite IH.
Qed.

Lemma NoDup_keys_delete k m : NoDup (JsMap.keys m) → NoDup (JsMap.keys (JsMap.delete k m)).
Proof. intros H. rewrite keys_delete. by apply NoDup_filter. Qed.

Lemma get_delete k k' m :
  JsMap.get k' (JsMap.delete k m) = if decide (k = k') then None else JsMap.get k' m.
Proof.
  case_decide as Hk; [subst; apply get_delete_eq | by apply get_delete_ne].
Qed.

Lemma get_set k k' v m :
  JsMap.get k' (JsMap.set k v m) = if decide (k = k') then Some v else JsMap.get k' m.
Proof.
  case_decide as Hk; [subst; apply get_set_eq | by apply get_set_ne].
Qed.

End JsMapFacts.

Section Identity.
Import PaneIdResolver.

Lemma touch_fields now m :
  nativeId (touch now m) = nativeId m ∧ structuredId (touch now m) = structuredId m
  ∧ sessionName (touch now m) = sessionName m.
Proof. done. Qed.

(** Refreshing [lastSeen] changes no mapping's identity. *)
Lemma getStructured_updateLastSeen now native self k :
  getStructured (updateLastSeen now native self) k
  = (λ m, if bool_decide (JsMap.get native (nativeToStructured self)
                          = JsMap.get k (structuredToNative self))
          then touch now m else m) <$> getStructured self k.
Proof.
  unfold getStructured, updateLastSeen, deref.
  destruct (JsMap.get native (nativeToStructured self)) as [ref|] eqn:Hn; cbn.
  - destruct (JsMap.get k (structuredToNative self)) as [ref'|]; cbn; [|done].
    rewrite list_lookup_alter. case_decide as Href.
    + subst ref'. rewrite bool_decide_eq_true_2 by done. by destruct (store self !! ref).
    + rewrite bool_decide_eq_false_2 by congruence. by destruct (store self !! ref').
  - destruct (JsMap.get k (structuredToNative self)) as [ref'|]; cbn; [|done].
    by destruct (store self !! ref').
Qed.

Lemma getStructured_updateLastSeen_nativeId now native self k m :
  getStructured self k = Some m →
  ∃ m', getStructured (updateLastSeen now native self) k = Some m'
        ∧ nativeId m' = nativeId m.
Proof.
  intros H. rewrite getStructured_updateLastSeen, H. cbn.
  eexists; split; [done|]. by case_bool_decide.
Qed.

Lemma getNative_updateLastSeen_structuredId now native self k m :
  getNative self k = Some m →
  ∃ m', getNative (updateLastSeen now native self) k = Some m'
        ∧ structuredId m' = structuredId m.
Proof.
  unfold getNative, updateLastSeen, deref. intros H.
  destruct (JsMap.get native (nativeToStructured self)) as [ref|] eqn:Hn; cbn;
    [|by eexists].
  destruct (JsMap.get k (nativeToStructured self)) as [ref'|]; cbn in *; [|done].
  rewrite list_lookup_alter. case_decide as Href.
  - subst ref'. rewrite H. cbn. by eexists.
  - by eexists.
Qed.

(** A pane that was just registered is a live pair. *)
Lemma registerPane_live now native session window pane self :
  Spec.live (registerPane now native session window pane self).2
    native (buildStructuredId session window pane).
Proof.
  unfold Spec.live, getNative, getStructured, registerPane, deref. cbn.
  rewrite !get_set_eq. cbn.
  rewrite list_lookup_middle by done.
  split; eexists; split; done.
Qed.

(** C1 (as the code has it).  For a native handle that starts with [%] and
    a structured id that does not, which the two maps hold as a pair, the
    two resolutions undo each other in both orders. *)
Theorem C1_roundtrip_on_live_pairs
    (now1 now2 : Z) (self : t) (native sid : list N) :
  Spec.live self native sid →
  startsWith (lit "%") native = true →
  startsWith (lit "%") sid = false →
  Spec.nativeRoundTrip now1 now2 self native = native
  ∧ Spec.structuredRoundTrip now1 now2 self sid = sid.
Proof.
  intros [(mN & HN & HsN) (mS & HS & HnS)] Hnative Hsid. split.
  - unfold Spec.nativeRoundTrip, resolveToStructured.
    rewrite Hnative, HN. cbn [negb]. rewrite HsN.
    unfold resolveToNative. rewrite Hsid.
    destruct (getStructured_updateLastSeen_nativeId now1 native self sid mS HS)
      as (m' & -> & Hm').
    cbn. congruence.
  - unfold Spec.structuredRoundTrip, resolveToNative.
    rewrite Hsid, HS, HnS.
    unfold resolveToStructured. rewrite Hnative. cbn [negb].
    destruct (getNative_updateLastSeen_structuredId now1 native self native mN HN)
      as (m' & -> & Hm').
    cbn. congruence.
Qed.


Lemma C1_roundtrip_on_live_pairs_witness :
  let self := (registerPane 0 (lit "%3") (lit "test-session") (Int 0) (Int 0) create).2 in
  Spec.nativeRoundTrip 1 2 self (lit "%3") = lit "%3"
  ∧ Spec.structuredRoundTrip 1 2 self (lit "test-session:0.0") = lit "test-session:0.0".
Proof.
  apply (C1_roundtrip_on_live_pairs 1 2
           (registerPane 0 (lit "%3") (lit "test-session") (Int 0) (Int 0) create).2
           (lit "%3") (lit "test-session:0.0")).
  - split; eexists; (split; [vm_compute; reflexivity | reflexivity]).
  - reflexivity.
  - reflexivity.
Defined.

(** C1, as stated, fails for registered, live pairs that do not have the
    shapes the resolver dispatches on: a session whose name starts with
    [%] gives a structured id that is taken for a native handle, and a
    native handle without [%] is taken for a structured id. *)
Lemma C1_roundtrip_needs_the_shapes :
  (let self := (registerPane 0 (lit "%1") (lit "%dev") (Int 0) (Int 0) create).2 in
   Spec.live self (lit "%1") (lit "%dev:0.0")
   ∧ Spec.nativeRoundTrip 1 2 self (lit "%1") = lit "%dev:0.0"
   ∧ Spec.nativeRoundTrip 1 2 self (lit "%1") ≠ lit "%1")
  ∧ (let self := (registerPane 0 (lit "pane3") (lit "dev") (Int 0) (Int 0) create).2 in
     Spec.live self (lit "pane3") (lit "dev:0.0")
     ∧ Spec.structuredRoundTrip 1 2 self (lit "dev:0.0") = lit "pane3"
     ∧ Spec.structuredRoundTrip 1 2 self (lit "dev:0.0") ≠ lit "dev:0.0").
Proof.
  split; cbn zeta.
  - split; [apply (registerPane_live 0 (lit "%1") (lit "%dev") (Int 0) (Int 0) create)|].
    split; [vm_compute; reflexivity | vm_compute; discriminate].
  - split; [apply (registerPane_live 0 (lit "pane3") (lit "dev") (Int 0) (Int 0) create)|].
    split; [vm_compute; reflexivity | vm_compute; discriminate].
Qed.

(** C2, on the code: a pane that moved from session [s] to session [t]
    keeps its old entry in [structuredToNative]; [getSessionMappings] walks
    [nativeToStructured] only, finds nothing for [s], and [clearSession]
    leaves the entry of session [s] behind. *)
Theorem C2_clearSession_leaves_stale_entry :
  let s1 := (registerPane 0 (lit "%1") (lit "s") (Int 0) (Int 0) create).2 in
  let s2 := (registerPane 1 (lit "%1") (lit "t") (Int 0) (Int 0) s1).2 in
  let s3 := clearSession (lit "s") s2 in
  getSessionMappings (lit "s") s2 = []
  ∧ sessionName <$> getStructured s3 (lit "s:0.0") = Some (lit "s")
  ∧ (resolveToNative 2 (lit "s:0.0") s3).1 = lit "%1"
  ∧ sessionName <$> getNative s3 (lit "%1") = Some (lit "t").
Proof. repeat split; vm_compute; reflexivity. Qed.

End Identity.

Section SessionClearing.
Import PaneIdResolver.

(** The part after the last occurrence of a unit determines the split. *)
Lemma split_at_last (c : N) (l1 r1 l2 r2 : list N) :
  c ∉ r1 → c ∉ r2 → l1 ++ c :: r1 = l2 ++ c :: r2 → l1 = l2 ∧ r1 = r2.
Proof.
  intros H1 H2. revert l2. induction l1 as [|x l1 IH]; intros [|y l2] E; cbn in E.
  - by simplify_eq.
  - simplify_eq. exfalso. apply H1. apply elem_of_app. right. apply list_elem_of_here.
  - simplify_eq. exfalso. apply H2. apply elem_of_app. right. apply list_elem_of_here.
  - simplify_eq. destruct (IH l2) as [-> ->]; done.
Qed.

Lemma numberToString_no (c : N) (n : num) :
  ¬ isNumberUnit c → c ∉ numberToString n.
Proof.
  intros Hc Hin. pose proof (numberToString_units n) as Hall.
  rewrite Forall_forall in Hall. by apply Hc, Hall.
Qed.

Lemma colon_dot_not_number_units : ¬ isNumberUnit 58 ∧ ¬ isNumberUnit 46.
Proof. unfold isNumberUnit, isDigit. split; intros H; lia. Qed.

(** A structured id determines the session, the window and the pane. *)
Lemma buildStructuredId_inj s w p s' w' p' :
  buildStructuredId s w p = buildStructuredId s' w' p' → s = s' ∧ w = w' ∧ p = p'.
Proof.
  destruct colon_dot_not_number_units as [Hcolon Hdot].
  unfold buildStructuredId. change (lit ":") with [58%N]. change (lit ".") with [46%N].
  cbn [app]. intros E.
  assert (E' : (s ++ 58%N :: numberToString w) ++ 46%N :: numberToString p
               = (s' ++ 58%N :: numberToString w') ++ 46%N :: numberToString p')
    by (rewrite <- !app_assoc; exact E).
  apply split_at_last in E' as [E1 E2]; [|by apply numberToString_no..].
  apply split_at_last in E1 as [E0 E1]; [|by apply numberToString_no..].
  by apply numberToString_inj in E1 as ->; apply numberToString_inj in E2 as ->.
Qed.

Lemma consistent_create : Spec.consistent create.
Proof.
  split; cbn; try done; try apply NoDup_nil_2.
Qed.

Lemma consistent_registerPane now native session window pane self :
  Spec.consistent self →
  Spec.consistent (registerPane now native session window pane self).2.
Proof.
  intros [Hnk Hsk Hne Hse Hids].
  set (sid := buildStructuredId session window pane).
  set (mapping := {| nativeId := native; structuredId := sid; sessionName := session;
                     windowIndex := window; paneIndex := pane; lastSeen := now |}).
  set (n2s := match getStructured self sid with
              | Some existingStructured =>
                  if decide (nativeId existingStructured ≠ native)
                  then JsMap.delete (nativeId existingStructured) (nativeToStructured self)
                  else nativeToStructured self
              | None => nativeToStructured self
              end).
  assert (Hn2s : ∀ k ref, JsMap.get k n2s = Some ref →
            JsMap.get k (nativeToStructured self) = Some ref
            ∧ ∀ m, getStructured self sid = Some m → nativeId m ≠ native → nativeId m ≠ k).
  { intros k ref. subst n2s. destruct (getStructured self sid) as [ex|].
    - case_decide as Hex.
      + rewrite get_delete. case_decide as Hk; [done|]. intros H. split; [done|].
        by intros m [= <-] _.
      + intros H. split; [done|]. by intros m [= <-] ?.
    - intros H. split; [done|]. by intros m ?. }
  assert (Hn2sk : NoDup (JsMap.keys n2s)).
  { subst n2s. destruct (getStructured self sid) as [ex|]; [|done].
    case_decide; [by apply NoDup_keys_delete | done]. }
  unfold registerPane. fold sid. fold mapping. fold n2s. cbn [snd].
  split; cbn [store nativeToStructured structuredToNative].
  - by apply NoDup_keys_set.
  - by apply NoDup_keys_set.
  - intros k ref. rewrite get_set. case_decide as Hk.
    + intros [= <-]. subst k. exists mapping.
      split; [by apply list_lookup_middle|]. split; [done|]. cbn. by rewrite get_set_eq.
    + intros Hget. destruct (Hn2s k ref Hget) as [Hold Hex].
      destruct (Hne k ref Hold) as (m & Hm & Hmk & Hback).
      exists m. split; [by apply lookup_app_l_Some|]. split; [done|].
      rewrite get_set. case_decide as Hsid; [|done].
      exfalso. assert (Hgs : getStructured self sid = Some m).
      { unfold getStructured, deref. rewrite Hsid, Hback. cbn. exact Hm. }
      apply (Hex m Hgs); congruence.
  - intros k ref. rewrite get_set. case_decide as Hk.
    + intros [= <-]. subst k. exists mapping. split; [by apply list_lookup_middle | done].
    + intros Hget. destruct (Hse k ref Hget) as (m & Hm & Hmk).
      exists m. split; [by apply lookup_app_l_Some | done].
  - intros ref m [Hold|[_ Hnew]]%lookup_app_Some.
    + by apply (Hids ref).
    + destruct (ref - length (store self)); cbn in Hnew; [|done].
      by injection Hnew as <-.
Qed.

Lemma registered_consistent self : Spec.registered self → Spec.consistent self.
Proof.
  induction 1; [apply consistent_create | by apply consistent_registerPane].
Qed.

Lemma forget_store self m : store (forget self m) = store self.
Proof. done. Qed.

Lemma foldl_forget_store ms self : store (foldl forget self ms) = store self.
Proof. revert self. induction ms as [|m ms IH]; intros self; [done|]. cbn. by rewrite IH. Qed.

Lemma foldl_forget_native ms self k :
  JsMap.get k (nativeToStructured (foldl forget self ms))
  = if bool_decide (k ∈ nativeId <$> ms) then None
    else JsMap.get k (nativeToStructured self).
Proof.
  revert self. induction ms as [|m ms IH]; intros self; [done|].
  cbn [foldl]. rewrite IH. cbn [forget nativeToStructured]. rewrite get_delete.
  rewrite fmap_cons.
  destruct (decide (k ∈ nativeId <$> ms)) as [Hin|Hin].
  - rewrite !bool_decide_eq_true_2; [done| |done]. by apply list_elem_of_further.
  - rewrite (bool_decide_eq_false_2 (k ∈ nativeId <$> ms)) by done.
    destruct (decide (nativeId m = k)) as [<-|Hk].
    + by rewrite bool_decide_eq_true_2 by apply list_elem_of_here.
    + rewrite bool_decide_eq_false_2; [done|].
      intros [?|?]%elem_of_cons; congruence.
Qed.

Lemma foldl_forget_structured ms self k :
  JsMap.get k (structuredToNative (foldl forget self ms))
  = if bool_decide (k ∈ structuredId <$> ms) then None
    else JsMap.get k (structuredToNative self).
Proof.
  revert self. induction ms as [|m ms IH]; intros self; [done|].
  cbn [foldl]. rewrite IH. cbn [forget structuredToNative]. rewrite get_delete.
  rewrite fmap_cons.
  destruct (decide (k ∈ structuredId <$> ms)) as [Hin|Hin].
  - rewrite !bool_decide_eq_true_2; [done| |done]. by apply list_elem_of_further.
  - rewrite (bool_decide_eq_false_2 (k ∈ structuredId <$> ms)) by done.
    destruct (decide (structuredId m = k)) as [<-|Hk].
    + by rewrite bool_decide_eq_true_2 by apply list_elem_of_here.
    + rewrite bool_decide_eq_false_2; [done|].
      intros [?|?]%elem_of_cons; congruence.
Qed.

Lemma elem_nativeValues self m :
  m ∈ nativeValues self ↔
  ∃ k ref, (k, ref) ∈ nativeToStructured self ∧ store self !! ref = Some m.
Proof.
  unfold nativeValues, JsMap.values, deref. rewrite list_elem_of_omap. split.
  - intros (ref & [[k ref'] [-> Hin]]%list_elem_of_fmap & Hm). by exists k, ref'.
  - intros (k & ref & Hin & Hm). exists ref. split; [|done].
    apply list_elem_of_fmap. by exists (k, ref).
Qed.

Lemma getNative_nativeValues self k m :
  getNative self k = Some m → m ∈ nativeValues self.
Proof.
  unfold getNative, deref. intros H.
  destruct (JsMap.get k (nativeToStructured self)) as [ref|] eqn:Hget; [|done].
  apply elem_nativeValues. exists k, ref. split; [by apply get_Some_elem | done].
Qed.

(** In a consistent state the mappings listed for a session sit under
    their own handle. *)
Lemma nativeValues_key self m :
  Spec.consistent self → m ∈ nativeValues self →
  getNative self (nativeId m) = Some m.
Proof.
  intros Hc (k & ref & Hin & Hm)%elem_nativeValues.
  pose proof (elem_get k ref _ (Spec.native_keys _ Hc) Hin) as Hget.
  destruct (Spec.native_entry _ Hc k ref Hget) as (m' & Hm' & Hk & _).
  assert (m' = m) as -> by congruence. subst k.
  unfold getNative, deref. by rewrite Hget.
Qed.

(** After [clearSession(s)] the native direction holds no mapping of [s]. *)
Lemma clearSession_native_cleared session self k m :
  Spec.consistent self →
  getNative (clearSession session self) k = Some m → sessionName m ≠ session.
Proof.
  intros Hc H Hs. unfold clearSession, getNative, deref, log in H.
  cbn [nativeToStructured store] in H.
  rewrite foldl_forget_native, foldl_forget_store in H.
  case_bool_decide as Hin; [done|].
  assert (Hm : getNative self k = Some m) by exact H.
  apply Hin. apply list_elem_of_fmap. exists m.
  assert (Hv : m ∈ nativeValues self) by by eapply getNative_nativeValues.
  split.
  - pose proof (nativeValues_key self m Hc Hv) as Hkey.
    unfold getNative, deref in Hm, Hkey.
    destruct (JsMap.get k (nativeToStructured self)) as [ref|] eqn:Hget; [|done].
    destruct (Spec.native_entry _ Hc k ref Hget) as (m' & Hm' & Hk & _).
    cbn in Hm. congruence.
  - unfold getSessionMappings. by apply list_elem_of_filter.
Qed.

(** [clearSession(s)] leaves the mappings of other sessions as they were,
    in both directions. *)
Lemma clearSession_frame session self k m :
  Spec.consistent self → sessionName m ≠ session →
  (getNative self k = Some m → getNative (clearSession session self) k = Some m)
  ∧ (getStructured self k = Some m → getStructured (clearSession session self) k = Some m).
Proof.
  intros Hc Hs. unfold clearSession, getNative, getStructured, deref, log.
  cbn [nativeToStructured structuredToNative store].
  rewrite foldl_forget_native, foldl_forget_structured, foldl_forget_store.
  split; intros H.
  - rewrite bool_decide_eq_false_2; [done|].
    intros (m' & Hk & [Hs' Hv]%list_elem_of_filter)%list_elem_of_fmap.
    pose proof (nativeValues_key self m' Hc Hv) as Hkey. rewrite <- Hk in Hkey.
    unfold getNative, deref in Hkey. congruence.
  - rewrite bool_decide_eq_false_2; [done|].
    intros (m' & Hk & [Hs' Hv]%list_elem_of_filter)%list_elem_of_fmap.
    destruct (JsMap.get k (structuredToNative self)) as [ref|] eqn:Hget; [|done].
    destruct (Spec.structured_entry _ Hc k ref Hget) as (m0 & Hm0 & Hk0).
    cbn in H. assert (m0 = m) as -> by congruence.
    apply elem_nativeValues in Hv as (k' & ref' & _ & Hm').
    pose proof (Spec.built_ids _ Hc _ _ Hm0) as Hb.
    pose proof (Spec.built_ids _ Hc _ _ Hm') as Hb'.
    rewrite Hk0, Hk, Hb' in Hb. apply buildStructuredId_inj in Hb as [Hb _]. congruence.
Qed.


(** What [clearSession] does achieve in the states that [registerPane]
    calls produce: the native direction is cleared of the session, and the
    mappings of every other session stay, in both directions.  What it
    misses is the structured entry left behind by a handle that moved. *)
Lemma clearSession_on_registered session self :
  Spec.registered self →
  (∀ k m, getNative (clearSession session self) k = Some m → sessionName m ≠ session)
  ∧ (∀ k m, sessionName m ≠ session →
       (getNative self k = Some m → getNative (clearSession session self) k = Some m)
       ∧ (getStructured self k = Some m
          → getStructured (clearSession session self) k = Some m)).
Proof.
  intros Hc%registered_consistent. split.
  - intros k m. by apply clearSession_native_cleared.
  - intros k m Hs. by apply clearSession_frame.
Qed.

End SessionClearing.

(** ** Command safety ([CommandEscaper]) *)

Section Escaping.
Import Replace CommandEscaper.

Lemma search_unit (c : N) (i : nat) (suffix : list N) :
  (search (unitRegExp c) i suffix = None ∧ c ∉ suffix)
  ∨ (∃ pre post,
        suffix = pre ++ c :: post ∧ (c ∉ pre)
        ∧ search (unitRegExp c) i suffix
          = Some (i + length pre,
                  {| pos := S (i + length pre); rest := post; caps := [None] |})).
Proof.
  revert i. induction suffix as [|x t IH]; intros i.
  - left. split; [reflexivity | apply not_elem_of_nil].
  - cbn [search unitRegExp body ignoreCase dotAll groupCount rmatch rest].
    unfold unitEq, canonicalize. cbn [andb].
    case_bool_decide as Hx.
    + subst x. right. exists [], t. cbn. rewrite Nat.add_0_r.
      split; [done|]. split; [apply not_elem_of_nil | done].
    + destruct (IH (S i)) as [[Hs Hnot]|(pre & post & -> & Hnot & Hs)].
      * left. split; [done|]. apply not_elem_of_cons. split; [congruence | done].
      * right. exists (x :: pre), post. cbn [length app].
        split; [done|]. split; [apply not_elem_of_cons; split; [congruence|done]|].
        rewrite Hs. by rewrite Nat.add_succ_r.
Qed.

Lemma replaceUnit_absent (c : N) (replacement s : list N) :
  c ∉ s → Spec.replaceUnit c replacement s = s.
Proof.
  unfold Spec.replaceUnit. induction s as [|x t IH]; [done|].
  intros [Hx Ht]%not_elem_of_cons. rewrite bind_cons, IH by done.
  by rewrite bool_decide_eq_false_2 by congruence.
Qed.

Lemma replaceUnit_app (c : N) (replacement s1 s2 : list N) :
  Spec.replaceUnit c replacement (s1 ++ s2)
  = Spec.replaceUnit c replacement s1 ++ Spec.replaceUnit c replacement s2.
Proof. unfold Spec.replaceUnit. apply bind_app. Qed.

Lemma replaceFrom_unit (c : N) (replacement s : list N) :
  plain replacement →
  ∀ fuel i suffix, length suffix < fuel →
    replaceFrom fuel (unitRegExp c) replacement s i suffix
    = Spec.replaceUnit c replacement suffix.
Proof.
  intros Hplain. induction fuel as [|fuel IH]; intros i suffix Hlen; [lia|].
  cbn [replaceFrom].
  destruct (search_unit c i suffix) as [[-> Hnot]|(pre & post & -> & Hnot & ->)].
  - by rewrite replaceUnit_absent.
  - assert (Hpost : length post < fuel)
      by (rewrite length_app in Hlen; cbn in Hlen; lia).
    cbn [pos]. rewrite bool_decide_eq_false_2 by lia.
    replace (i + length pre - i) with (length pre) by lia.
    replace (S (i + length pre) - i) with (length pre + 1) by lia.
    rewrite take_app_length, Hplain, drop_app_add. cbn [drop].
    rewrite IH by done.
    cbn [drop]. rewrite replaceUnit_app, (replaceUnit_absent c replacement pre) by done.
    f_equal. unfold Spec.replaceUnit at 2. rewrite bind_cons.
    by rewrite bool_decide_eq_true_2.
Qed.

Lemma replaceAll_unit (c : N) (replacement s : list N) :
  plain replacement →
  replaceAll (unitRegExp c) replacement s = Spec.replaceUnit c replacement s.
Proof. intros H. unfold replaceAll. apply replaceFrom_unit; [done | lia]. Qed.

Lemma escapeTable_plain : Forall (λ entry, plain entry.2) Spec.escapeTable.
Proof. repeat constructor; intros matched before after; reflexivity. Qed.

Lemma escapeInOrder_unit (x : N) : Spec.escapeInOrder [x] = Spec.escapeUnit x.
Proof.
  destruct (decide (x = 92%N)) as [->|H1]; [vm_compute; reflexivity|].
  destruct (decide (x = 34%N)) as [->|H2]; [vm_compute; reflexivity|].
  destruct (decide (x = 39%N)) as [->|H3]; [vm_compute; reflexivity|].
  destruct (decide (x = 36%N)) as [->|H4]; [vm_compute; reflexivity|].
  destruct (decide (x = 96%N)) as [->|H5]; [vm_compute; reflexivity|].
  destruct (decide (x = 59%N)) as [->|H6]; [vm_compute; reflexivity|].
  destruct (decide (x = 124%N)) as [->|H7]; [vm_compute; reflexivity|].
  destruct (decide (x = 38%N)) as [->|H8]; [vm_compute; reflexivity|].
  unfold Spec.escapeInOrder, Spec.escapeUnit, Spec.escapeTable, Spec.replaceUnit.
  cbn [foldl fst snd Spec.lookupUnit].
  repeat (rewrite (bool_decide_eq_false_2 (x = _)) by done; cbn).
  reflexivity.
Qed.

Lemma replaceChain_app (table : list (N * list N)) (s1 s2 : list N) :
  foldl (λ acc entry, Spec.replaceUnit entry.1 entry.2 acc) (s1 ++ s2) table
  = foldl (λ acc entry, Spec.replaceUnit entry.1 entry.2 acc) s1 table
    ++ foldl (λ acc entry, Spec.replaceUnit entry.1 entry.2 acc) s2 table.
Proof.
  revert s1 s2. induction table as [|entry table IH]; intros s1 s2; [done|].
  cbn [foldl]. by rewrite replaceUnit_app, IH.
Qed.

Lemma escapeInOrder_bind (s : list N) :
  Spec.escapeInOrder s = s ≫= Spec.escapeUnit.
Proof.
  induction s as [|x t IH]; [done|].
  change (x :: t) with ([x] ++ t) at 1.
  unfold Spec.escapeInOrder at 1. rewrite replaceChain_app.
  fold (Spec.escapeInOrder [x]). fold (Spec.escapeInOrder t).
  by rewrite escapeInOrder_unit, IH, bind_cons.
Qed.

(** C3.  For every input, [escapeForTmuxSendKeys] is the eight
    character-class replacements applied in their fixed order (backslash,
    double quote, single quote, dollar, backtick, semicolon, pipe,
    ampersand), each replacing every occurrence of its character; and
    because no replacement text contains a character that a later step
    looks for, the chain escapes each unit of the input once, on its own. *)
Theorem C3_escape_in_order_is_one_pass (command : list N) :
  escapeForTmuxSendKeys command = Spec.escapeInOrder command
  ∧ escapeForTmuxSendKeys command = command ≫= Spec.escapeUnit.
Proof.
  assert (H : escapeForTmuxSendKeys command = Spec.escapeInOrder command).
  { unfold escapeForTmuxSendKeys, backslash.
    pose proof escapeTable_plain as Hp.
    repeat (apply Forall_cons in Hp as [? Hp]).
    rewrite !replaceAll_unit by done. reflexivity. }
  split; [done|]. rewrite H. apply escapeInOrder_bind.
Qed.

End Escaping.

Section Validation.
Import CommandEscaper.

Lemma split_cons_shape (sep : N) (s : list N) : ∃ h r, split sep s = h :: r.
Proof.
  induction s as [|c t (h & r & IH)]; cbn; [by eexists _, _|].
  case_bool_decide; [by eexists _, _|]. rewrite IH. by eexists _, _.
Qed.

Lemma split_without (sep : N) (s : list N) : sep ∉ s → split sep s = [s].
Proof.
  induction s as [|c t IH]; [done|]. intros [Hc Ht]%not_elem_of_cons. cbn.
  rewrite bool_decide_eq_false_2 by congruence. by rewrite IH.
Qed.

Lemma split_with (sep : N) (s : list N) :
  sep ∈ s → ∃ h x r, split sep s = h :: x :: r.
Proof.
  induction s as [|c t IH]; [by intros ?%elem_of_nil|].
  intros Hin. cbn. case_bool_decide as Hc.
  - destruct (split_cons_shape sep t) as (h & r & ->). by eexists _, _, _.
  - apply elem_of_cons in Hin as [?|Hin]; [congruence|].
    destruct (IH Hin) as (h & x & r & ->). by eexists _, _, _.
Qed.

Lemma finalComponent_without (s : list N) : 47%N ∉ s → Spec.finalComponent s = s.
Proof.
  destruct s as [|c t]; [done|]. intros [Hc Ht]%not_elem_of_cons. cbn.
  rewrite bool_decide_eq_false_2 by done. by rewrite bool_decide_eq_false_2 by congruence.
Qed.

Lemma finalComponent_slash_free (s : list N) : 47%N ∉ Spec.finalComponent s.
Proof.
  induction s as [|c t IH]; [apply not_elem_of_nil|]. cbn.
  case_bool_decide as Ht; [done|]. case_bool_decide as Hc; [done|].
  apply not_elem_of_cons. split; [congruence | done].
Qed.

(** [split('/').pop()] is the final component. *)
Lemma pop_split (s : list N) : pop (split 47 s) = Some (Spec.finalComponent s).
Proof.
  unfold pop. induction s as [|c t IH]; [done|]. cbn [split Spec.finalComponent].
  case_bool_decide as Hc.
  - subst c. destruct (split_cons_shape 47 t) as (h & r & Hs).
    rewrite Hs in *. cbn [last] in *. rewrite IH.
    case_bool_decide as Ht; [done|]. by rewrite finalComponent_without.
  - case_bool_decide as Ht.
    + destruct (split_with 47 t Ht) as (h & x & r & Hs). rewrite Hs in *. exact IH.
    + by rewrite split_without.
Qed.

Lemma baseCommandOf_final (command : list N) :
  baseCommandOf command
  = if truthy (Spec.finalComponent command) then Spec.finalComponent command else command.
Proof. unfold baseCommandOf. by rewrite pop_split. Qed.


(** No listed command name is empty or contains a [/]. *)
Lemma listed_names_are_bare :
  Forall (λ x, (47%N ∉ x) ∧ x ≠ [])
    (dangerousCommands ++ safeDevelopmentCommands ++ [lit "tmux"]).
Proof. apply (bool_decide_unpack _). vm_compute. reflexivity. Qed.

Lemma bare_final_iff (x command : list N) :
  47%N ∉ x → x ≠ [] →
  baseCommandOf command = x ↔ Spec.finalComponent command = x.
Proof.
  intros Hslash Hne. rewrite baseCommandOf_final.
  destruct (Spec.finalComponent command) as [|c t] eqn:E; cbn [truthy]; [|done].
  split; [|done]. intros ->. rewrite finalComponent_without in E by done. done.
Qed.

Lemma has_base_final (set : list (list N)) (command : list N) :
  Forall (λ x, (47%N ∉ x) ∧ x ≠ []) set →
  has set (baseCommandOf command) = has set (Spec.finalComponent command).
Proof.
  intros Hset. unfold has. apply bool_decide_ext.
  split; intros Hin.
  - rewrite Forall_forall in Hset. destruct (Hset _ Hin) as [H1 H2].
    assert (E : Spec.finalComponent command = baseCommandOf command)
      by by apply bare_final_iff.
    by rewrite E.
  - rewrite Forall_forall in Hset. destruct (Hset _ Hin) as [H1 H2].
    assert (E : baseCommandOf command = Spec.finalComponent command)
      by by apply bare_final_iff.
    by rewrite E.
Qed.

Lemma baseCommandOf_idem (command : list N) :
  truthy (Spec.finalComponent command) = true →
  baseCommandOf (Spec.finalComponent command) = baseCommandOf command.
Proof.
  intros Ht. rewrite !baseCommandOf_final.
  rewrite finalComponent_without by apply finalComponent_slash_free.
  by rewrite Ht.
Qed.

(** C10.  The denylist and the allowlist are consulted for the final path
    component of the command, the substring after its last [/]: membership
    of the name that [validateCommand] looks up equals membership of that
    component; a command whose final component is denylisted is rejected,
    by the same error, whatever path precedes it; and a command with a
    non-empty final component is validated exactly as that component alone. *)
Theorem C10_lists_apply_to_final_component
    (options : Options) (command : list N) (args : list (list N)) :
  let final := Spec.finalComponent command in
  has dangerousCommands (baseCommandOf command) = has dangerousCommands final
  ∧ has safeDevelopmentCommands (baseCommandOf command)
    = has safeDevelopmentCommands final
  ∧ (has dangerousCommands final = true → allowDangerous options = false →
     validateCommand options command args
     = Threw (lit "Dangerous command blocked: " ++ final
              ++ lit ". Use allowDangerous option to override."))
  ∧ (truthy final = true →
     validateCommand options command args = validateCommand options final args).
Proof.
  intros final. subst final.
  pose proof listed_names_are_bare as Hall.
  apply Forall_app in Hall as [Hd Hall]. apply Forall_app in Hall as [Hs _].
  assert (H1 := has_base_final dangerousCommands command Hd).
  assert (H2 := has_base_final safeDevelopmentCommands command Hs).
  split; [done|]. split; [done|]. split.
  - intros Hin Hallow. unfold validateCommand.
    rewrite H1, Hin, Hallow. cbn [negb andb].
    assert (Hbase : baseCommandOf command = Spec.finalComponent command).
    { apply bare_final_iff; [apply finalComponent_slash_free| |done].
      intros E. rewrite E in Hin. vm_compute in Hin. discriminate. }
    by rewrite Hbase.
  - intros Ht. unfold validateCommand. by rewrite baseCommandOf_idem.
Qed.

Lemma C10_lists_apply_to_final_component_witness :
  validateCommand defaultOptions (lit "/bin/rm") [lit "-rf"; lit "/"]
  = Threw (lit "Dangerous command blocked: rm. Use allowDangerous option to override.")
  ∧ validateCommand defaultOptions (lit "/bin/rm") [lit "-rf"; lit "/"]
    = validateCommand defaultOptions (lit "rm") [lit "-rf"; lit "/"].
Proof.
  destruct (C10_lists_apply_to_final_component defaultOptions (lit "/bin/rm")
              [lit "-rf"; lit "/"]) as (_ & _ & Hblocked & Hsame).
  split.
  - apply Hblocked; reflexivity.
  - apply Hsame; reflexivity.
Defined.

(** The two validations named by the contract. *)
Example validate_rm_npm :
  isCommandSafe defaultOptions (lit "rm") [lit "-rf"; lit "/"]
  = (false, Some (lit "Dangerous command blocked: rm. Use allowDangerous option to override."))
  ∧ isCommandSafe defaultOptions (lit "npm") [lit "run"; lit "dev"] = (true, None).
Proof. split; vm_compute; reflexivity. Qed.

End Validation.

(** ** Pane identities: every state the resolver can reach *)

Section Reachable.
Import PaneIdResolver.

Lemma consistent_log level msg self :
  Spec.consistent self → Spec.consistent (log level msg self).
Proof. intros [Hnk Hsk Hne Hse Hids]. by split. Qed.

Lemma consistent_updateLastSeen now native self :
  Spec.consistent self → Spec.consistent (updateLastSeen now native self).
Proof.
  intros Hc. unfold updateLastSeen.
  destruct (JsMap.get native (nativeToStructured self)) as [ref0|] eqn:E; [|done].
  destruct Hc as [Hnk Hsk Hne Hse Hids].
  split; cbn [store nativeToStructured structuredToNative]; [done|done|..].
  - intros k ref Hget. destruct (Hne k ref Hget) as (m & Hm & Hk & Hback).
    rewrite list_lookup_alter.
    destruct (decide (ref0 = ref)) as [->|Href]; rewrite Hm; cbn;
      eexists; (split; [done|]); done.
  - intros k ref Hget. destruct (Hse k ref Hget) as (m & Hm & Hk).
    rewrite list_lookup_alter.
    destruct (decide (ref0 = ref)) as [->|Href]; rewrite Hm; cbn;
      eexists; (split; [done|]); done.
  - intros ref m. rewrite list_lookup_alter.
    destruct (decide (ref0 = ref)) as [->|Href]; [|apply Hids].
    destruct (store self !! ref) as [m0|] eqn:Hm0; [|done]. cbn. intros [= <-].
    cbn. by apply (Hids ref).
Qed.

Lemma foldl_forget_native_keys ms self :
  NoDup (JsMap.keys (nativeToStructured self)) →
  NoDup (JsMap.keys (nativeToStructured (foldl forget self ms))).
Proof.
  revert self. induction ms as [|m ms IH]; intros self H; [done|].
  cbn [foldl]. apply IH. by apply NoDup_keys_delete.
Qed.

Lemma foldl_forget_structured_keys ms self :
  NoDup (JsMap.keys (structuredToNative self)) →
  NoDup (JsMap.keys (structuredToNative (foldl forget self ms))).
Proof.
  revert self. induction ms as [|m ms IH]; intros self H; [done|].
  cbn [foldl]. apply IH. by apply NoDup_keys_delete.
Qed.

(** In a consistent state a structured entry that shares its key with a
    mapping listed by [nativeToStructured] is that mapping. *)
Lemma structured_of_listed self k m m' :
  Spec.consistent self → m' ∈ nativeValues self → structuredId m' = k →
  getStructured self k = Some m → m = m'.
Proof.
  intros Hc Hv Hsid Hget.
  pose proof (nativeValues_key self m' Hc Hv) as Hkey.
  unfold getNative, getStructured, deref in *.
  destruct (JsMap.get (nativeId m') (nativeToStructured self)) as [ref'|] eqn:Hget';
    [|done].
  destruct (Spec.native_entry _ Hc _ _ Hget') as (m'' & Hm'' & _ & Hback').
  cbn in Hkey. assert (m'' = m') as -> by congruence.
  rewrite Hsid in Hback'. rewrite Hback' in Hget. cbn in Hget. congruence.
Qed.

(** Forgetting mappings that [nativeToStructured] lists takes both of
    their entries away and no entry of another mapping. *)
Lemma consistent_foldl_forget ms self :
  Spec.consistent self → ms ⊆ nativeValues self →
  Spec.consistent (foldl forget self ms).
Proof.
  intros Hc Hms. pose proof Hc as [Hnk Hsk Hne Hse Hids].
  split.
  - by apply foldl_forget_native_keys.
  - by apply foldl_forget_structured_keys.
  - intros k ref. rewrite foldl_forget_native, foldl_forget_store.
    case_bool_decide as Hin; [done|]. intros Hget.
    destruct (Hne k ref Hget) as (m & Hm & Hk & Hback).
    exists m. split; [done|]. split; [done|].
    rewrite foldl_forget_structured.
    rewrite bool_decide_eq_false_2; [done|].
    intros (m' & Hsid & Hm')%list_elem_of_fmap.
    assert (m = m') as <-.
    { apply (structured_of_listed self (structuredId m) m m' Hc (Hms _ Hm')); [done|].
      unfold getStructured, deref. by rewrite Hback. }
    apply Hin. apply list_elem_of_fmap. exists m. by split.
  - intros k ref. rewrite foldl_forget_structured, foldl_forget_store.
    case_bool_decide; [done|]. apply Hse.
  - intros ref m. rewrite foldl_forget_store. apply Hids.
Qed.

Lemma consistent_destroy self : Spec.consistent self → Spec.consistent (destroy self).
Proof.
  intros [Hnk Hsk Hne Hse Hids].
  split; cbn; try done; apply NoDup_nil_2.
Qed.

Lemma consistent_resolveToNative now paneId self :
  Spec.consistent self → Spec.consistent (resolveToNative now paneId self).2.
Proof.
  intros Hc. unfold resolveToNative.
  destruct (startsWith (lit "%") paneId); [by apply consistent_updateLastSeen|].
  destruct (getStructured self paneId); [by apply consistent_updateLastSeen|].
  destruct (includes (lit ":") paneId && includes (lit ".") paneId);
    [|by apply consistent_log].
  destruct (attemptStructuredResolution paneId self) as [r|]; [|by apply consistent_log].
  destruct (truthy r); [done | by apply consistent_log].
Qed.

Lemma consistent_resolveToStructured now paneId self :
  Spec.consistent self → Spec.consistent (resolveToStructured now paneId self).2.
Proof.
  intros Hc. unfold resolveToStructured.
  destruct (negb (startsWith (lit "%") paneId)); [done|].
  destruct (getNative self paneId);
    [by apply consistent_updateLastSeen | by apply consistent_log].
Qed.

Lemma consistent_clearSession session self :
  Spec.consistent self → Spec.consistent (clearSession session self).
Proof.
  intros Hc. apply consistent_log, consistent_foldl_forget; [done|].
  intros m [_ Hm]%list_elem_of_filter. exact Hm.
Qed.

Lemma consistent_cleanupOldMappings now self :
  Spec.consistent self → Spec.consistent (cleanupOldMappings now self).
Proof.
  intros Hc. unfold cleanupOldMappings.
  assert (Spec.consistent
            (foldl forget self
               (filter (λ mapping, (lastSeen mapping < now - 60 * 60 * 1000)%Z)
                  (nativeValues self)))) as H.
  { apply consistent_foldl_forget; [done|].
    intros m [_ Hm]%list_elem_of_filter. exact Hm. }
  case_bool_decide; [by apply consistent_log | done].
Qed.

Lemma reachable_consistent self : Spec.reachable self → Spec.consistent self.
Proof.
  induction 1.
  - apply consistent_create.
  - by apply consistent_registerPane.
  - by apply consistent_resolveToNative.
  - by apply consistent_resolveToStructured.
  - by apply consistent_clearSession.
  - by apply consistent_cleanupOldMappings.
  - by apply consistent_destroy.
Qed.

End Reachable.

Section ResolverProperties.
Import PaneIdResolver.

Lemma getNative_ref self k m :
  getNative self k = Some m →
  ∃ ref, JsMap.get k (nativeToStructured self) = Some ref ∧ store self !! ref = Some m.
Proof.
  unfold getNative, deref. intros H.
  destruct (JsMap.get k (nativeToStructured self)) as [ref|]; [|done]. by exists ref.
Qed.

Lemma getStructured_ref self k m :
  getStructured self k = Some m →
  ∃ ref, JsMap.get k (structuredToNative self) = Some ref ∧ store self !! ref = Some m.
Proof.
  unfold getStructured, deref. intros H.
  destruct (JsMap.get k (structuredToNative self)) as [ref|]; [|done]. by exists ref.
Qed.

Lemma native_entry_points_back self h m :
  Spec.consistent self → getNative self h = Some m →
  nativeId m = h ∧ getStructured self (structuredId m) = Some m.
Proof.
  intros Hc Hget.
  destruct (getNative_ref _ _ _ Hget) as (ref & Hk & Hm).
  destruct (Spec.native_entry _ Hc _ _ Hk) as (m' & Hm' & Hid & Hback).
  assert (m' = m) as -> by congruence.
  split; [done|]. unfold getStructured, deref. by rewrite Hback.
Qed.

(** X1.  In every state that calls of the resolver's methods can produce
    (registration, both resolutions, clearing a session, the hourly cleanup,
    destroy), an entry of [nativeToStructured] sits under the handle of its
    own mapping, and that handle and the mapping's structured id are a live
    pair: [structuredToNative] holds the same mapping under the id.  The id
    is the one built from the mapping's session, window and pane. *)
Theorem reachable_native_entries_are_live self h m :
  Spec.reachable self → getNative self h = Some m →
  nativeId m = h
  ∧ Spec.live self h (structuredId m)
  ∧ structuredId m
    = buildStructuredId (sessionName m) (windowIndex m) (paneIndex m).
Proof.
  intros Hc%reachable_consistent Hget.
  destruct (getNative_ref _ _ _ Hget) as (ref & Hk & Hm).
  destruct (Spec.native_entry _ Hc _ _ Hk) as (m' & Hm' & Hid & Hback).
  assert (m' = m) as -> by congruence.
  split; [done|]. split.
  - split; exists m; (split; [|done]); [done|].
    unfold getStructured, deref. by rewrite Hback.
  - by apply (Spec.built_ids _ Hc ref).
Qed.

Lemma reachable_native_entries_are_live_witness :
  let self :=
    clearSession (lit "old")
      (registerPane 5 (lit "%3") (lit "dev") (Int 0) (Int 1)
         (registerPane 0 (lit "%1") (lit "old") (Int 0) (Int 0) create).2).2 in
  let m := {| nativeId := lit "%3"; structuredId := lit "dev:0.1";
              sessionName := lit "dev"; windowIndex := Int 0; paneIndex := Int 1;
              lastSeen := 5 |} in
  nativeId m = lit "%3"
  ∧ Spec.live self (lit "%3") (structuredId m)
  ∧ structuredId m = buildStructuredId (sessionName m) (windowIndex m) (paneIndex m).
Proof.
  cbv zeta.
  apply (reachable_native_entries_are_live
           (clearSession (lit "old")
              (registerPane 5 (lit "%3") (lit "dev") (Int 0) (Int 1)
                 (registerPane 0 (lit "%1") (lit "old") (Int 0) (Int 0) create).2).2)
           (lit "%3")).
  - apply Spec.reachable_clearSession, Spec.reachable_registerPane,
      Spec.reachable_registerPane, Spec.reachable_create.
  - vm_compute. reflexivity.
Defined.



Lemma filter_none {A} (P : A → Prop) `{∀ x, Decision (P x)} (l : list A) :
  (∀ x, x ∈ l → ¬ P x) → filter P l = [].
Proof.
  induction l as [|x l IH]; intros Hall; [done|].
  rewrite filter_cons_False by (apply Hall, list_elem_of_here).
  apply IH. intros y Hy. apply Hall. by apply list_elem_of_further.
Qed.

(** X3.  In every reachable state, [clearSession(s)] empties the native
    direction of session [s]: [getSessionMappings(s)] is empty afterwards
    and no handle leads to a mapping of [s].  Mappings of other sessions
    stay where they were, in both directions. *)
Theorem clearSession_clears_the_native_direction session self :
  Spec.reachable self →
  getSessionMappings session (clearSession session self) = []
  ∧ (∀ k m, getNative (clearSession session self) k = Some m → sessionName m ≠ session)
  ∧ (∀ k m, sessionName m ≠ session →
       (getNative self k = Some m → getNative (clearSession session self) k = Some m)
       ∧ (getStructured self k = Some m
          → getStructured (clearSession session self) k = Some m)).
Proof.
  intros Hr. pose proof (reachable_consistent _ Hr) as Hc.
  pose proof (consistent_clearSession session self Hc) as Hc'.
  split; [|split].
  - unfold getSessionMappings. apply filter_none. intros m Hm.
    apply (clearSession_native_cleared session self (nativeId m) m Hc).
    by apply nativeValues_key.
  - intros k m. by apply clearSession_native_cleared.
  - intros k m Hs. by apply clearSession_frame.
Qed.

Lemma clearSession_clears_the_native_direction_witness :
  let self :=
    (registerPane 5 (lit "%3") (lit "dev") (Int 0) (Int 1)
       (registerPane 0 (lit "%1") (lit "old") (Int 0) (Int 0) create).2).2 in
  getSessionMappings (lit "old") (clearSession (lit "old") self) = []
  ∧ (∀ k m, getNative (clearSession (lit "old") self) k = Some m
            → sessionName m ≠ lit "old")
  ∧ (∀ k m, sessionName m ≠ lit "old" →
       (getNative self k = Some m → getNative (clearSession (lit "old") self) k = Some m)
       ∧ (getStructured self k = Some m
          → getStructured (clearSession (lit "old") self) k = Some m)).
Proof.
  cbv zeta.
  apply (clearSession_clears_the_native_direction (lit "old")
           (registerPane 5 (lit "%3") (lit "dev") (Int 0) (Int 1)
              (registerPane 0 (lit "%1") (lit "old") (Int 0) (Int 0) create).2).2).
  apply Spec.reachable_registerPane, Spec.reachable_registerPane, Spec.reachable_create.
Defined.

(** The maps after the cleanup are those after its loop. *)
Lemma cleanupOldMappings_maps now self :
  let old := filter (λ mapping, (lastSeen mapping < now - 60 * 60 * 1000)%Z)
               (nativeValues self) in
  nativeToStructured (cleanupOldMappings now self)
  = nativeToStructured (foldl forget self old)
  ∧ structuredToNative (cleanupOldMappings now self)
    = structuredToNative (foldl forget self old)
  ∧ store (cleanupOldMappings now self) = store self.
Proof.
  intros old. unfold cleanupOldMappings. fold old.
  case_bool_decide; cbn; by rewrite foldl_forget_store.
Qed.

(** X4.  In every reachable state the hourly cleanup at time [now] removes
    from [nativeToStructured] exactly the mappings last seen more than an
    hour before [now]: what is left was seen within the hour, and a mapping
    seen within the hour keeps its entries in both maps. *)
Theorem cleanupOldMappings_keeps_the_fresh now self :
  Spec.reachable self →
  let cutoff := (now - 60 * 60 * 1000)%Z in
  (∀ k m, getNative (cleanupOldMappings now self) k = Some m → (cutoff ≤ lastSeen m)%Z)
  ∧ (∀ k m, (cutoff ≤ lastSeen m)%Z →
       (getNative self k = Some m → getNative (cleanupOldMappings now self) k = Some m)
       ∧ (getStructured self k = Some m
          → getStructured (cleanupOldMappings now self) k = Some m)).
Proof.
  intros Hc%reachable_consistent cutoff.
  destruct (cleanupOldMappings_maps now self) as (Hn & Hs & Hst).
  unfold getNative, getStructured, deref. rewrite Hn, Hs, Hst.
  split.
  - intros k m. rewrite foldl_forget_native. case_bool_decide as Hin; [done|].
    intros Hget. destruct (decide (cutoff ≤ lastSeen m)%Z) as [|Hold]; [done|].
    exfalso. apply Hin. apply list_elem_of_fmap. exists m.
    assert (Hm : getNative self k = Some m) by exact Hget.
    destruct (getNative_ref _ _ _ Hm) as (ref & Hk & Hmr).
    destruct (Spec.native_entry _ Hc _ _ Hk) as (m' & Hm' & Hid & _).
    assert (m' = m) as -> by congruence.
    split; [done|]. apply list_elem_of_filter. split; [subst cutoff; lia|].
    by eapply getNative_nativeValues.
  - intros k m Hfresh. split; intros Hget.
    + rewrite foldl_forget_native. rewrite bool_decide_eq_false_2; [done|].
      intros (m' & Hk & [Hold Hv]%list_elem_of_filter)%list_elem_of_fmap.
      pose proof (nativeValues_key self m' Hc Hv) as Hkey. rewrite <- Hk in Hkey.
      unfold getNative, deref in Hkey. assert (m' = m) as -> by congruence.
      subst cutoff. lia.
    + rewrite foldl_forget_structured. rewrite bool_decide_eq_false_2; [done|].
      intros (m' & Hk & [Hold Hv]%list_elem_of_filter)%list_elem_of_fmap.
      assert (m = m') as <- by by eapply (structured_of_listed self k).
      subst cutoff. lia.
Qed.

Lemma cleanupOldMappings_keeps_the_fresh_witness :
  let self :=
    (registerPane 4000000 (lit "%3") (lit "dev") (Int 0) (Int 1)
       (registerPane 0 (lit "%1") (lit "old") (Int 0) (Int 0) create).2).2 in
  let cutoff := (4000000 - 60 * 60 * 1000)%Z in
  (∀ k m, getNative (cleanupOldMappings 4000000 self) k = Some m → (cutoff ≤ lastSeen m)%Z)
  ∧ (∀ k m, (cutoff ≤ lastSeen m)%Z →
       (getNative self k = Some m
        → getNative (cleanupOldMappings 4000000 self) k = Some m)
       ∧ (getStructured self k = Some m
          → getStructured (cleanupOldMappings 4000000 self) k = Some m)).
Proof.
  cbv zeta.
  apply (cleanupOldMappings_keeps_the_fresh 4000000
           (registerPane 4000000 (lit "%3") (lit "dev") (Int 0) (Int 1)
              (registerPane 0 (lit "%1") (lit "old") (Int 0) (Int 0) create).2).2).
  apply Spec.reachable_registerPane, Spec.reachable_registerPane, Spec.reachable_create.
Defined.

(** After [destroy] the resolver knows no pane: both resolutions
    return every id unchanged, structured-looking ids included. *)
Theorem destroyed_resolver_resolves_nothing now paneId self :
  (resolveToNative now paneId (destroy self)).1 = paneId
  ∧ (resolveToStructured now paneId (destroy self)).1 = paneId.
Proof.
  split.
  - unfold resolveToNative. destruct (startsWith (lit "%") paneId); [done|].
    change (getStructured (destroy self) paneId) with (@None PaneMapping).
    destruct (includes (lit ":") paneId && includes (lit ".") paneId); [|done].
    unfold attemptStructuredResolution.
    change (nativeValues (destroy self)) with (@nil PaneMapping).
    destruct (split 58 paneId) as [|session [|windowPane [|]]]; try done.
    destruct (split 46 windowPane) as [|w [|p [|]]]; try done.
    by destruct (isNaN (parseInt w (Some 10%Z)) || isNaN (parseInt p (Some 10%Z))).
  - unfold resolveToStructured. destruct (negb (startsWith (lit "%") paneId)); [done|].
    by change (getNative (destroy self) paneId) with (@None PaneMapping).
Qed.

Lemma split_once (sep : N) (a b : list N) :
  sep ∉ a → sep ∉ b → split sep (a ++ sep :: b) = [a; b].
Proof.
  intros Ha Hb. induction a as [|x a IH]; cbn.
  - rewrite bool_decide_eq_true_2 by done. by rewrite split_without.
  - apply not_elem_of_cons in Ha as [Hx Ha].
    rewrite bool_decide_eq_false_2 by congruence. by rewrite IH.
Qed.

Lemma includes_unit (c : N) (s : list N) : c ∈ s → includes [c] s = true.
Proof.
  induction s as [|x s IH]; [by intros ?%elem_of_nil|].
  intros [->|Hin]%elem_of_cons; cbn.
  - by rewrite bool_decide_eq_true_2.
  - rewrite IH by done. apply orb_true_r.
Qed.

Lemma find_unique {A} (f : A → bool) (l : list A) (x : A) :
  x ∈ l → f x = true → (∀ y, y ∈ l → f y = true → y = x) → find f l = Some x.
Proof.
  induction l as [|y l IH]; [by intros ?%elem_of_nil|].
  intros Hin Hx Hall. cbn. destruct (f y) eqn:Hy.
  - f_equal. apply Hall; [apply list_elem_of_here | done].
  - apply IH; [|done|].
    + apply elem_of_cons in Hin as [->|?]; [congruence | done].
    + intros z Hz. apply Hall. by apply list_elem_of_further.
Qed.

Lemma strictEq_true (a b : num) : strictEq a b = true → ∃ z, a = Int z ∧ b = Int z.
Proof.
  destruct a as [|x], b as [|y]; cbn; try done.
  intros ->%bool_decide_eq_true. by exists y.
Qed.

(** X5.  In every reachable state [resolveToNative] also accepts a loose
    spelling of a registered position.  An id [session:w.p] that is no key
    of [structuredToNative], but whose [w] and [p] parse ([parseInt], radix
    10) to the window and the pane of a mapping that [nativeToStructured]
    holds for [session], resolves to the handle of that mapping; the call
    changes nothing, the mapping's [lastSeen] included. *)
Theorem resolveToNative_reads_loose_spellings now self h m session w p :
  Spec.reachable self →
  getNative self h = Some m → h ≠ [] →
  sessionName m = session →
  startsWith (lit "%") session = false → 58%N ∉ session →
  58%N ∉ w → 46%N ∉ w → 58%N ∉ p → 46%N ∉ p →
  strictEq (windowIndex m) (parseInt w (Some 10%Z)) = true →
  strictEq (paneIndex m) (parseInt p (Some 10%Z)) = true →
  getStructured self (session ++ lit ":" ++ w ++ lit "." ++ p) = None →
  resolveToNative now (session ++ lit ":" ++ w ++ lit "." ++ p) self = (h, self).
Proof.
  intros Hr Hget Hh Hs Hpct Hs58 Hw58 Hw46 Hp58 Hp46 Hw Hp Hnone.
  pose proof (reachable_consistent _ Hr) as Hc.
  destruct (native_entry_points_back self h m Hc Hget) as (Hid & Hlive).
  change (lit ":") with [58%N] in *. change (lit ".") with [46%N] in *.
  cbn [app] in *.
  unfold resolveToNative.
  assert (Hstart : startsWith (lit "%") (session ++ 58%N :: w ++ 46%N :: p) = false).
  { destruct session as [|x session]; [done|]. exact Hpct. }
  rewrite Hstart, Hnone.
  rewrite (includes_unit 58), (includes_unit 46); cycle 1.
  { apply elem_of_app. right. apply list_elem_of_further.
    apply elem_of_app. right. apply list_elem_of_here. }
  { apply elem_of_app. right. apply list_elem_of_here. }
  cbn [andb]. unfold attemptStructuredResolution.
  rewrite split_once; [|done|]; cycle 1.
  { intros [?|[?|?]%elem_of_cons]%elem_of_app; [done|done|done]. }
  rewrite split_once by done.
  destruct (strictEq_true _ _ Hw) as (wi & Hwi & ->).
  destruct (strictEq_true _ _ Hp) as (pi & Hpi & ->).
  cbn [isNaN orb].
  rewrite (find_unique _ _ m).
  - cbn. rewrite Hid. destruct h; [done|]. done.
  - by eapply getNative_nativeValues.
  - rewrite Hs, Hwi, Hpi. cbn. by rewrite !bool_decide_eq_true_2.
  - intros m' Hm' Hf.
    apply andb_true_iff in Hf as [Hf Hf3]. apply andb_true_iff in Hf as [Hf1 Hf2].
    apply bool_decide_eq_true in Hf1.
    apply strictEq_true in Hf2 as (? & Hw' & [= <-]).
    apply strictEq_true in Hf3 as (? & Hp' & [= <-]).
    destruct (getNative_ref _ _ _ Hget) as (ref & Hk & Hm).
    destruct (elem_nativeValues self m') as [Hv _].
    destruct (Hv Hm') as (k' & ref' & _ & Hmr').
    symmetry. apply (structured_of_listed self (structuredId m') m m' Hc Hm'); [done|].
    rewrite (Spec.built_ids _ Hc _ _ Hmr'), Hf1, Hw', Hp', <- Hs, <- Hwi, <- Hpi.
    rewrite <- (Spec.built_ids _ Hc _ _ Hm). apply Hlive.
Qed.

Lemma resolveToNative_reads_loose_spellings_witness :
  let self := (registerPane 0 (lit "%1") (lit "dev") (Int 0) (Int 0) create).2 in
  resolveToNative 9 (lit "dev" ++ lit ":" ++ lit "00" ++ lit "." ++ lit "0 ") self
  = (lit "%1", self).
Proof.
  cbv zeta.
  apply (resolveToNative_reads_loose_spellings 9
           (registerPane 0 (lit "%1") (lit "dev") (Int 0) (Int 0) create).2
           (lit "%1")
           {| nativeId := lit "%1"; structuredId := lit "dev:0.0";
              sessionName := lit "dev"; windowIndex := Int 0; paneIndex := Int 0;
              lastSeen := 0 |}
           (lit "dev") (lit "00") (lit "0 ")).
  - apply Spec.reachable_registerPane, Spec.reachable_create.
  - vm_compute. reflexivity.
  - vm_compute. discriminate.
  - reflexivity.
  - reflexivity.
  - apply (bool_decide_unpack _). vm_compute. reflexivity.
  - apply (bool_decide_unpack _). vm_compute. reflexivity.
  - apply (bool_decide_unpack _). vm_compute. reflexivity.
  - apply (bool_decide_unpack _). vm_compute. reflexivity.
  - apply (bool_decide_unpack _). vm_compute. reflexivity.
  - vm_compute. reflexivity.
  - vm_compute. reflexivity.
  - vm_compute. reflexivity.
Defined.

End ResolverProperties.

(** ** What the escaper's output looks like, and what reaches [execFile] *)

Section EscapedText.
Import Replace CommandEscaper.

Lemma escapeForTmuxSendKeys_bind (command : list N) :
  escapeForTmuxSendKeys command = command ≫= Spec.escapeUnit.
Proof.
  rewrite <- escapeInOrder_bind. unfold escapeForTmuxSendKeys, backslash.
  pose proof escapeTable_plain as Hp.
  repeat (apply Forall_cons in Hp as [? Hp]).
  rewrite !replaceAll_unit by done. reflexivity.
Qed.

(** The three shapes of an escaped unit. *)
Lemma escapeUnit_cases (x : N) :
  (x ∈ [92; 34; 36; 96; 59; 124; 38]%N ∧ Spec.escapeUnit x = [92%N; x])
  ∨ (x = 39%N ∧ Spec.escapeUnit x = [39; 34; 39; 34; 39]%N)
  ∨ (x ≠ 92%N ∧ x ≠ 39%N ∧ (x ∉ Spec.metacharacters) ∧ Spec.escapeUnit x = [x]).
Proof.
  destruct (decide (x = 92%N)) as [->|H1];
    [left; split; [apply (bool_decide_unpack _); vm_compute|]; reflexivity|].
  destruct (decide (x = 34%N)) as [->|H2];
    [left; split; [apply (bool_decide_unpack _); vm_compute|]; reflexivity|].
  destruct (decide (x = 39%N)) as [->|H3]; [right; left; by split|].
  destruct (decide (x = 36%N)) as [->|H4];
    [left; split; [apply (bool_decide_unpack _); vm_compute|]; reflexivity|].
  destruct (decide (x = 96%N)) as [->|H5];
    [left; split; [apply (bool_decide_unpack _); vm_compute|]; reflexivity|].
  destruct (decide (x = 59%N)) as [->|H6];
    [left; split; [apply (bool_decide_unpack _); vm_compute|]; reflexivity|].
  destruct (decide (x = 124%N)) as [->|H7];
    [left; split; [apply (bool_decide_unpack _); vm_compute|]; reflexivity|].
  destruct (decide (x = 38%N)) as [->|H8];
    [left; split; [apply (bool_decide_unpack _); vm_compute|]; reflexivity|].
  right; right. split; [done|]. split; [done|]. split.
  - unfold Spec.metacharacters. rewrite !not_elem_of_cons. repeat split; try done.
    apply not_elem_of_nil.
  - unfold Spec.escapeUnit, Spec.escapeTable. cbn [Spec.lookupUnit].
    repeat (rewrite (bool_decide_eq_false_2 (x = _)) by done). reflexivity.
Qed.

Lemma unescape_bind (s : list N) : Spec.unescape (s ≫= Spec.escapeUnit) = s.
Proof.
  induction s as [|x t IH]; [done|]. rewrite bind_cons.
  destruct (escapeUnit_cases x) as [[_ ->]|[[-> ->]|(H92 & H39 & _ & ->)]].
  - cbn [app Spec.unescape]. rewrite bool_decide_eq_true_2 by done. by rewrite IH.
  - cbn [app Spec.unescape]. rewrite bool_decide_eq_false_2 by done.
    rewrite bool_decide_eq_true_2 by done. by rewrite IH.
  - cbn [app Spec.unescape]. rewrite !bool_decide_eq_false_2 by done. by rewrite IH.
Qed.

(** X6.  The escaped text determines the command: reading it back (a
    backslash stands for the unit after it, a broken quote for the quote)
    gives the command, so no two commands are escaped to the same text. *)
Theorem escapeForTmuxSendKeys_can_be_read_back (command : list N) :
  Spec.unescape (escapeForTmuxSendKeys command) = command
  ∧ ∀ other, escapeForTmuxSendKeys other = escapeForTmuxSendKeys command → other = command.
Proof.
  assert (H : ∀ s, Spec.unescape (escapeForTmuxSendKeys s) = s)
    by (intros s; rewrite escapeForTmuxSendKeys_bind; apply unescape_bind).
  split; [apply H|]. intros other E. rewrite <- (H other), E. apply H.
Qed.

Lemma guarded_bind (s : list N) : Spec.guarded (s ≫= Spec.escapeUnit).
Proof.
  induction s as [|x t IH]; [by intros i c ?|]. rewrite bind_cons.
  intros i c Hi Hc.
  assert (Hrest : length (Spec.escapeUnit x) ≤ i →
            ∃ j, i = S j ∧ (Spec.escapeUnit x ++ t ≫= Spec.escapeUnit) !! j = Some 92%N).
  { intros Hlen. rewrite lookup_app_r in Hi by done.
    destruct (IH _ _ Hi Hc) as (j & Hj & H92).
    exists (length (Spec.escapeUnit x) + j). split; [lia|].
    rewrite lookup_app_r by lia. rewrite <- H92. f_equal. lia. }
  destruct (escapeUnit_cases x) as [[Hx E]|[[-> E]|(_ & _ & Hx & E)]];
    rewrite E in *; cbn [length] in Hrest.
  - destruct i as [|[|i]]; [| |apply Hrest; lia].
    + cbn in Hi. injection Hi as <-. exfalso. revert Hc.
      apply (bool_decide_unpack _). vm_compute. reflexivity.
    + by exists 0.
  - destruct i as [|[|[|[|[|i]]]]]; [..|apply Hrest; lia];
      cbn in Hi; injection Hi as <-; exfalso; revert Hc;
      apply (bool_decide_unpack _); vm_compute; reflexivity.
  - destruct i as [|i]; [|apply Hrest; lia].
    cbn in Hi. injection Hi as <-. done.
Qed.

(** X7.  In the escaped text every dollar, backtick, semicolon, pipe and
    ampersand stands right behind a backslash; none of them opens the text. *)
Theorem escaped_metacharacters_follow_a_backslash (command : list N) (i : nat) (c : N) :
  escapeForTmuxSendKeys command !! i = Some c → c ∈ Spec.metacharacters →
  ∃ j, i = S j ∧ escapeForTmuxSendKeys command !! j = Some 92%N.
Proof. rewrite escapeForTmuxSendKeys_bind. apply guarded_bind. Qed.

Lemma escaped_metacharacters_follow_a_backslash_witness :
  ∃ j, 7 = S j ∧ escapeForTmuxSendKeys (lit "echo a; ls") !! j = Some 92%N.
Proof.
  apply (escaped_metacharacters_follow_a_backslash (lit "echo a; ls") 7 59%N).
  - vm_compute. reflexivity.
  - apply (bool_decide_unpack _). vm_compute. reflexivity.
Defined.

(** The units of the escaped text are those of the command, and the
    backslash and the two quotes that escaping adds. *)
Lemma escaped_units (s : list N) (c : N) :
  c ∈ s ≫= Spec.escapeUnit → c ∈ s ∨ c ∈ [92; 34; 39]%N.
Proof.
  induction s as [|x t IH]; [by intros ?%elem_of_nil|].
  rewrite bind_cons. intros [Hin|Hin]%elem_of_app.
  - destruct (escapeUnit_cases x) as [[_ E]|[[-> E]|(_ & _ & _ & E)]];
      rewrite E in Hin.
    + apply elem_of_cons in Hin as [->|Hin].
      * right. apply list_elem_of_here.
      * apply list_elem_of_singleton in Hin as ->. left. apply list_elem_of_here.
    + right. revert Hin. rewrite !elem_of_cons. intros [->|[->|[->|[->|[->|[]%elem_of_nil]]]]];
        auto.
    + apply list_elem_of_singleton in Hin as ->. left. apply list_elem_of_here.
  - destruct (IH Hin) as [?|?]; [left; by apply list_elem_of_further | by right].
Qed.

(** Units that are not escaped stay as they are. *)
Lemma escape_plain (s : list N) :
  Forall (λ x, x ≠ 92%N ∧ x ≠ 34%N ∧ x ≠ 39%N ∧ x ∉ Spec.metacharacters) s →
  s ≫= Spec.escapeUnit = s.
Proof.
  induction 1 as [|x t (H92 & H34 & H39 & Hm) _ IH]; [done|].
  rewrite bind_cons, IH.
  destruct (escapeUnit_cases x) as [[Hx E]|[[-> E]|(_ & _ & _ & E)]]; [|done|by rewrite E].
  apply elem_of_cons in Hx as [->|Hx]; [done|].
  apply elem_of_cons in Hx as [->|Hx]; [done|]. by destruct Hm.
Qed.

End EscapedText.

Section ArgumentCheck.
Import CommandEscaper.

Lemma is_Some_firstOf {A} (a b : option A) :
  is_Some a ∨ is_Some b → is_Some (firstOf a b).
Proof. destruct a; cbn; [by eexists | by intros [[]|]]. Qed.

(** A greedy [\s*] gets past any run of white space to a continuation
    that succeeds behind it. *)
Lemma starLoop_spaces ic da k spaces :
  Forall (λ c, isWhiteSpace c = true) spaces →
  ∀ fuel st r, rest st = spaces ++ r → length (rest st) < fuel →
    is_Some (k {| pos := pos st + length spaces; rest := r; caps := caps st |}) →
    is_Some (starLoop (λ st' k', rmatch ic da rspace (clearCaps (groupsOf rspace) st') k')
               true k fuel st).
Proof.
  induction 1 as [|x sp Hx _ IH]; intros fuel st r Hrest Hfuel Hk;
    (destruct fuel as [|fuel]; [exfalso; lia|]); cbn [starLoop]; apply is_Some_firstOf.
  - right. destruct st as [p rs cs]. cbn in *. subst rs.
    by rewrite Nat.add_0_r in Hk.
  - left.
    change (clearCaps (groupsOf rspace) st)
      with {| pos := pos st; rest := rest st; caps := caps st |}.
    unfold rspace at 1. cbn [rmatch rest]. rewrite Hrest. cbn [app].
    unfold setMatches. cbn [existsb itemMatches]. rewrite Hx. cbn [orb xorb].
    unfold advance. cbn [pos rest caps tail].
    rewrite bool_decide_eq_false_2 by lia.
    apply (IH fuel _ r).
    + done.
    + rewrite Hrest in Hfuel. cbn in *. lia.
    + cbn [pos caps]. cbn [length] in Hk.
      replace (S (pos st) + length sp) with (pos st + S (length sp)) by lia. exact Hk.
Qed.

Lemma canonicalize_lowerUnit (x y : N) :
  lowerUnit x = lowerUnit y → canonicalize true x = canonicalize true y.
Proof.
  unfold lowerUnit, canonicalize. cbn [andb].
  repeat case_bool_decide; lia.
Qed.

Lemma canonicalize_toLowerCase (v w : list N) :
  toLowerCase v = toLowerCase w →
  canonicalize true <$> v = canonicalize true <$> w.
Proof.
  unfold toLowerCase. revert w. induction v as [|x v IH]; intros [|y w] E; try done.
  cbn in E. injection E as Hx Hv. cbn. f_equal; [by apply canonicalize_lowerUnit | by apply IH].
Qed.

(** Under the [i] flag a literal matches every spelling of its letters. *)
Lemma rmatch_literal_any_case da (w v post : list N) st k :
  rest st = v ++ post → toLowerCase v = toLowerCase w →
  rmatch true da (rseq (RChar <$> w)) st k
  = k (after st (length w) post).
Proof.
  intros Hrest E. rewrite rmatch_literal.
  assert (Hlen : length v = length w).
  { apply (f_equal length) in E. unfold toLowerCase in E. by rewrite !length_fmap in E. }
  rewrite Hrest. rewrite <- Hlen, take_app_length, drop_app_length.
  rewrite decide_True; [by rewrite Hlen|].
  split; [rewrite length_app; lia|]. symmetry. by apply canonicalize_toLowerCase.
Qed.

Lemma rmatch_verb da st v post k :
  rest st = v ++ post → toLowerCase v ∈ Spec.chainedVerbs →
  (∀ st', is_Some (k st')) →
  is_Some (rmatch true da verb st k).
Proof.
  intros Hrest Hv Hk. unfold verb, ralt. cbn [foldl rmatch].
  unfold Spec.chainedVerbs in Hv.
  apply elem_of_cons in Hv as [Hv|Hv]; [|apply elem_of_cons in Hv as [Hv|Hv]];
    [| |apply list_elem_of_singleton in Hv].
  - apply is_Some_firstOf. left. apply is_Some_firstOf. left.
    unfold rlit. rewrite (rmatch_literal_any_case da _ v post); [apply Hk|done|by rewrite Hv].
  - apply is_Some_firstOf. left. apply is_Some_firstOf. right.
    unfold rlit. rewrite (rmatch_literal_any_case da _ v post); [apply Hk|done|by rewrite Hv].
  - apply is_Some_firstOf. right.
    unfold rlit. rewrite (rmatch_literal_any_case da _ v post); [apply Hk|done|by rewrite Hv].
Qed.

(** A separator, any white space and one of the verbs, in any letter
    case, anywhere in the text: the pattern of that separator matches. *)
Lemma chained_detects (sep pre spaces v post : list N) :
  Forall (λ c, isWhiteSpace c = true) spaces →
  toLowerCase v ∈ Spec.chainedVerbs →
  test (chained (rseq (RChar <$> sep))) (pre ++ sep ++ spaces ++ v ++ post) = true.
Proof.
  intros Hsp Hv. unfold test, exec.
  destruct (search_finds (chained (rseq (RChar <$> sep))) 0
              (pre ++ sep ++ spaces ++ v ++ post) (length pre)) as [[j st] ->]; [| |done].
  { rewrite length_app. lia. }
  rewrite drop_app_length.
  cbn [chained body ignoreCase dotAll groupCount rseq foldr rmatch].
  fold (rseq (RChar <$> sep)).
  rewrite (rmatch_literal_any_case false sep sep (spaces ++ v ++ post)); [|done|done].
  apply (starLoop_spaces true false _ spaces Hsp _ _ (v ++ post)).
  - done.
  - cbn. lia.
  - apply (rmatch_verb false _ v post); [done|done|]. intros st'. by eexists.
Qed.

Lemma suspicious_chained (allArgs sep pre spaces v post : list N) :
  allArgs = pre ++ sep ++ spaces ++ v ++ post →
  sep ∈ [lit ";"; lit "|"; lit "&&"] →
  Forall (λ c, isWhiteSpace c = true) spaces →
  toLowerCase v ∈ Spec.chainedVerbs →
  existsb (λ pattern, test pattern allArgs) suspiciousPatterns = true.
Proof.
  intros -> Hsep Hsp Hv. unfold suspiciousPatterns. cbn [existsb].
  apply elem_of_cons in Hsep as [->|Hsep]; [|apply elem_of_cons in Hsep as [->|Hsep]];
    [| |apply list_elem_of_singleton in Hsep as ->].
  - unfold rlit at 1. by rewrite chained_detects.
  - unfold rlit at 2. rewrite (chained_detects (lit "|")) by done. apply orb_true_r.
  - unfold rlit at 3. rewrite (chained_detects (lit "&&")) by done.
    rewrite orb_true_r. apply orb_true_r.
Qed.

(** X8.  When the joined arguments hold a semicolon, a pipe or [&&],
    then any white space, then [rm], [del] or [format] in any letter case,
    [validateCommand] throws, whatever the command is and whether or not
    [allowDangerous] is set. *)
Theorem validateCommand_refuses_chained_verbs
    (options : Options) (command : list N) (args : list (list N))
    (sep pre spaces v post : list N) :
  join (lit " ") args = pre ++ sep ++ spaces ++ v ++ post →
  sep ∈ [lit ";"; lit "|"; lit "&&"] →
  Forall (λ c, isWhiteSpace c = true) spaces →
  toLowerCase v ∈ Spec.chainedVerbs →
  ∃ message, validateCommand options command args = Threw message.
Proof.
  intros Hargs Hsep Hsp Hv. unfold validateCommand.
  destruct (has dangerousCommands (baseCommandOf command) && negb (allowDangerous options));
    [by eexists|].
  rewrite (suspicious_chained _ sep pre spaces v post) by done. by eexists.
Qed.

Lemma validateCommand_refuses_chained_verbs_witness :
  ∃ message,
    validateCommand {| allowDangerous := true; logCommands := true; defaultTimeout := 30000 |}
      (lit "echo") [lit "done"; lit "&&"; lit "RM"; lit "-rf"; lit "x"]
    = Threw message.
Proof.
  apply (validateCommand_refuses_chained_verbs
           {| allowDangerous := true; logCommands := true; defaultTimeout := 30000 |}
           (lit "echo") [lit "done"; lit "&&"; lit "RM"; lit "-rf"; lit "x"]
           (lit "&&") (lit "done ") (lit " ") (lit "RM") (lit " -rf x")).
  - reflexivity.
  - apply (bool_decide_unpack _). vm_compute. reflexivity.
  - repeat constructor.
  - apply (bool_decide_unpack _). vm_compute. reflexivity.
Defined.

End ArgumentCheck.

Section Launching.
Import CommandEscaper.

(** A symbol is matched by itself only, with or without the [i] flag. *)
Lemma unitEq_symbol (ic : bool) (c x : N) :
  ¬ (65 ≤ c ≤ 90)%N → ¬ (97 ≤ c ≤ 122)%N → x ≠ c → unitEq ic c x = false.
Proof.
  intros Hu Hl Hx. unfold unitEq, canonicalize. apply bool_decide_eq_false_2.
  destruct ic; cbn [andb]; repeat case_bool_decide; lia.
Qed.

(** A pattern that must begin with the symbol [c] matches nowhere in a
    text without [c]. *)
Lemma search_needs_unit (re : RegExp) (c : N) :
  (∀ st k, is_Some (rmatch (ignoreCase re) (dotAll re) (body re) st k) →
           ∃ x t, rest st = x :: t ∧ unitEq (ignoreCase re) c x = true) →
  ¬ (65 ≤ c ≤ 90)%N → ¬ (97 ≤ c ≤ 122)%N →
  ∀ s i, c ∉ s → search re i s = None.
Proof.
  intros Hfirst Hu Hl. induction s as [|x s IH]; intros i Hc; cbn [search].
  - destruct (rmatch _ _ _ _ _) as [st|] eqn:E; [|done].
    destruct (Hfirst _ _ (mk_is_Some _ _ E)) as (? & ? & ? & _). done.
  - apply not_elem_of_cons in Hc as [Hx Hc].
    destruct (rmatch _ _ _ _ _) as [st|] eqn:E; [|by apply IH].
    destruct (Hfirst _ _ (mk_is_Some _ _ E)) as (y & t & [= <- <-] & Hy).
    rewrite unitEq_symbol in Hy by done. done.
Qed.

Ltac first_unit :=
  intros st k; cbn [body ignoreCase dotAll chained wrapped rseq foldr rmatch];
  repeat match goal with
         | |- context [rlit ?s] =>
             let r := eval vm_compute in (rlit s) in change (rlit s) with r
         end;
  cbn [rmatch];
  let E := fresh in
  destruct (rest st) as [|x t]; [by intros []|];
  destruct (unitEq _ _ x) eqn:E; [intros _; by exists x, t | by intros []].

(** Without a semicolon, a pipe, an ampersand, a dollar and a backtick no
    suspicious pattern matches. *)
Lemma unsuspicious (allArgs : list N) :
  Forall (λ c, c ∉ Spec.metacharacters) allArgs →
  existsb (λ pattern, test pattern allArgs) suspiciousPatterns = false.
Proof.
  intros Hall.
  assert (Hno : ∀ c, c ∈ Spec.metacharacters → c ∉ allArgs).
  { intros c Hc Hin. rewrite Forall_forall in Hall. by apply (Hall c). }
  assert (Htest : ∀ re c,
            (∀ st k, is_Some (rmatch (ignoreCase re) (dotAll re) (body re) st k) →
                     ∃ x t, rest st = x :: t ∧ unitEq (ignoreCase re) c x = true) →
            c ∈ Spec.metacharacters → test re allArgs = false).
  { intros re c Hfirst Hc. unfold test, exec.
    rewrite (search_needs_unit re c Hfirst); [done|..|by apply Hno];
      revert Hc; unfold Spec.metacharacters; rewrite !elem_of_cons;
      intros [->|[->|[->|[->|[->|[]%elem_of_nil]]]]]; lia. }
  unfold suspiciousPatterns. cbn [existsb].
  rewrite (Htest (chained (rlit ";")) 59%N), (Htest (chained (rlit "|")) 124%N),
    (Htest (chained (rlit "&&")) 38%N), (Htest (wrapped (rlit "$(") 41) 36%N),
    (Htest (wrapped (RChar 96) 96) 96%N);
    first [ done
          | apply (bool_decide_unpack _); vm_compute; reflexivity
          | first_unit ].
Qed.

(** The arguments of [send-keys], joined as [validateCommand] joins them. *)
Lemma join_send_keys (paneId escaped : list N) :
  join (lit " ") [lit "-t"; paneId; escaped; lit "Enter"]
  = lit "-t " ++ paneId ++ lit " " ++ escaped ++ lit " Enter".
Proof. reflexivity. Qed.

Lemma validate_tmux (options : Options) (args : list (list N)) :
  validateCommand options (lit "tmux") args
  = if existsb (λ pattern, test pattern (join (lit " ") args)) suspiciousPatterns
    then Threw (lit "Suspicious command pattern detected in arguments: "
                ++ join (lit " ") args)
    else Returned [].
Proof.
  unfold validateCommand.
  change (baseCommandOf (lit "tmux")) with (lit "tmux").
  change (has dangerousCommands (lit "tmux")) with false.
  change (has safeDevelopmentCommands (lit "tmux")) with false.
  cbn [andb negb]. by rewrite bool_decide_eq_true_2.
Qed.

Lemma sendKeysToPane_plain
    (options : Options) (paneId command : list N) (o : CommandOptions) :
  Forall (λ c, c ∉ Spec.metacharacters) (paneId ++ command) →
  sendKeysToPane options paneId command o
  = executeCommand options (lit "tmux")
      [lit "send-keys"; lit "-t"; paneId; escapeForTmuxSendKeys command; lit "Enter"]
      {| cwd := cwd o; timeout := timeout o; validate := Some false |}.
Proof.
  intros [Hp Hc]%Forall_app.
  unfold sendKeysToPane, executeTmuxCommand, executeCommand.
  cbn [validate cwd timeout default].
  destruct (default true (validate o)); [|done].
  rewrite validate_tmux, unsuspicious; [done|].
  change (join (lit " ")
            [lit "send-keys"; lit "-t"; paneId; escapeForTmuxSendKeys command; lit "Enter"])
    with (lit "send-keys" ++ lit " "
          ++ join (lit " ") [lit "-t"; paneId; escapeForTmuxSendKeys command; lit "Enter"]).
  rewrite join_send_keys, escapeForTmuxSendKeys_bind.
  assert (Hfixed : ∀ s : string,
            bool_decide (Forall (λ c, c ∉ Spec.metacharacters) (lit s)) = true →
            Forall (λ c, c ∉ Spec.metacharacters) (lit s))
    by (intros s; apply bool_decide_eq_true_1).
  repeat apply Forall_app_2; try (apply Hfixed; vm_compute; reflexivity); [done|].
  apply Forall_forall. intros c [Hin|Hin]%escaped_units Hm.
  - rewrite Forall_forall in Hc. by apply (Hc c).
  - revert Hm Hin. unfold Spec.metacharacters. rewrite !elem_of_cons.
    intros [->|[->|[->|[->|[->|[]%elem_of_nil]]]]];
      intros [?|[?|[?|[]%elem_of_nil]]]; done.
Qed.

(** X9.  The denylist does not reach what is typed into a pane.  For a
    pane id and a command without dollar, backtick, semicolon, pipe and
    ampersand, [sendKeysToPane] launches [tmux send-keys] exactly as it
    would with validation switched off, whatever the command is: the
    command is one argument of [tmux], and the command that is validated
    is [tmux]. *)
Theorem sendKeysToPane_does_not_consult_the_denylist
    (options : Options) (paneId command : list N) (o : CommandOptions) :
  Forall (λ c, c ∉ Spec.metacharacters) (paneId ++ command) →
  sendKeysToPane options paneId command o
  = executeCommand options (lit "tmux")
      [lit "send-keys"; lit "-t"; paneId; escapeForTmuxSendKeys command; lit "Enter"]
      {| cwd := cwd o; timeout := timeout o; validate := Some false |}.
Proof. apply sendKeysToPane_plain. Qed.

Lemma sendKeysToPane_does_not_consult_the_denylist_witness :
  sendKeysToPane defaultOptions (lit "%1") (lit "rm -rf /") noCommandOptions
  = executeCommand defaultOptions (lit "tmux")
      [lit "send-keys"; lit "-t"; lit "%1"; escapeForTmuxSendKeys (lit "rm -rf /");
       lit "Enter"]
      {| cwd := None; timeout := None; validate := Some false |}.
Proof.
  apply (sendKeysToPane_does_not_consult_the_denylist defaultOptions (lit "%1")
           (lit "rm -rf /") noCommandOptions).
  apply (bool_decide_unpack _). vm_compute. reflexivity.
Defined.

(** White space and letters are not escaped. *)
Lemma escape_spaces (spaces : list N) :
  Forall (λ c, isWhiteSpace c = true) spaces → spaces ≫= Spec.escapeUnit = spaces.
Proof.
  intros H. apply escape_plain. eapply Forall_impl; [exact H|].
  intros c Hc. cbn beta in Hc |- *.
  assert (Hno : ∀ x, x ∈ [92; 34; 39; 36; 96; 59; 124; 38]%N → isWhiteSpace x = false).
  { intros x. rewrite !elem_of_cons.
    intros [->|[->|[->|[->|[->|[->|[->|[->|[]%elem_of_nil]]]]]]]]; reflexivity. }
  assert (Hc' : c ∉ [92; 34; 39; 36; 96; 59; 124; 38]%N).
  { intros Hin. rewrite (Hno c Hin) in Hc. done. }
  revert Hc'. unfold Spec.metacharacters. rewrite !not_elem_of_cons.
  intros (H1 & H2 & H3 & H4 & H5 & H6 & H7 & H8 & Hnil). done.
Qed.

Lemma escape_verb (v : list N) :
  toLowerCase v ∈ Spec.chainedVerbs → v ≫= Spec.escapeUnit = v.
Proof.
  intros Hv. apply escape_plain.
  assert (Hletters : Forall (λ y, 97 ≤ y ≤ 122)%N (toLowerCase v)).
  { revert Hv. unfold Spec.chainedVerbs. rewrite !elem_of_cons.
    intros [->|[->|[->|[]%elem_of_nil]]];
      apply (bool_decide_unpack _); vm_compute; reflexivity. }
  unfold toLowerCase in Hletters. rewrite Forall_fmap in Hletters.
  eapply Forall_impl; [exact Hletters|]. intros x. cbn. unfold lowerUnit.
  intros Hx.
  assert (Hx' : (65 ≤ x ≤ 90 ∨ 97 ≤ x ≤ 122)%N) by (case_bool_decide; lia).
  unfold Spec.metacharacters. rewrite !not_elem_of_cons.
  repeat split; try lia. apply not_elem_of_nil.
Qed.

(** X10.  Escaping does not take a command past the argument check.  A
    command that holds a semicolon or a pipe, then any white space, then
    [rm], [del] or [format] in any letter case (so also [ls | delta]), is
    refused by [sendKeysToPane] before anything is launched, unless the
    caller switched validation off. *)
Theorem sendKeysToPane_refuses_chained_verbs
    (options : Options) (paneId command : list N) (o : CommandOptions)
    (sep pre spaces v post : list N) :
  default true (validate o) = true →
  command = pre ++ sep ++ spaces ++ v ++ post →
  sep ∈ [lit ";"; lit "|"] →
  Forall (λ c, isWhiteSpace c = true) spaces →
  toLowerCase v ∈ Spec.chainedVerbs →
  ∃ message, sendKeysToPane options paneId command o = Refused message.
Proof.
  intros Hval -> Hsep Hsp Hv.
  unfold sendKeysToPane, executeTmuxCommand, executeCommand.
  cbn [validate default]. rewrite Hval, validate_tmux.
  rewrite (suspicious_chained _ sep
             (lit "send-keys -t " ++ paneId ++ lit " " ++ (pre ≫= Spec.escapeUnit) ++ [92%N])
             spaces v ((post ≫= Spec.escapeUnit) ++ lit " Enter")); [by eexists| |..|done|done].
  - change (join (lit " ")
              [lit "send-keys"; lit "-t"; paneId;
               escapeForTmuxSendKeys (pre ++ sep ++ spaces ++ v ++ post); lit "Enter"])
      with (lit "send-keys" ++ lit " "
            ++ join (lit " ")
                 [lit "-t"; paneId;
                  escapeForTmuxSendKeys (pre ++ sep ++ spaces ++ v ++ post); lit "Enter"]).
    rewrite join_send_keys, escapeForTmuxSendKeys_bind.
    rewrite !bind_app, (escape_spaces spaces), (escape_verb v) by done.
    assert (Hs : sep ≫= Spec.escapeUnit = [92%N] ++ sep).
    { revert Hsep. rewrite !elem_of_cons. intros [->|[->|[]%elem_of_nil]]; reflexivity. }
    rewrite Hs. rewrite <- !app_assoc. reflexivity.
  - revert Hsep. rewrite !elem_of_cons. intros [->|[->|[]%elem_of_nil]]; auto.
Qed.

Lemma sendKeysToPane_refuses_chained_verbs_witness :
  ∃ message,
    sendKeysToPane defaultOptions (lit "%1") (lit "ls | delta") noCommandOptions
    = Refused message.
Proof.
  apply (sendKeysToPane_refuses_chained_verbs defaultOptions (lit "%1") (lit "ls | delta")
           noCommandOptions (lit "|") (lit "ls ") (lit " ") (lit "del") (lit "ta")).
  - reflexivity.
  - reflexivity.
  - apply (bool_decide_unpack _). vm_compute. reflexivity.
  - repeat constructor.
  - apply (bool_decide_unpack _). vm_compute. reflexivity.
Defined.

(** X11.  A command addressed to a pane by its structured id is typed into
    the pane's native handle: for a live pair and a command without shell
    metacharacters, [TmuxManager.executeCommand] launches [tmux send-keys]
    with the native handle as the target and the escaped command as one
    argument. *)
Theorem executeCommand_targets_the_native_handle
    (now : Z) (options : Options) (sid native command : list N)
    (resolver : PaneIdResolver.t) :
  Spec.live resolver native sid →
  startsWith (lit "%") sid = false →
  Forall (λ c, c ∉ Spec.metacharacters) (native ++ command) →
  ∃ logs launch,
    (TmuxManager.executeCommand now options sid command resolver).1.1
    = Launched logs launch
    ∧ l_file launch = lit "tmux"
    ∧ l_args launch
      = [lit "send-keys"; lit "-t"; native; escapeForTmuxSendKeys command; lit "Enter"].
Proof.
  intros [_ (m & Hm & Hnative)] Hsid Hplain.
  unfold TmuxManager.executeCommand, PaneIdResolver.resolveToNative.
  rewrite Hsid, Hm, Hnative. cbn [fst].
  rewrite sendKeysToPane_plain by done.
  unfold executeCommand. cbn [validate default]. by eexists _, _.
Qed.

Lemma executeCommand_targets_the_native_handle_witness :
  ∃ logs launch,
    (TmuxManager.executeCommand 9 defaultOptions (lit "dev:0.0") (lit "npm run dev")
       (PaneIdResolver.registerPane 0 (lit "%1") (lit "dev") (Int 0) (Int 0)
          PaneIdResolver.create).2).1.1
    = Launched logs launch
    ∧ l_file launch = lit "tmux"
    ∧ l_args launch
      = [lit "send-keys"; lit "-t"; lit "%1"; escapeForTmuxSendKeys (lit "npm run dev");
         lit "Enter"].
Proof.
  apply (executeCommand_targets_the_native_handle 9 defaultOptions (lit "dev:0.0")
           (lit "%1") (lit "npm run dev")).
  - split; eexists; (split; [vm_compute; reflexivity | reflexivity]).
  - reflexivity.
  - apply (bool_decide_unpack _). vm_compute. reflexivity.
Defined.

End Launching.

(** ** Tailing ([FileWatcher]) *)

Section Tailing.
Import FileWatcher.

Lemma readAt_to_end (content : list byte) (position : N) :
  (position ≤ size content)%N →
  readAt content position (size content - position) = drop (N.to_nat position) content.
Proof.
  intros Hle. unfold readAt, size in *. apply take_ge. rewrite length_drop. lia.
Qed.

Lemma reads_app filePath e1 e2 :
  reads filePath (e1 ++ e2) = reads filePath e1 ++ reads filePath e2.
Proof. apply omap_app. Qed.

Lemma deliveries_app filePath e1 e2 :
  deliveries filePath (e1 ++ e2) = deliveries filePath e1 ++ deliveries filePath e2.
Proof. apply omap_app. Qed.

Lemma currentPosition_setPosition filePath position self :
  currentPosition (setPosition filePath position self) filePath = position.
Proof. unfold currentPosition, setPosition. cbn. by rewrite lookup_insert_eq. Qed.

Lemma handleFileChange_growth fs filePath callback content self :
  callbacks self !! filePath = Some callback →
  fs filePath = Some content →
  (currentPosition self filePath < size content)%N →
  handleFileChange fs filePath self = afterGrowth filePath callback content self.
Proof.
  intros Hcb Hfs Hlt. unfold handleFileChange, afterGrowth. rewrite Hcb, Hfs.
  rewrite bool_decide_eq_false_2 by lia.
  rewrite bool_decide_eq_false_2 by lia.
  rewrite readAt_to_end by lia. reflexivity.
Qed.



Lemma afterGrowth_reads filePath callback content self :
  reads filePath (trace (afterGrowth filePath callback content self))
  = reads filePath (trace self)
    ++ [(currentPosition self filePath,
         drop (N.to_nat (currentPosition self filePath)) content)].
Proof.
  unfold afterGrowth.
  destruct (truthy _); [destruct (callback _)|]; cbn [trace emit setPosition];
    rewrite ?reads_app; cbn; rewrite ?app_nil_r; by rewrite decide_True.
Qed.

Lemma afterGrowth_deliveries filePath callback content self :
  let text := Utf8.decode (drop (N.to_nat (currentPosition self filePath)) content) in
  deliveries filePath (trace (afterGrowth filePath callback content self))
  = deliveries filePath (trace self) ++ (if truthy (trim text) then [text] else []).
Proof.
  unfold afterGrowth.
  destruct (truthy _); [destruct (callback _)|]; cbn [trace emit setPosition];
    rewrite ?deliveries_app; cbn; rewrite ?app_nil_r; try done; by rewrite decide_True.
Qed.

Lemma afterGrowth_position filePath callback content self :
  let text := Utf8.decode (drop (N.to_nat (currentPosition self filePath)) content) in
  truthy (trim text) = false ∨ callback text = true →
  currentPosition (afterGrowth filePath callback content self) filePath = size content.
Proof.
  unfold afterGrowth. cbn zeta.
  destruct (truthy _); [destruct (callback _)|]; intros H;
    rewrite ?currentPosition_setPosition; try done. by destruct H.
Qed.


(** C4 (as the code has it).  A change notification that finds the watched
    file longer than the recorded offset reads exactly the bytes from the
    offset to the end of the file; it hands their decoded text to the
    callback unless that text is empty after trimming white space; and it
    advances the offset to the size when the text was skipped or the
    callback returned. *)
Theorem C4_growth_is_read_once
    (fs : Fs) (filePath : list N) (callback : Callback) (content : list byte) (self : t) :
  callbacks self !! filePath = Some callback →
  fs filePath = Some content →
  (currentPosition self filePath < size content)%N →
  let offset := currentPosition self filePath in
  let bytes := drop (N.to_nat offset) content in
  let text := Utf8.decode bytes in
  let self' := handleFileChange fs filePath self in
  reads filePath (trace self') = reads filePath (trace self) ++ [(offset, bytes)]
  ∧ size bytes = (size content - offset)%N
  ∧ deliveries filePath (trace self')
    = deliveries filePath (trace self) ++ (if truthy (trim text) then [text] else [])
  ∧ (truthy (trim text) = false ∨ callback text = true →
     currentPosition self' filePath = size content).
Proof.
  intros Hcb Hfs Hlt offset bytes text self'. subst self'.
  rewrite (handleFileChange_growth fs filePath callback content) by done.
  split; [apply afterGrowth_reads|].
  split; [subst bytes; unfold size in *; rewrite length_drop; lia|].
  split; [apply afterGrowth_deliveries | apply afterGrowth_position].
Qed.


Lemma C4_growth_is_read_once_witness :
  let w0 := (watchFile (Spec.one_file Spec.log_path []) Spec.log_path (λ _, true)
               (create defaultOptions)).2 in
  let content := Spec.bytesOf "ERROR: boom" in
  let w1 := handleFileChange (Spec.one_file Spec.log_path content) Spec.log_path w0 in
  reads Spec.log_path (trace w1) = [(0%N, content)]
  ∧ size content = 11%N
  ∧ deliveries Spec.log_path (trace w1) = [lit "ERROR: boom"]
  ∧ currentPosition w1 Spec.log_path = 11%N.
Proof.
  destruct (C4_growth_is_read_once
              (Spec.one_file Spec.log_path (Spec.bytesOf "ERROR: boom"))
              Spec.log_path (λ _, true) (Spec.bytesOf "ERROR: boom")
              (watchFile (Spec.one_file Spec.log_path []) Spec.log_path (λ _, true)
                 (create defaultOptions)).2)
    as (Hreads & Hsize & Hdeliv & Hpos).
  - reflexivity.
  - reflexivity.
  - reflexivity.
  - split; [exact Hreads|]. split; [exact Hsize|]. split; [exact Hdeliv|].
    apply Hpos. right. reflexivity.
Defined.

(** C4, as stated, fails on content: a grown range that decodes to
    white space only is read and skipped over without the callback being
    invoked; and when the callback throws, the offset stays where it was. *)
Lemma C4_blank_growth_is_not_delivered :
  let blank := [x0a; x20; x0a] in
  let w0 := (watchFile (Spec.one_file Spec.log_path []) Spec.log_path (λ _, true)
               (create defaultOptions)).2 in
  let w1 := handleFileChange (Spec.one_file Spec.log_path blank) Spec.log_path w0 in
  let t0 := (watchFile (Spec.one_file Spec.log_path []) Spec.log_path (λ _, false)
               (create defaultOptions)).2 in
  let t1 := handleFileChange (Spec.one_file Spec.log_path (Spec.bytesOf "boom"))
              Spec.log_path t0 in
  (currentPosition w0 Spec.log_path < size blank)%N
  ∧ reads Spec.log_path (trace w1) = [(0%N, blank)]
  ∧ deliveries Spec.log_path (trace w1) = []
  ∧ currentPosition w1 Spec.log_path = 3%N
  ∧ deliveries Spec.log_path (trace t1) = [lit "boom"]
  ∧ currentPosition t1 Spec.log_path = 0%N.
Proof. repeat split; vm_compute; reflexivity. Qed.


Lemma default_last_cons {A} (d c : A) (more : list A) :
  default d (last (c :: more)) = default c (last more).
Proof.
  revert d c. induction more as [|x l IH]; intros d c; [done|].
  change (last (c :: x :: l)) with (last (x :: l)). by rewrite !IH.
Qed.







End Tailing.

(** ** The file watcher beyond one growing file *)

Section Watching.
Import FileWatcher.

Lemma reads_other p q position length bytes :
  q ≠ p → reads q [ReadRange p position length bytes] = [].
Proof. intros H. cbn. by rewrite decide_False by congruence. Qed.

Lemma deliveries_other p q content :
  q ≠ p → deliveries q [Delivered p content] = [].
Proof. intros H. cbn. by rewrite decide_False by congruence. Qed.

(** Offsets are per file.  A change notification for one file keeps
    the set of watched files and their callbacks, and leaves the offset,
    the reads and the deliveries of every other file as they were. *)
Theorem handleFileChange_touches_one_file (fs : Fs) (p : list N) (self : t) :
  let self' := handleFileChange fs p self in
  watchers self' = watchers self
  ∧ callbacks self' = callbacks self
  ∧ ∀ q, q ≠ p →
      filePositions self' !! q = filePositions self !! q
      ∧ reads q (trace self') = reads q (trace self)
      ∧ deliveries q (trace self') = deliveries q (trace self).
Proof.
  cbn zeta. unfold handleFileChange.
  destruct (callbacks self !! p) as [callback|]; [|done].
  destruct (fs p) as [content|].
  2:{ split; [done|]. split; [done|]. intros q Hq. cbn [emit filePositions trace].
      rewrite reads_app, deliveries_app. cbn. by rewrite !app_nil_r. }
  case_bool_decide.
  { split; [done|]. split; [done|]. intros q Hq. cbn [setPosition filePositions trace].
    by rewrite lookup_insert_ne. }
  case_bool_decide; [done|].
  destruct (truthy _); [destruct (callback _)|];
    (split; [done|]); (split; [done|]); intros q Hq;
    cbn [setPosition emit filePositions trace];
    rewrite ?lookup_insert_ne by done;
    rewrite ?reads_app, ?deliveries_app, ?reads_other, ?deliveries_other by done;
    cbn; by rewrite ?app_nil_r.
Qed.

Lemma handleFileChange_unwatched fs p self :
  callbacks self !! p = None → handleFileChange fs p self = self.
Proof. intros H. unfold handleFileChange. by rewrite H. Qed.

(** X12.  After [stopWatching] the file is no longer read: its offset and
    its callback are forgotten, and change notifications that still arrive
    for it leave the watcher exactly as it is. *)
Theorem stopped_file_is_not_read (p : list N) (snapshots : list Fs) (self : t) :
  JsMap.has p (watchers self) = true →
  let stopped := stopWatching p self in
  (p ∉ getWatchedFiles stopped)
  ∧ filePositions stopped !! p = None
  ∧ notifications p snapshots stopped = stopped.
Proof.
  intros Hw stopped.
  assert (Hcb : callbacks stopped !! p = None).
  { subst stopped. unfold stopWatching. rewrite Hw. cbn. apply lookup_delete_eq. }
  split; [|split].
  - subst stopped. unfold stopWatching, getWatchedFiles. rewrite Hw. cbn [watchers].
    rewrite keys_delete. intros [? _]%list_elem_of_filter. done.
  - subst stopped. unfold stopWatching. rewrite Hw. cbn. apply lookup_delete_eq.
  - unfold notifications. induction snapshots as [|fs more IH]; [done|].
    cbn [foldl]. by rewrite handleFileChange_unwatched.
Qed.

Lemma stopped_file_is_not_read_witness :
  let self := (watchFile (Spec.one_file Spec.log_path (Spec.bytesOf "a")) Spec.log_path
                 (λ _, true) (create defaultOptions)).2 in
  let stopped := stopWatching Spec.log_path self in
  (Spec.log_path ∉ getWatchedFiles stopped)
  ∧ filePositions stopped !! Spec.log_path = None
  ∧ notifications Spec.log_path
      [Spec.one_file Spec.log_path (Spec.bytesOf "ab")] stopped = stopped.
Proof.
  cbv zeta.
  apply (stopped_file_is_not_read Spec.log_path
           [Spec.one_file Spec.log_path (Spec.bytesOf "ab")]
           (watchFile (Spec.one_file Spec.log_path (Spec.bytesOf "a")) Spec.log_path
              (λ _, true) (create defaultOptions)).2).
  vm_compute. reflexivity.
Defined.

(** X13.  Where [watchFile] starts.  A file larger than [maxFileSize] is
    watched from its end, any other file from offset 0, whatever offset
    was recorded before; the first notification that finds the file longer
    than that start reads from the start to the end of the file.  So what a
    small file already held is read with its first change, and what a
    large file already held is not. *)
Theorem watchFile_start (fs fs' : Fs) (p : list N) (callback : Callback)
    (content content' : list byte) (self : t) :
  fs p = Some content →
  fs' p = Some content' →
  let start :=
    if bool_decide (maxFileSize (options self) < size content)%N
    then size content else 0%N in
  (start < size content')%N →
  let watching := (watchFile fs p callback self).2 in
  currentPosition watching p = start
  ∧ reads p (trace (handleFileChange fs' p watching))
    = reads p (trace self) ++ [(start, drop (N.to_nat start) content')].
Proof.
  intros Hfs Hfs' start Hlt watching.
  assert (Hpos : currentPosition watching p = start).
  { subst watching. unfold watchFile. rewrite Hfs. cbn [snd].
    unfold currentPosition. cbn [filePositions]. by rewrite lookup_insert_eq. }
  assert (Hcb : callbacks watching !! p = Some callback).
  { subst watching. unfold watchFile. rewrite Hfs. cbn [snd callbacks].
    apply lookup_insert_eq. }
  split; [done|].
  rewrite (handleFileChange_growth fs' p callback content') by (done || lia).
  rewrite afterGrowth_reads, Hpos. f_equal.
  subst watching. unfold watchFile. rewrite Hfs. cbn [snd trace].
  rewrite !reads_app. case_bool_decide; cbn; by rewrite !app_nil_r.
Qed.

Lemma watchFile_start_witness :
  let options := {| debounceMs := 100; maxFileSize := 4; excludePatterns := [] |} in
  let fs := Spec.one_file Spec.log_path (Spec.bytesOf "old lines") in
  let fs' := Spec.one_file Spec.log_path (Spec.bytesOf "old lines, new") in
  let watching := (watchFile fs Spec.log_path (λ _, true) (create options)).2 in
  currentPosition watching Spec.log_path = 9%N
  ∧ reads Spec.log_path (trace (handleFileChange fs' Spec.log_path watching))
    = reads Spec.log_path (trace (create options))
      ++ [(9%N, drop (N.to_nat 9) (Spec.bytesOf "old lines, new"))].
Proof.
  cbv zeta.
  apply (watchFile_start (Spec.one_file Spec.log_path (Spec.bytesOf "old lines"))
           (Spec.one_file Spec.log_path (Spec.bytesOf "old lines, new"))
           Spec.log_path (λ _, true)
           (Spec.bytesOf "old lines") (Spec.bytesOf "old lines, new")
           (create {| debounceMs := 100; maxFileSize := 4; excludePatterns := [] |})).
  - reflexivity.
  - reflexivity.
  - vm_compute. reflexivity.
Defined.

Lemma stopWatching_watched p x self :
  x ∈ JsMap.keys (watchers (stopWatching p self)) →
  x ≠ p ∧ x ∈ JsMap.keys (watchers self).
Proof.
  unfold stopWatching, JsMap.has.
  destruct (JsMap.get p (watchers self)) eqn:E; cbn [watchers].
  - rewrite keys_delete. by intros [? ?]%list_elem_of_filter.
  - apply get_None_keys in E. intros Hx. split; [|done]. by intros ->.
Qed.

Lemma stopWatching_callbacks_None p q self :
  callbacks self !! q = None → callbacks (stopWatching p self) !! q = None.
Proof.
  intros H. unfold stopWatching. destruct (JsMap.has p (watchers self)); [|done].
  cbn [callbacks]. rewrite lookup_delete_None. by right.
Qed.

Lemma stopWatching_callbacks_self p self :
  p ∈ JsMap.keys (watchers self) → callbacks (stopWatching p self) !! p = None.
Proof.
  intros Hp. unfold stopWatching, JsMap.has.
  destruct (JsMap.get p (watchers self)) eqn:E.
  - cbn [callbacks]. apply lookup_delete_eq.
  - by apply get_None_keys in E.
Qed.

Lemma stopWatching_keeps_watch p q self :
  q ≠ p → q ∈ JsMap.keys (watchers self) →
  q ∈ JsMap.keys (watchers (stopWatching p self)).
Proof.
  intros Hq Hin. unfold stopWatching. destruct (JsMap.has p (watchers self)); [|done].
  cbn [watchers]. rewrite keys_delete. by apply list_elem_of_filter.
Qed.

Lemma stop_each_watches_nothing (l : list (list N)) (self : t) :
  (∀ x, x ∈ JsMap.keys (watchers self) → x ∈ l) →
  JsMap.keys (watchers (foldl (λ acc filePath, stopWatching filePath acc) self l)) = [].
Proof.
  revert self. induction l as [|p l IH]; intros self Hsub.
  - cbn. destruct (JsMap.keys (watchers self)) as [|x r] eqn:E; [done|].
    exfalso. by apply (not_elem_of_nil x), Hsub, list_elem_of_here.
  - cbn [foldl]. apply IH. intros x [Hx Hin]%stopWatching_watched.
    apply Hsub in Hin. apply elem_of_cons in Hin as [?|?]; done.
Qed.

Lemma stop_each_forgets (l : list (list N)) (p : list N) (self : t) :
  (p ∈ l ∧ p ∈ JsMap.keys (watchers self)) ∨ callbacks self !! p = None →
  callbacks (foldl (λ acc filePath, stopWatching filePath acc) self l) !! p = None.
Proof.
  revert self. induction l as [|x l IH]; intros self H.
  - destruct H as [[?%elem_of_nil _]|H]; done.
  - cbn [foldl]. apply IH. destruct H as [[Hin Hw]|H].
    + destruct (decide (p = x)) as [->|Hne].
      * right. by apply stopWatching_callbacks_self.
      * left. split.
        -- apply elem_of_cons in Hin as [?|?]; done.
        -- by apply stopWatching_keeps_watch.
    + right. by apply stopWatching_callbacks_None.
Qed.

(** [stopAll] leaves nothing watched: the list of watched files is
    empty, and a notification that still arrives for a file that was
    watched changes nothing. *)
Theorem stopAll_stops_every_file (fs : Fs) (self : t) :
  getWatchedFiles (stopAll self) = []
  ∧ ∀ p, p ∈ getWatchedFiles self →
      handleFileChange fs p (stopAll self) = stopAll self.
Proof.
  split.
  - unfold getWatchedFiles, stopAll. by apply stop_each_watches_nothing.
  - intros p Hp. apply handleFileChange_unwatched.
    unfold stopAll. apply stop_each_forgets. by left.
Qed.

End Watching.

(** ** Classification ([LogAnalyzer]) *)

Section Classification.

Import LogAnalyzer.

Lemma exec_ts_line :
  exec typescript_regex Spec.ts_line
  = Some [Some Spec.ts_line; Some (lit "src/index.ts"); Some (lit "42");
          Some (lit "10"); Some (lit "error");
          Some (lit "Property 'foo' does not exist on type 'string'.")].
Proof. vm_compute. reflexivity. Qed.

(** C6.  Classifying the line
    [src/index.ts(42,10): error TS2339: Property 'foo' does not exist on type 'string'.]
    against the seeded patterns returns the entry built from the first
    pattern of the list, which matches: type error, language typescript,
    file src/index.ts, line 42, column 10. *)
Theorem C6_typescript_line (now : Z) (filePath : list N) (lineNumber : Z) :
  ∃ pattern m entry,
    head (patterns create) = Some pattern
    ∧ exec (ep_regex pattern) Spec.ts_line = Some m
    ∧ matchErrorPatterns now create Spec.ts_line filePath lineNumber = Some entry
    ∧ entry = entryOf now pattern m Spec.ts_line filePath lineNumber
    ∧ e_type entry = error
    ∧ e_language entry = Some (lit "typescript")
    ∧ e_file entry = Some (lit "src/index.ts")
    ∧ e_line entry = Some (Int 42)
    ∧ e_column entry = Some (Int 10).
Proof.
  eexists _, _, _.
  split; [reflexivity|].
  split; [apply exec_ts_line|].
  split.
  { unfold matchErrorPatterns, create, errorPatterns.
    cbn [patterns matchFirst ep_regex].
    rewrite exec_ts_line. reflexivity. }
  split; [reflexivity|].
  repeat split; reflexivity.
Qed.

Lemma test_exec (re : RegExp) (s : list N) :
  test re s = true ↔ is_Some (exec re s).
Proof.
  unfold test. destruct (exec re s); split; intros H; try done.
  all: by (eexists || destruct H).
Qed.

Lemma test_false_exec (re : RegExp) (s : list N) :
  test re s = false → exec re s = None.
Proof. unfold test. by destruct (exec re s). Qed.

(** The loop returns an entry as soon as some pattern of the list matches. *)
Lemma matchFirst_some now ps line filePath lineNumber :
  Exists (λ p, test (ep_regex p) line = true) ps →
  is_Some (matchFirst now ps line filePath lineNumber).
Proof.
  induction 1 as [p ps Hp | p ps _ IH]; cbn [matchFirst].
  - apply test_exec in Hp as [m ->]. by eexists.
  - destruct (exec (ep_regex p) line); [by eexists | exact IH].
Qed.

End Classification.

Section Vocabulary.

Lemma is_Some_firstOf_iff {A} (a b : option A) :
  is_Some (firstOf a b) ↔ is_Some a ∨ is_Some b.
Proof.
  destruct a as [x|]; cbn.
  - split; [by left | by eexists].
  - split; [by right | by intros [[]%is_Some_None|]].
Qed.

(** An alternation succeeds where one of its alternatives does. *)
Lemma rmatch_alternatives ic da (r : regex) (rs : list regex) st k :
  is_Some (rmatch ic da (foldl RAlt r rs) st k)
  ↔ Exists (λ a, is_Some (rmatch ic da a st k)) (r :: rs).
Proof.
  revert r. induction rs as [|x rs IH]; intros r; cbn [foldl].
  - rewrite Exists_cons, Exists_nil. tauto.
  - rewrite IH, !Exists_cons. cbn [rmatch]. rewrite is_Some_firstOf_iff. tauto.
Qed.

Lemma Exists_fmap_cons {A B} (P : B → Prop) (f : A → B) (x : A) (l : list A) :
  Exists P (f x :: (f <$> l)) ↔ ∃ w, w ∈ x :: l ∧ P (f w).
Proof. rewrite <- (fmap_cons f), Exists_fmap, Exists_exists. done. Qed.

Lemma canonicalize_lowerUnit_iff (x y : N) :
  canonicalize true x = canonicalize true y ↔ lowerUnit x = lowerUnit y.
Proof.
  unfold lowerUnit, canonicalize. cbn [andb].
  repeat case_bool_decide; lia.
Qed.

Lemma canonicalize_toLowerCase_iff (v w : list N) :
  canonicalize true <$> v = canonicalize true <$> w ↔ toLowerCase v = toLowerCase w.
Proof.
  unfold toLowerCase. revert w. induction v as [|x v IH]; intros [|y w]; cbn; try done.
  split; intros [= Hx Hv]; f_equal;
    solve [by apply canonicalize_lowerUnit_iff | by apply IH].
Qed.

(** Under the [i] flag a literal matches where the input goes on with a
    spelling of it. *)
Lemma rmatch_literal_spelling da (w : list N) st k :
  (∀ st', is_Some (k st')) →
  is_Some (rmatch true da (rseq (RChar <$> w)) st k)
  ↔ ∃ v post, rest st = v ++ post ∧ toLowerCase v = toLowerCase w.
Proof.
  intros Hk. split.
  - rewrite rmatch_literal.
    destruct (decide _) as [[Hlen Hc]|]; [intros _|by intros []%is_Some_None].
    exists (take (length w) (rest st)), (drop (length w) (rest st)).
    split; [by rewrite take_drop|]. symmetry. by apply canonicalize_toLowerCase_iff.
  - intros (v & post & Hrest & Hv).
    rewrite (rmatch_literal_any_case da w v post) by done. apply Hk.
Qed.

(** A group of literal alternatives, under the [i] flag, is found in
    exactly the lines that contain a spelling of one of the words. *)
Lemma test_words (words : list (list N)) (line : list N) :
  words ≠ [] →
  test {| body := RGroup 1 (ralt ((λ w, rseq (RChar <$> w)) <$> words));
          groupCount := 1; ignoreCase := true; dotAll := false |} line = true
  ↔ Spec.mentions words line.
Proof.
  intros Hne.
  set (re := {| body := RGroup 1 (ralt ((λ w, rseq (RChar <$> w)) <$> words));
                groupCount := 1; ignoreCase := true; dotAll := false |}).
  assert (Hat : ∀ st, is_Some (rmatch true false (body re) st Some)
                      ↔ ∃ v post, rest st = v ++ post
                                  ∧ toLowerCase v ∈ toLowerCase <$> words).
  { intros st. cbn [re body rmatch].
    destruct words as [|w0 ws]; [done|]. cbn [fmap list_fmap ralt].
    rewrite rmatch_alternatives.
    etrans; [exact (Exists_fmap_cons _ (λ w, rseq (RChar <$> w)) w0 ws)|].
    change (toLowerCase w0 :: (toLowerCase <$> ws)) with (toLowerCase <$> (w0 :: ws)).
    split.
    - intros (w & Hw & Hm). apply rmatch_literal_spelling in Hm as (v & post & Hr & Hv);
        [|intros; by eexists].
      exists v, post. split; [done|]. rewrite Hv. apply list_elem_of_fmap. by exists w.
    - intros (v & post & Hr & (w & Hv & Hw)%list_elem_of_fmap).
      exists w. split; [done|]. apply rmatch_literal_spelling; [intros; by eexists|].
      by exists v, post. }
  unfold test, exec. split.
  - destruct (search re 0 line) as [[j st]|] eqn:Hs; [intros _|done].
    apply search_found in Hs as (n & _ & Hn & Hm).
    assert (Hsome : is_Some (rmatch true false (body re)
                               {| pos := j; rest := drop n line;
                                  caps := replicate (S (groupCount re)) None |} Some))
      by (by exists st).
    apply Hat in Hsome as (v & post & Hr & Hv). cbn [rest] in Hr.
    exists (take n line), v, post. split; [|done]. by rewrite <- Hr, take_drop.
  - intros (pre & v & post & -> & Hv).
    destruct (search_finds re 0 (pre ++ v ++ post) (length pre)) as [[j st] ->]; [| |done].
    { rewrite length_app. lia. }
    apply Hat. exists v, post. cbn [rest]. by rewrite drop_app_length.
Qed.

End Vocabulary.

Section GenericPatterns.
Import LogAnalyzer.

Lemma general_error_mentions (line : list N) :
  test general_error_regex line = true ↔ Spec.mentions Spec.errorVocabulary line.
Proof. apply (test_words Spec.errorVocabulary). discriminate. Qed.

Lemma general_warning_mentions (line : list N) :
  test general_warning_regex line = true ↔ Spec.mentions Spec.warningVocabulary line.
Proof. apply (test_words Spec.warningVocabulary). discriminate. Qed.

(** What the generic patterns are seeded for, and do.  Every line that
    contains a word of the failure vocabulary, in any letter case, is
    classified; and when none of the five language patterns matches it,
    it is classified by a generic pattern: no language, type error when a
    word of the error vocabulary occurs and warning otherwise. *)
Lemma failure_vocabulary_is_classified
    (now : Z) (line filePath : list N) (lineNumber : Z) :
  Spec.mentions Spec.errorVocabulary line ∨ Spec.mentions Spec.warningVocabulary line →
  ∃ entry,
    matchErrorPatterns now create line filePath lineNumber = Some entry
    ∧ (Forall (λ re, test re line = false) Spec.language_regexes →
       e_language entry = None
       ∧ (Spec.mentions Spec.errorVocabulary line → e_type entry = error)
       ∧ (¬ Spec.mentions Spec.errorVocabulary line → e_type entry = warning)).
Proof.
  intros Hgen.
  pose proof (general_error_mentions line) as He.
  pose proof (general_warning_mentions line) as Hw.
  unfold matchErrorPatterns, create, errorPatterns.
  cbn [patterns matchFirst ep_regex].
  destruct (exec typescript_regex line) as [m1|] eqn:E1.
  { eexists; split; [done|]. intros H. inversion_clear H as [|? ? H1 _].
    apply test_false_exec in H1. congruence. }
  destruct (exec javascript_regex line) as [m2|] eqn:E2.
  { eexists; split; [done|]. intros H.
    do 1 (inversion_clear H as [|? ? _ H']; rename H' into H).
    inversion_clear H as [|? ? H1 _]. apply test_false_exec in H1. congruence. }
  destruct (exec python_regex line) as [m3|] eqn:E3.
  { eexists; split; [done|]. intros H.
    do 2 (inversion_clear H as [|? ? _ H']; rename H' into H).
    inversion_clear H as [|? ? H1 _]. apply test_false_exec in H1. congruence. }
  destruct (exec rust_regex line) as [m4|] eqn:E4.
  { eexists; split; [done|]. intros H.
    do 3 (inversion_clear H as [|? ? _ H']; rename H' into H).
    inversion_clear H as [|? ? H1 _]. apply test_false_exec in H1. congruence. }
  destruct (exec go_regex line) as [m5|] eqn:E5.
  { eexists; split; [done|]. intros H.
    do 4 (inversion_clear H as [|? ? _ H']; rename H' into H).
    inversion_clear H as [|? ? H1 _]. apply test_false_exec in H1. congruence. }
  unfold test in He, Hw.
  destruct (exec general_error_regex line) as [m6|] eqn:E6.
  { eexists; split; [done|]. intros _. split; [done|]. split; [done|].
    intros H. destruct H. by apply He. }
  destruct (exec general_warning_regex line) as [m7|] eqn:E7.
  { eexists; split; [done|]. intros _. split; [done|]. split; [|done].
    intros H%He. done. }
  destruct Hgen as [H%He|H%Hw]; done.
Qed.

End GenericPatterns.


Section Shadowing.
Import LogAnalyzer.

(** Whatever line the docker pattern matches, the generic error pattern,
    which comes before it, matches as well. *)
Lemma docker_implies_general (line : list N) :
  test docker_error_regex line = true → test general_error_regex line = true.
Proof.
  rewrite !test_exec. unfold exec. intros [m Hm].
  destruct (search docker_error_regex 0 line) as [[j st]|] eqn:Hs; [|done]. clear Hm.
  apply search_found in Hs as (n & -> & Hn & Hmatch).
  cbn [docker_error_regex body ignoreCase dotAll groupCount rseq foldr] in Hmatch.
  cbn [rmatch] in Hmatch. unfold rlit in Hmatch. rewrite rmatch_literal in Hmatch.
  destruct (decide _) as [[Hlen Hlit]|] in Hmatch; [|done]. clear Hmatch.
  cbn [rest] in Hlen, Hlit.
  assert (H36 : length (lit "docker: Error response from daemon: ") = 36) by reflexivity.
  rewrite H36, length_drop in Hlen. rewrite H36 in Hlit. clear H36.
  assert (Hsome : is_Some (search general_error_regex 0 line)).
  { apply (search_finds general_error_regex 0 line (n + 8)); [lia|].
    cbn [general_error_regex body ignoreCase dotAll groupCount].
    unfold ralt. cbn [foldl rmatch]. unfold rlit at 1.
    rewrite rmatch_literal. cbn [rest pos].
    assert (H5 : length (lit "ERROR") = 5) by reflexivity. rewrite H5. clear H5.
    rewrite decide_True; [by eexists|].
    split; [rewrite length_drop; lia|].
    apply (f_equal (λ l, take 5 (drop 8 l))) in Hlit.
    rewrite <- !fmap_drop, <- !fmap_take in Hlit.
    rewrite take_drop_take, drop_drop in Hlit by lia.
    rewrite <- Hlit. reflexivity.
    }
  destruct Hsome as [[j st'] ->]. by eexists.
Qed.

(** So the docker pattern, seeded behind the generic ones, never decides a
    classification. *)
Lemma docker_error_never_decides now line filePath lineNumber entry :
  matchErrorPatterns now create line filePath lineNumber = Some entry →
  e_language entry ≠ Some (lit "docker").
Proof.
  unfold matchErrorPatterns, create, errorPatterns.
  cbn [patterns matchFirst ep_regex].
  repeat match goal with
         | |- context [exec ?re line] =>
             lazymatch re with
             | docker_error_regex => fail
             | _ => destruct (exec re line) eqn:?; [intros [= <-]; cbn; discriminate|]
             end
         end.
  assert (Hd : exec docker_error_regex line = None).
  { destruct (exec docker_error_regex line) eqn:Hd; [|done].
    assert (Ht : test general_error_regex line = true).
    { apply docker_implies_general. apply test_exec. rewrite Hd. by eexists. }
    apply test_exec in Ht as [? Ht]. congruence. }
  by rewrite Hd.
Qed.

(** C7.  The generic patterns are not seeded last: [npm_error] and
    [docker_error] follow them.  The line
    [docker: Error response from daemon: conflict] is one that the docker
    pattern matches, with [conflict] for its message; but the loop returns
    at the generic error pattern before it, so the entry carries the
    message [Error] and no language, and the summary counts the line under
    [general_error]. *)
Theorem C7_docker_line_is_taken_by_general_error :
  ep_name <$> errorPatterns
  = Spec.language_then_generic ++ [lit "npm_error"; lit "docker_error"]
  ∧ (∃ m, exec docker_error_regex Spec.docker_line = Some m
          ∧ m !! 1 = Some (Some (lit "conflict")))
  ∧ (∃ entry,
       matchErrorPatterns 0 create Spec.docker_line Spec.log_path 0 = Some entry
       ∧ e_message entry = lit "Error"
       ∧ e_language entry = None
       ∧ e_type entry = error)
  ∧ getMatchingPatternName create Spec.docker_line = Some (lit "general_error")
  ∧ (s_patterns <$> analyzeLogFile 0 create (Some [Spec.docker_line]) Spec.log_path 1000)
    = Some {[ lit "general_error" := Count 1 ]}.
Proof.
  split; [reflexivity|]. split; [|split; [|split]].
  - eexists. split; vm_compute; reflexivity.
  - eexists. split; [vm_compute; reflexivity|]. repeat split; vm_compute; reflexivity.
  - vm_compute. reflexivity.
  - vm_compute. reflexivity.
Qed.

End Shadowing.

(** ** The analyzer's pattern list and its file readers *)

Section PatternList.
Import LogAnalyzer.

Lemma matchFirst_app now ps qs line filePath lineNumber :
  matchFirst now (ps ++ qs) line filePath lineNumber
  = match matchFirst now ps line filePath lineNumber with
    | Some entry => Some entry
    | None => matchFirst now qs line filePath lineNumber
    end.
Proof.
  induction ps as [|p ps IH]; [done|]. cbn [app matchFirst].
  by destruct (exec (ep_regex p) line).
Qed.

(** X14.  A custom pattern is consulted last: a line that the list
    classified before [addCustomPattern] is classified the same way after
    it, and the added pattern decides only the lines that no earlier
    pattern matches. *)
Theorem addCustomPattern_is_consulted_last
    (now : Z) (self : t) (pattern : ErrorPattern) (line filePath : list N)
    (lineNumber : Z) :
  matchErrorPatterns now (addCustomPattern pattern self) line filePath lineNumber
  = match matchErrorPatterns now self line filePath lineNumber with
    | Some entry => Some entry
    | None => matchFirst now [pattern] line filePath lineNumber
    end.
Proof. unfold matchErrorPatterns, addCustomPattern. cbn [patterns]. apply matchFirst_app. Qed.

Lemma removeFirst_absent name ps :
  name ∉ ep_name <$> ps → removeFirst name ps = ps.
Proof.
  induction ps as [|p ps IH]; [done|]. rewrite fmap_cons.
  intros [Hp Hps]%not_elem_of_cons. cbn. rewrite decide_False by congruence.
  by rewrite IH.
Qed.

Lemma removeFirst_split name before p after :
  ep_name p = name → name ∉ ep_name <$> before →
  removeFirst name (before ++ p :: after) = before ++ after.
Proof.
  intros Hp. induction before as [|q before IH]; cbn.
  - intros _. by rewrite decide_True.
  - intros [Hq Hb]%not_elem_of_cons. rewrite decide_False by congruence.
    by rewrite IH.
Qed.

(** X15.  [removePattern(name)] takes out the first pattern of that name
    and nothing else.  A name that no pattern has changes nothing; removing
    a pattern right after adding it under a fresh name restores the list;
    and after adding a pattern under a name that is already taken, it is
    the older pattern that goes and the added one that stays. *)
Theorem removePattern_takes_the_first_of_the_name (self : t) (pattern : ErrorPattern) :
  let name := ep_name pattern in
  (∀ before p after,
     patterns self = before ++ p :: after → ep_name p = name →
     (name ∉ ep_name <$> before) →
     patterns (removePattern name self) = before ++ after)
  ∧ ((name ∉ ep_name <$> patterns self) →
     removePattern name self = self
     ∧ removePattern name (addCustomPattern pattern self) = self)
  ∧ (name ∈ ep_name <$> patterns self →
     patterns (removePattern name (addCustomPattern pattern self))
     = patterns (removePattern name self) ++ [pattern]).
Proof.
  intros name. destruct self as [ps]. unfold removePattern, addCustomPattern.
  cbn [patterns]. split; [|split].
  - intros before p after -> Hp Hb. by apply removeFirst_split.
  - intros Hfresh. split.
    + by rewrite removeFirst_absent.
    + rewrite (removeFirst_split name ps pattern []) by done. by rewrite app_nil_r.
  - induction ps as [|q ps IH]; [by intros ?%elem_of_nil|].
    rewrite fmap_cons. cbn. destruct (decide (ep_name q = name)) as [|Hq]; [done|].
    intros [?|Hin]%elem_of_cons; [congruence|]. by rewrite IH.
Qed.

Lemma firstName_matchFirst now ps line filePath lineNumber :
  match matchFirst now ps line filePath lineNumber, firstName ps line with
  | Some entry, Some name =>
      ∃ p, p ∈ ps ∧ ep_name p = name
           ∧ e_type entry = ep_type p ∧ e_language entry = ep_language p
  | None, None => True
  | _, _ => False
  end.
Proof.
  induction ps as [|p ps IH]; [done|]. cbn [matchFirst firstName]. unfold test.
  destruct (exec (ep_regex p) line) as [m|].
  - exists p. split; [apply list_elem_of_here | done].
  - destruct (matchFirst now ps line filePath lineNumber), (firstName ps line); try done.
    destruct IH as (q & Hq & H). exists q. split; [by apply list_elem_of_further | done].
Qed.

(** [getMatchingPatternName] names the pattern that decides: it
    answers for exactly the lines that [matchErrorPatterns] classifies, with
    the name of a pattern of the list whose type and language the entry
    carries. *)
Theorem getMatchingPatternName_names_the_deciding_pattern
    (now : Z) (self : t) (line filePath : list N) (lineNumber : Z) :
  match matchErrorPatterns now self line filePath lineNumber,
        getMatchingPatternName self line with
  | Some entry, Some name =>
      ∃ p, p ∈ getPatterns self ∧ ep_name p = name
           ∧ e_type entry = ep_type p ∧ e_language entry = ep_language p
  | None, None => True
  | _, _ => False
  end.
Proof. apply firstName_matchFirst. Qed.

End PatternList.

Section FileReaders.
Import LogAnalyzer.

Lemma keepRecent_fold (lineCount : Z) (yielded lines : list (list N)) :
  length lines ≤ Z.to_nat (Z.max 1 lineCount) →
  foldl (keepRecent lineCount) lines yielded
  = lastN (Z.to_nat (Z.max 1 lineCount)) (lines ++ yielded).
Proof.
  unfold lastN. revert lines. induction yielded as [|y ys IH]; intros lines Hlen.
  - cbn. rewrite app_nil_r. replace (length lines - _) with 0 by lia. done.
  - cbn [foldl]. unfold keepRecent at 2. case_bool_decide as Hfull.
    + rewrite IH.
      2:{ rewrite length_app. destruct lines; cbn in *; lia. }
      destruct lines as [|x lines]; [done|]. cbn [tail].
      rewrite <- !app_assoc. cbn [app length].
      rewrite !length_app. cbn [length] in *.
      replace (S (length lines + S (length ys)) - Z.to_nat (Z.max 1 lineCount))
        with (S (length lines + S (length ys) - Z.to_nat (Z.max 1 lineCount))) by lia.
      done.
    + rewrite IH by (rewrite length_app; cbn; lia).
      by rewrite <- app_assoc.
Qed.

(** X16.  [getRecentLogs] returns the last [lineCount] lines of the file,
    in their order — and the last line when [lineCount] is zero or
    negative, because the loop pushes a line after it has made room. *)
Theorem getRecentLogs_returns_the_last_lines (yielded : list (list N)) (lineCount : Z) :
  getRecentLogs (Some yielded) lineCount
  = drop (length yielded - Z.to_nat (Z.max 1 lineCount)) yielded.
Proof.
  unfold getRecentLogs. rewrite keepRecent_fold by (cbn; lia). done.
Qed.

Lemma searchLoop_take (re : RegExp) (maxResults : Z) (yielded matches : list (list N)) :
  length matches < Z.to_nat (Z.max 1 maxResults) →
  searchLoop re maxResults matches yielded
  = matches ++ take (Z.to_nat (Z.max 1 maxResults) - length matches)
                 (filter (λ line, test re line = true) yielded).
Proof.
  revert matches. induction yielded as [|y ys IH]; intros matches Hlen.
  - cbn. by rewrite take_nil, app_nil_r.
  - cbn [searchLoop]. destruct (test re y) eqn:Hy.
    + rewrite filter_cons_True by done.
      destruct (Z.to_nat (Z.max 1 maxResults) - length matches) as [|n] eqn:Hn; [lia|].
      cbn [take]. case_bool_decide as Hfull.
      * rewrite length_app in Hfull. cbn in Hfull.
        assert (n = 0) as -> by lia. by rewrite take_0.
      * rewrite length_app in Hfull. cbn in Hfull.
        rewrite IH by (rewrite length_app; cbn; lia).
        rewrite length_app. cbn [length].
        replace (Z.to_nat (Z.max 1 maxResults) - (length matches + 1)) with n by lia.
        by rewrite <- app_assoc.
    + rewrite filter_cons_False by (rewrite Hy; done). by apply IH.
Qed.

(** X17.  [searchLogs] returns the first [maxResults] lines that the
    regular expression matches, in their order — and the first matching
    line when [maxResults] is zero or negative, because the bound is
    checked after a line was collected. *)
Theorem searchLogs_returns_the_first_matches
    (re : RegExp) (yielded : list (list N)) (maxResults : Z) :
  searchLogs (Some re) (Some yielded) maxResults
  = take (Z.to_nat (Z.max 1 maxResults)) (filter (λ line, test re line = true) yielded).
Proof.
  unfold searchLogs. rewrite searchLoop_take by (cbn; lia).
  cbn [length app]. by rewrite Nat.sub_0_r.
Qed.

End FileReaders.

Section Summaries.
Import LogAnalyzer.

Lemma scan_lineCount now self filePath ys sc :
  lineCount (foldl (scanLine now self filePath) sc ys) = lineCount sc + length ys
  ∧ totalLines (foldl (scanLine now self filePath) sc ys) = totalLines sc + length ys.
Proof.
  revert sc. induction ys as [|y ys IH]; intros sc; [cbn; lia|].
  cbn [foldl]. destruct (IH (scanLine now self filePath sc y)) as [-> ->]. cbn. lia.
Qed.

Lemma scan_start_later now self filePath ys sc :
  lineCount sc ≠ 0 →
  rangeStart (foldl (scanLine now self filePath) sc ys) = rangeStart sc.
Proof.
  revert sc. induction ys as [|y ys IH]; intros sc Hc; [done|].
  cbn [foldl]. rewrite IH by done. cbn [scanLine rangeStart].
  destruct (extractTimestamp y); [|done]. by rewrite bool_decide_eq_false_2.
Qed.

Lemma scan_end now self filePath ys sc :
  rangeEnd (foldl (scanLine now self filePath) sc ys)
  = default (rangeEnd sc) (last (omap extractTimestamp ys)).
Proof.
  revert sc. induction ys as [|y ys IH]; intros sc; [done|].
  cbn [foldl]. rewrite IH. cbn [scanLine rangeEnd].
  change (omap extractTimestamp (y :: ys))
    with (match extractTimestamp y with
          | Some ts => ts :: omap extractTimestamp ys
          | None => omap extractTimestamp ys
          end).
  destruct (extractTimestamp y) as [ts|]; [|done].
  by rewrite default_last_cons.
Qed.

(** X18.  The time range of a log summary.  [analyzeLogFile] counts every
    line; the end of the range is the stamp of the last line that carries
    one; but the start is taken from the first line of the file only: when
    that line carries no stamp the start stays at the time of the call,
    whatever stamps follow. *)
Theorem analyzeLogFile_time_range
    (now : Z) (self : t) (yielded : list (list N)) (filePath : list N) (maxLines : Z) :
  ∃ summary,
    analyzeLogFile now self (Some yielded) filePath maxLines = Some summary
    ∧ s_totalLines summary = length yielded
    ∧ s_start summary
      = match yielded with
        | first :: _ => default (At now) (extractTimestamp first)
        | [] => At now
        end
    ∧ s_end summary = default (At now) (last (omap extractTimestamp yielded)).
Proof.
  eexists. split; [reflexivity|]. cbn [s_totalLines s_start s_end].
  split; [|split].
  - by destruct (scan_lineCount now self filePath yielded
                   {| totalLines := 0; lineCount := 0; rangeStart := At now;
                      rangeEnd := At now; errors := []; warnings := [];
                      tallies := ∅ |}) as [_ ->].
  - destruct yielded as [|first more]; [done|]. cbn [foldl].
    rewrite scan_start_later by done. cbn [scanLine rangeStart lineCount].
    by destruct (extractTimestamp first).
  - by rewrite scan_end.
Qed.

Lemma tallied_insert_fresh (name : list N) (v : TallyValue) (m : gmap (list N) TallyValue) :
  m !! name = None →
  Spec.tallied (<[name := v]> m)
  = match v with Count k => k + Spec.tallied m | Inherited _ _ => Spec.tallied m end.
Proof.
  intros Hfresh. unfold Spec.tallied.
  rewrite map_fold_insert_L; [done| |done].
  intros j1 j2 [k1|m1 o1] [k2|m2 o2] y _ _ _; lia.
Qed.

Lemma tallied_lookup (name : list N) (v : TallyValue) (m : gmap (list N) TallyValue) :
  m !! name = Some v →
  Spec.tallied m
  = match v with
    | Count k => k + Spec.tallied (delete name m)
    | Inherited _ _ => Spec.tallied (delete name m)
    end.
Proof.
  intros Hv. unfold Spec.tallied.
  rewrite (map_fold_delete_L _ _ name v m); [done| |done].
  intros j1 j2 [k1|m1 o1] [k2|m2 o2] y _ _ _; lia.
Qed.

(** Under a plain name, and while every value is a count, [tally] adds one
    to the sum of the counts and stores a count. *)
Lemma tally_plain (name : list N) (m : gmap (list N) TallyValue) :
  Spec.plainName name →
  map_Forall (λ _ v, ∃ n, v = Count n) m →
  map_Forall (λ _ v, ∃ n, v = Count n) (tally name m)
  ∧ Spec.tallied (tally name m) = S (Spec.tallied m).
Proof.
  intros (_ & Hproto & Hmethod) Hcounts. unfold tally.
  destruct (m !! name) as [v|] eqn:Hv.
  - destruct (Hcounts name v Hv) as [n ->]. split.
    + apply map_Forall_insert_2; [by eexists | done].
    + rewrite (tallied_lookup name (Count n) m Hv).
      rewrite <- (insert_delete_eq m), tallied_insert_fresh by apply lookup_delete_eq.
      lia.
  - rewrite bool_decide_eq_false_2 by done.
    rewrite bool_decide_eq_false_2 by done. split.
    + apply map_Forall_insert_2; [by eexists | done].
    + by rewrite tallied_insert_fresh.
Qed.

(** What the loop keeps true: the lists never hold more entries than there
    were lines, and, when every pattern has a plain name and none is of
    type info, every value is a count and every entry was tallied once. *)
Lemma scan_invariant now self filePath ys sc :
  length (errors sc) + length (warnings sc) ≤ totalLines sc →
  let sc' := foldl (scanLine now self filePath) sc ys in
  length (errors sc') + length (warnings sc') ≤ totalLines sc'
  ∧ (Forall (λ p, Spec.plainName (ep_name p) ∧ ep_type p ≠ info) (patterns self) →
     map_Forall (λ _ v, ∃ n, v = Count n) (tallies sc) →
     Spec.tallied (tallies sc) = length (errors sc) + length (warnings sc) →
     map_Forall (λ _ v, ∃ n, v = Count n) (tallies sc')
     ∧ Spec.tallied (tallies sc') = length (errors sc') + length (warnings sc')).
Proof.
  revert sc. induction ys as [|y ys IH]; intros sc Hle; [done|].
  cbn [foldl]. cbn zeta in IH.
  pose proof (firstName_matchFirst now (patterns self) y filePath
                (Z.of_nat (lineCount sc))) as Hname.
  assert (Hstep : length (errors (scanLine now self filePath sc y))
                  + length (warnings (scanLine now self filePath sc y))
                  ≤ totalLines (scanLine now self filePath sc y)).
  { unfold scanLine, matchErrorPatterns. cbn [errors warnings totalLines].
    destruct (matchFirst _ _ _ _ _) as [entry|]; [|lia].
    destruct (e_type entry); repeat (case_decide; try done);
      rewrite ?length_app; cbn [length]; lia. }
  destruct (IH _ Hstep) as [IH1 IH2]. split; [done|].
  intros Hall Hcounts Hsum.
  assert (Hboth :
    map_Forall (λ _ v, ∃ n, v = Count n) (tallies (scanLine now self filePath sc y))
    ∧ Spec.tallied (tallies (scanLine now self filePath sc y))
      = length (errors (scanLine now self filePath sc y))
        + length (warnings (scanLine now self filePath sc y))).
  { clear IH IH1 IH2 Hstep.
    unfold scanLine, matchErrorPatterns, getMatchingPatternName in *.
    cbn [errors warnings tallies].
    destruct (matchFirst _ _ _ _ _) as [entry|]; [|done].
    destruct (firstName (patterns self) y) as [name|]; [|done].
    destruct Hname as (p & Hp & Hpn & Hty & _).
    rewrite Forall_forall in Hall. destruct (Hall p Hp) as [Hplain Hinfo].
    rewrite Hpn in Hplain.
    destruct (tally_plain name (tallies sc) Hplain Hcounts) as [Hcounts' Hsum'].
    assert (Hgiven : given (Some name) = Some name).
    { destruct Hplain as [Hne _]. by destruct name. }
    rewrite Hgiven. split; [done|].
    rewrite Hsum', Hsum.
    destruct (e_type entry) eqn:E; repeat (case_decide; try done);
      rewrite ?length_app; cbn [length]; lia. }
  destruct Hboth. by apply IH2.
Qed.

(** X19.  The counts of a log summary.  Errors and warnings together never
    exceed the lines read, and at most eight samples are kept.  When every
    pattern has a plain name (not empty, no property of [Object.prototype])
    and none is of type info, as in the seeded list, every value of
    [patterns] is a number and these numbers add up to the errors and
    warnings counted. *)
Theorem analyzeLogFile_counts
    (now : Z) (self : t) (yielded : list (list N)) (filePath : list N) (maxLines : Z)
    (summary : LogSummary) :
  analyzeLogFile now self (Some yielded) filePath maxLines = Some summary →
  s_errors summary + s_warnings summary ≤ s_totalLines summary
  ∧ length (s_errorSamples summary) ≤ 8
  ∧ (Forall (λ p, Spec.plainName (ep_name p) ∧ ep_type p ≠ info) (patterns self) →
     map_Forall (λ _ v, ∃ n, v = Count n) (s_patterns summary)
     ∧ Spec.tallied (s_patterns summary) = s_errors summary + s_warnings summary).
Proof.
  intros [= <-]. cbn [s_errors s_warnings s_totalLines s_errorSamples s_patterns].
  destruct (scan_invariant now self filePath yielded
              {| totalLines := 0; lineCount := 0; rangeStart := At now;
                 rangeEnd := At now; errors := []; warnings := []; tallies := ∅ |})
    as [H1 H2]; [cbn; lia|].
  split; [exact H1|]. split.
  - unfold lastN. rewrite length_app, !length_drop. lia.
  - intros Hall. apply H2; [done | apply map_Forall_empty | done].
Qed.

Lemma analyzeLogFile_counts_witness :
  let summary :=
    {| s_paneId := lit "dev_0_0"; s_totalLines := 2; s_errors := 1; s_warnings := 0;
       s_start := At 7; s_end := At 7;
       s_errorSamples :=
         [ {| e_id := lit "/logs/dev_0_0.log:1:7"; e_paneId := lit "dev_0_0";
              e_file := None; e_line := None; e_column := None;
              e_message := lit "FAIL"; e_type := error; e_language := None;
              e_timestamp := 7 |} ];
       s_patterns := {[ lit "general_error" := Count 1 ]} |} in
  s_errors summary + s_warnings summary ≤ s_totalLines summary
  ∧ length (s_errorSamples summary) ≤ 8
  ∧ (Forall (λ p, Spec.plainName (ep_name p) ∧ ep_type p ≠ info) (patterns create) →
     map_Forall (λ _ v, ∃ n, v = Count n) (s_patterns summary)
     ∧ Spec.tallied (s_patterns summary) = s_errors summary + s_warnings summary).
Proof.
  cbv zeta.
  apply (analyzeLogFile_counts 7 create [lit "compiling"; lit "build FAILED"]
           Spec.log_path 1000).
  vm_compute. reflexivity.
Defined.

(** The seeded patterns have plain names, and none is of type info. *)
Lemma seeded_names_are_plain :
  Forall (λ p, Spec.plainName (ep_name p) ∧ ep_type p ≠ info) (patterns create).
Proof.
  repeat constructor; try discriminate;
    try (apply (bool_decide_unpack _); vm_compute; reflexivity);
    cbn [ep_name]; intros H; vm_compute in H; discriminate.
Qed.

(** Under a name that [Object.prototype] defines the summary holds no
    number: a pattern called [constructor] is tallied as the text of the
    inherited function followed by a [1] for every match, and a pattern
    called [__proto__] is not tallied at all. *)
Example analyzeLogFile_inherited_names :
  let named name :=
    {| patterns := [ {| ep_name := lit name; ep_regex := general_error_regex;
                        ep_type := error; ep_language := None;
                        ep_captureGroups := groups None None None 0 |} ] |} in
  let lines := [lit "build FAILED"; lit "test FAILED"] in
  (s_patterns <$> analyzeLogFile 7 (named "constructor") (Some lines) Spec.log_path 1000)
  = Some {[ lit "constructor" := Inherited (lit "constructor") 2 ]}
  ∧ (s_patterns <$> analyzeLogFile 7 (named "__proto__") (Some lines) Spec.log_path 1000)
    = Some ∅
  ∧ (s_errors <$> analyzeLogFile 7 (named "__proto__") (Some lines) Spec.log_path 1000)
    = Some 2.
Proof. repeat split; vm_compute; reflexivity. Qed.

End Summaries.

Section LogFileNames.
Import LogAnalyzer.

Lemma starLoop_greedy (m : mstate → (mstate → option mstate) → option mstate)
    (K : mstate → option mstate) (w : list N) :
  (∀ p cs x t k, isLineTerminator x = false →
     m {| pos := p; rest := x :: t; caps := cs |} k
     = k {| pos := S p; rest := t; caps := cs |}) →
  (∀ p cs k, m {| pos := p; rest := []; caps := cs |} k = None) →
  Forall (λ c, isLineTerminator c = false) w →
  ∀ fuel p cs, length w < fuel →
    starLoop m true K fuel {| pos := p; rest := w; caps := cs |}
    = Spec.greedyAt K p cs w.
Proof.
  intros Hstep Hend. induction 1 as [|x w Hx _ IH]; intros fuel p cs Hfuel;
    (destruct fuel as [|fuel]; [exfalso; cbn in Hfuel; lia|]);
    cbn [starLoop Spec.greedyAt].
  - by rewrite Hend.
  - rewrite Hstep by done. cbn [pos].
    rewrite bool_decide_eq_false_2 by lia. rewrite IH by (cbn in Hfuel; lia). done.
Qed.

Lemma greedyAt_none K p cs w :
  (∀ j, j ≤ length w → K {| pos := p + j; rest := drop j w; caps := cs |} = None) →
  Spec.greedyAt K p cs w = None.
Proof.
  revert p. induction w as [|x w IH]; intros p H; cbn [Spec.greedyAt].
  - specialize (H 0). rewrite Nat.add_0_r in H. apply H. cbn. lia.
  - rewrite IH.
    + specialize (H 0). rewrite Nat.add_0_r in H. apply H. cbn. lia.
    + intros j Hj. specialize (H (S j)). cbn in H.
      replace (S p + j) with (p + S j) by lia. apply H. lia.
Qed.

(** The continuation gets the longest split on which it succeeds. *)
Lemma greedyAt_split K p cs a z res :
  K {| pos := p + length a; rest := z; caps := cs |} = Some res →
  (∀ j, 0 < j ≤ length z →
        K {| pos := p + length a + j; rest := drop j z; caps := cs |} = None) →
  Spec.greedyAt K p cs (a ++ z) = Some res.
Proof.
  revert p. induction a as [|x a IH]; intros p Hres Hnone.
  - cbn [app length] in *. rewrite Nat.add_0_r in *.
    destruct z as [|y z]; cbn [Spec.greedyAt]; [done|].
    rewrite greedyAt_none; [done|].
    intros j Hj. specialize (Hnone (S j)). cbn in Hnone.
    replace (S p + j) with (p + S j) by lia. apply Hnone. cbn. lia.
  - cbn [app Spec.greedyAt]. rewrite (IH (S p)); [done| |].
    + cbn [length] in Hres. by replace (S p + length a) with (p + S (length a)) by lia.
    + intros j Hj. cbn [length] in Hnone.
      replace (S p + length a + j) with (p + S (length a) + j) by lia. by apply Hnone.
Qed.

Lemma finalComponent_app (dir base : list N) :
  47%N ∉ base → Spec.finalComponent (dir ++ 47%N :: base) = base.
Proof.
  intros Hb. induction dir as [|c dir IH]; cbn [app Spec.finalComponent].
  - rewrite bool_decide_eq_false_2 by done. by rewrite bool_decide_eq_true_2.
  - rewrite bool_decide_eq_true_2; [done|].
    apply elem_of_app. right. apply list_elem_of_here.
Qed.

Lemma exec_log_suffix (name : list N) :
  name ≠ [] → Forall (λ c, isLineTerminator c = false) name →
  ∃ m, exec log_suffix_regex (name ++ lit ".log") = Some m ∧ group m 1 = Some name.
Proof.
  intros Hne Hname. destruct name as [|c name]; [done|].
  apply Forall_cons in Hname as [Hc Hname].
  unfold exec. cbn [search app].
  cbn [log_suffix_regex body ignoreCase dotAll groupCount rseq foldr RPlus rmatch pos rest].
  rewrite bool_decide_eq_true_2 by done. rewrite Hc. cbn [orb negb].
  unfold advance. cbn [pos rest caps tail length replicate].
  rewrite (starLoop_greedy _ _ (name ++ lit ".log")); cycle 1.
  { intros p cs x t k Hx. cbn. by rewrite Hx. }
  { done. }
  { apply Forall_app. split; [done|]. repeat constructor. }
  { lia. }
  rewrite (greedyAt_split _ 1 _ name (lit ".log")
             {| pos := 1 + length name + 4; rest := [];
                caps := [None; Some (c :: name)] |}).
  - refine (ex_intro _ _ (conj eq_refl _)). done.
  - cbn [pos rest caps]. unfold rlit. rewrite rmatch_literal. cbn [rest].
    rewrite decide_True by (split; [cbn; lia | reflexivity]).
    cbn [rmatch after rest pos caps].
    change (drop (length (lit ".log")) (lit ".log")) with (@nil N).
    cbv beta iota.
    assert (Hcaps : <[1 := Some (take (1 + length name - 0) (c :: name ++ lit ".log"))]>
                      [None; None]
                    = [None; Some (c :: name)]).
    { rewrite Nat.sub_0_r. cbn [Nat.add take]. rewrite take_app_length. reflexivity. }
    rewrite Hcaps. reflexivity.
  - intros j [Hj1 Hj2]. cbn [pos rest caps]. unfold rlit. rewrite rmatch_literal.
    cbn [rest]. rewrite decide_False; [done|]. intros [Hlen _].
    rewrite length_drop in Hlen. cbn in Hlen, Hj2. lia.
Qed.

(** X20.  The pane id that the analyzer gives its entries is the stem of
    the log file's name: for a path that ends in [name.log], with a
    directory part or without, [extractPaneIdFromPath] returns [name]. *)
Theorem extractPaneIdFromPath_is_the_stem (dir name : list N) :
  name ≠ [] → (47%N ∉ name) → Forall (λ c, isLineTerminator c = false) name →
  extractPaneIdFromPath (dir ++ lit "/" ++ name ++ lit ".log") = name
  ∧ extractPaneIdFromPath (name ++ lit ".log") = name.
Proof.
  intros Hne Hslash Hname.
  assert (Hbase : 47%N ∉ name ++ lit ".log").
  { intros [?|Hin]%elem_of_app; [done|]. revert Hin.
    apply (bool_decide_unpack _). vm_compute. reflexivity. }
  destruct (exec_log_suffix name Hne Hname) as (m & Hm & Hg).
  assert (Htruthy : truthy (name ++ lit ".log") = true) by by destruct name.
  split; unfold extractPaneIdFromPath; rewrite pop_split.
  - change (lit "/" ++ name ++ lit ".log") with (47%N :: name ++ lit ".log").
    rewrite finalComponent_app by done. cbn [orElse]. rewrite Htruthy, Hm, Hg. done.
  - rewrite finalComponent_without by done. cbn [orElse]. rewrite Htruthy, Hm, Hg. done.
Qed.

Lemma extractPaneIdFromPath_is_the_stem_witness :
  extractPaneIdFromPath (lit "/var/logs" ++ lit "/" ++ lit "dev_0_0" ++ lit ".log")
  = lit "dev_0_0"
  ∧ extractPaneIdFromPath (lit "dev_0_0" ++ lit ".log") = lit "dev_0_0".
Proof.
  apply (extractPaneIdFromPath_is_the_stem (lit "/var/logs") (lit "dev_0_0")).
  - vm_compute. discriminate.
  - apply (bool_decide_unpack _). vm_compute. reflexivity.
  - apply (bool_decide_unpack _). vm_compute. reflexivity.
Defined.

End LogFileNames.

(** ** Trigger cooldown ([McpIntegrator]) *)

Section Cooldown.
Import McpIntegrator.

Lemma docTypeString_last_inj t1 t2 :
  last (docTypeString t1) = last (docTypeString t2) → t1 = t2.
Proof. destruct t1, t2; vm_compute; congruence. Qed.

Lemma context7Key_inj l1 t1 l2 t2 :
  context7Key l1 t1 = context7Key l2 t2 → l1 = l2 ∧ t1 = t2.
Proof.
  unfold context7Key. intros H%app_inv_head.
  assert (Ht : t1 = t2).
  { apply docTypeString_last_inj.
    apply (f_equal last) in H. rewrite !last_app in H.
    destruct t1, t2; vm_compute in H; vm_compute; congruence. }
  subst t2. split; [|done].
  rewrite !app_assoc in H. apply app_inv_tail in H. by apply app_inv_tail in H.
Qed.

Lemma keyString_inj k1 k2 : keyString k1 = keyString k2 → k1 = k2.
Proof.
  destruct k1 as [p1|l1 t1|n1], k2 as [p2|l2 t2|n2];
    unfold keyString, sequentialKey, context7Key, rikaKey; intros H;
    try (eval_lits; cbn in H; discriminate).
  - apply app_inv_head in H. congruence.
  - apply context7Key_inj in H as [-> ->]. done.
  - apply app_inv_head, numberToString_Int_inj in H. congruence.
Qed.

Lemma keyString_novelty k entry : keyString k ≠ noveltyKey entry.
Proof.
  destruct k; unfold keyString, sequentialKey, context7Key, rikaKey, noveltyKey;
    intros H; eval_lits; cbn in H; discriminate.
Qed.


Lemma released (x y : list N) (A : gset (list N)) :
  x ∉ A ∨ x = y → x ∉ ({[y]} ∪ A) ∖ {[y]}.
Proof.
  intros Hx [[Hin|Hin]%elem_of_union Hout]%elem_of_difference.
  - done.
  - destruct Hx as [Hx| ->]; [done|]. apply Hout. by apply elem_of_singleton.
Qed.

Lemma debounced_armed k t0 self now w :
  lastTriggers self !! keyString k = Some t0 →
  debounced self (keyString k) now w = bool_decide (now - t0 < w)%Z.
Proof. unfold debounced. by intros ->. Qed.

(** A qualifying event for [k] inside the window changes nothing but the log. *)
Lemma step_absorbed k t0 self c :
  armed k t0 self → callKey c = Some k → (callTime c - t0 < window k)%Z →
  emitted (step self c) = emitted self
  ∧ lastTriggers (step self c) = lastTriggers self
  ∧ activeAnalyses (step self c) = activeAnalyses self.
Proof.
  intros [Hlast Hact] Hk Hlt.
  destruct c as [now p params|now l q ty|now port p|now e]; cbn in Hk; simplify_eq;
    cbn [step callTime window keyString] in *.
  - unfold triggerSequentialAnalysis.
    case_bool_decide as Hin; [by destruct (Hact p eq_refl)|].
    rewrite (debounced_armed (KSequential p) t0) by done.
    by rewrite bool_decide_eq_true_2.
  - unfold triggerDocumentationLookup.
    rewrite (debounced_armed (KContext7 l ty) t0) by done.
    by rewrite bool_decide_eq_true_2.
  - unfold triggerRikaTest.
    rewrite (debounced_armed (KRika port) t0) by done.
    by rewrite bool_decide_eq_true_2.
Qed.

(** Calls for other keys, and novelty checks, leave [k] alone. *)
Lemma step_other k t0 self c :
  armed k t0 self → callKey c ≠ Some k →
  triggersFor k (step self c) = triggersFor k self ∧ armed k t0 (step self c).
Proof.
  intros [Hlast Hact] Hk.
  destruct c as [now p params|now l q ty|now port p|now e]; cbn [step callKey] in *.
  - assert (Hne : keyString (KSequential p) ≠ keyString k)
      by (intros ?%keyString_inj; congruence).
    unfold triggerSequentialAnalysis.
    case_bool_decide; [done|].
    destruct (debounced _ _ _ _); [done|].
    split.
    + unfold triggersFor. cbn. rewrite filter_app. cbn.
      rewrite decide_False by done. by rewrite app_nil_r.
    + split; cbn.
      * by rewrite lookup_insert_ne.
      * intros q ->. apply released. left. by apply Hact.
  - assert (Hne : keyString (KContext7 l ty) ≠ keyString k)
      by (intros ?%keyString_inj; congruence).
    unfold triggerDocumentationLookup.
    destruct (debounced _ _ _ _); [done|].
    split.
    + unfold triggersFor. cbn. rewrite filter_app. cbn.
      rewrite decide_False by done. by rewrite app_nil_r.
    + split; cbn; [by rewrite lookup_insert_ne | done].
  - assert (Hne : keyString (KRika port) ≠ keyString k)
      by (intros ?%keyString_inj; congruence).
    unfold triggerRikaTest.
    destruct (debounced _ _ _ _); [done|].
    split.
    + unfold triggersFor. cbn. rewrite filter_app. cbn.
      rewrite decide_False by done. by rewrite app_nil_r.
    + split; cbn; [by rewrite lookup_insert_ne | done].
  - pose proof (keyString_novelty k e) as Hne.
    unfold isNewErrorPattern.
    destruct (lastTriggers self !! noveltyKey e); [case_bool_decide|]; cbn;
      (split; [done|]); split; cbn; try done; by rewrite lookup_insert_ne.
Qed.

(** A qualifying event for [k] once the window has passed fires. *)
Lemma step_fires k t0 self c :
  armed k t0 self → callKey c = Some k → (window k ≤ callTime c - t0)%Z →
  ∃ e, emittedKey e = Some k
       ∧ triggersFor k (step self c) = triggersFor k self ++ [e]
       ∧ armed k (callTime c) (step self c).
Proof.
  intros [Hlast Hact] Hk Hge.
  destruct c as [now p params|now l q ty|now port p|now e]; cbn in Hk; simplify_eq;
    cbn [step callTime window keyString] in *.
  - unfold triggerSequentialAnalysis.
    case_bool_decide as Hin; [by destruct (Hact p eq_refl)|].
    rewrite (debounced_armed (KSequential p) t0) by done.
    rewrite bool_decide_eq_false_2 by lia.
    eexists; split; [|split].
    2:{ unfold triggersFor. cbn. rewrite filter_app. cbn.
        by rewrite decide_True. }
    + done.
    + split; cbn; [by rewrite lookup_insert_eq|]. intros q [= <-]. apply released. by right.
  - unfold triggerDocumentationLookup.
    rewrite (debounced_armed (KContext7 l ty) t0) by done.
    rewrite bool_decide_eq_false_2 by lia.
    eexists; split; [|split].
    2:{ unfold triggersFor. cbn. rewrite filter_app. cbn.
        by rewrite decide_True. }
    + done.
    + split; cbn; [by rewrite lookup_insert_eq | done].
  - unfold triggerRikaTest.
    rewrite (debounced_armed (KRika port) t0) by done.
    rewrite bool_decide_eq_false_2 by lia.
    eexists; split; [|split].
    2:{ unfold triggersFor. cbn. rewrite filter_app. cbn.
        by rewrite decide_True. }
    + done.
    + split; cbn; [by rewrite lookup_insert_eq | done].
Qed.

(** A call that emitted a trigger for [k] has armed [k] at its own time. *)
Lemma fired_armed k self c :
  callKey c = Some k → triggersFor k (step self c) ≠ triggersFor k self →
  armed k (callTime c) (step self c).
Proof.
  intros Hk Hfired.
  destruct c as [now p params|now l q ty|now port p|now e]; cbn in Hk; simplify_eq;
    cbn [step callTime keyString] in *.
  - unfold triggerSequentialAnalysis in *.
    case_bool_decide; [done|]. destruct (debounced _ _ _ _); [done|].
    split; cbn; [by rewrite lookup_insert_eq|]. intros q [= <-]. apply released. by right.
  - unfold triggerDocumentationLookup in *.
    destruct (debounced _ _ _ _); [done|].
    split; cbn; [by rewrite lookup_insert_eq | done].
  - unfold triggerRikaTest in *.
    destruct (debounced _ _ _ _); [done|].
    split; cbn; [by rewrite lookup_insert_eq | done].
Qed.

Lemma run_absorbs k t0 calls self :
  armed k t0 self →
  Forall (λ c, callKey c = Some k → (callTime c - t0 < window k)%Z) calls →
  triggersFor k (run self calls) = triggersFor k self ∧ armed k t0 (run self calls).
Proof.
  intros Harmed Hcalls. revert self Harmed.
  induction Hcalls as [|c calls Hc _ IH]; intros self Harmed; [done|].
  cbn [run foldl]. fold (run (step self c) calls).
  destruct (decide (callKey c = Some k)) as [Hk|Hk].
  - destruct (step_absorbed k t0 self c Harmed Hk (Hc Hk)) as (He & Hl & Ha).
    assert (Harmed' : armed k t0 (step self c)).
    { destruct Harmed as [H1 H2]. split; [by rewrite Hl | by rewrite Ha]. }
    destruct (IH _ Harmed') as [-> ?]. split; [|done].
    unfold triggersFor. by rewrite He.
  - destruct (step_other k t0 self c Harmed Hk) as [Ht Harmed'].
    destruct (IH _ Harmed') as [-> ?]. by split.
Qed.

(** A qualifying event for an idle key fires: it emits the trigger it asks
    for, and nothing else, and records its own time. *)
Lemma step_fires_idle k self c :
  callKey c = Some k → Spec.idle k (callTime c) self = true →
  ∃ e, Spec.triggerOf c = Some e ∧ emittedKey e = Some k
       ∧ emitted (step self c) = emitted self ++ [e]
       ∧ armed k (callTime c) (step self c).
Proof.
  intros Hk [Hrec Hact]%andb_prop.
  destruct c as [now p params|now l q ty|now port p|now e]; cbn in Hk; simplify_eq;
    cbn [step callTime window keyString Spec.triggerOf] in *.
  - apply bool_decide_eq_true_1 in Hact.
    unfold triggerSequentialAnalysis.
    rewrite bool_decide_eq_false_2 by done.
    assert (Hd : debounced self (sequentialKey p) now sequentialDebounceMs = false).
    { unfold debounced. destruct (lastTriggers self !! sequentialKey p); [|done].
      apply bool_decide_eq_true_1 in Hrec. apply bool_decide_eq_false_2. lia. }
    rewrite Hd. eexists. split; [done|]. split; [done|]. split; [done|].
    split; cbn; [by rewrite lookup_insert_eq|]. intros q [= <-]. apply released. by right.
  - unfold triggerDocumentationLookup.
    assert (Hd : debounced self (context7Key l ty) now context7DebounceMs = false).
    { unfold debounced. destruct (lastTriggers self !! context7Key l ty); [|done].
      apply bool_decide_eq_true_1 in Hrec. apply bool_decide_eq_false_2. lia. }
    rewrite Hd. eexists. split; [done|]. split; [done|]. split; [done|].
    split; cbn; [by rewrite lookup_insert_eq | done].
  - unfold triggerRikaTest.
    assert (Hd : debounced self (rikaKey port) now rikaDebounceMs = false).
    { unfold debounced. destruct (lastTriggers self !! rikaKey port); [|done].
      apply bool_decide_eq_true_1 in Hrec. apply bool_decide_eq_false_2. lia. }
    rewrite Hd. eexists. split; [done|]. split; [done|]. split; [done|].
    split; cbn; [by rewrite lookup_insert_eq | done].
Qed.

(** A key whose firing at [t0] is a full window old is idle. *)
Lemma armed_idle k t0 now self :
  armed k t0 self → (window k ≤ now - t0)%Z → Spec.idle k now self = true.
Proof.
  intros [Hlast Hact] Hge. unfold Spec.idle. rewrite Hlast.
  rewrite bool_decide_eq_true_2 by done. cbn [andb].
  destruct k as [p| |]; [|done|done]. apply bool_decide_eq_true_2. by apply Hact.
Qed.

(** C8 (as the code has it).  The keys under which firings are recorded are
    the sequential analysis of a pane (one key for the single-error, the
    multi-error and the crash analysis of that pane, window 5 minutes), the
    documentation lookup of a library and lookup type (10 minutes) and the
    UI test of a port (2 minutes).  A qualifying event for a key that is
    idle fires: it emits its trigger, and nothing else.  From then on every
    qualifying event for the key that arrives less than the window after
    the firing emits nothing for the key and leaves the recorded time where
    it was, whatever calls for other keys come in between; and a qualifying
    event for the key that arrives a full window after the firing emits its
    trigger again. *)
Theorem C8_cooldown_per_recorded_key
    (self : t) (c0 : Call) (k : TriggerKey) (calls : list Call) :
  callKey c0 = Some k →
  Spec.idle k (callTime c0) self = true →
  Forall (λ c, callKey c = Some k → (callTime c - callTime c0 < window k)%Z) calls →
  let fired := step self c0 in
  let later := run fired calls in
  (∃ e, Spec.triggerOf c0 = Some e ∧ emittedKey e = Some k
        ∧ emitted fired = emitted self ++ [e])
  ∧ triggersFor k later = triggersFor k fired
  ∧ lastTriggers later !! keyString k = Some (callTime c0)
  ∧ ∀ c, callKey c = Some k → (window k ≤ callTime c - callTime c0)%Z →
         ∃ e, Spec.triggerOf c = Some e ∧ emittedKey e = Some k
              ∧ emitted (step later c) = emitted later ++ [e].
Proof.
  intros Hk Hidle Hcalls fired later.
  destruct (step_fires_idle k self c0 Hk Hidle) as (e0 & He0 & Hk0 & Hemit & Harmed).
  destruct (run_absorbs k (callTime c0) calls fired Harmed Hcalls) as [Hsame Harmed'].
  split; [by exists e0|]. split; [done|]. split; [apply Harmed'|].
  intros c Hc Hge.
  pose proof (armed_idle k (callTime c0) (callTime c) later Harmed' Hge) as Hidle'.
  destruct (step_fires_idle k later c Hc Hidle') as (e & He & Hke & Hemit' & _).
  by exists e.
Qed.

Lemma C8_cooldown_per_recorded_key_witness :
  let holds self c0 k calls :=
    let fired := step self c0 in
    let later := run fired calls in
    (callKey c0 = Some k ∧ Spec.idle k (callTime c0) self = true
     ∧ Forall (λ c, callKey c = Some k → (callTime c - callTime c0 < window k)%Z) calls)
    ∧ (∃ e, Spec.triggerOf c0 = Some e ∧ emittedKey e = Some k
            ∧ emitted fired = emitted self ++ [e])
    ∧ triggersFor k later = triggersFor k fired
    ∧ lastTriggers later !! keyString k = Some (callTime c0)
    ∧ ∀ c, callKey c = Some k → (window k ≤ callTime c - callTime c0)%Z →
           ∃ e, Spec.triggerOf c = Some e ∧ emittedKey e = Some k
                ∧ emitted (step later c) = emitted later ++ [e] in
  holds (create defaultConfig)
    (Sequential 1000 (lit "dev:0.0") (error_analysis Spec.sample_error))
    (KSequential (lit "dev:0.0"))
    [ Sequential 1001 (lit "dev:0.0") (error_analysis Spec.sample_error);
      Context7 1002 (lit "typescript") (lit "TS2339") doc_error;
      Sequential 300999 (lit "dev:0.0") (multiple_errors_analysis [Spec.sample_error]) ]
  ∧ holds (create defaultConfig)
      (Context7 1000 (lit "typescript") (lit "TS2339") doc_error)
      (KContext7 (lit "typescript") doc_error)
      [ Context7 2000 (lit "typescript") (lit "TS2551") doc_error;
        Sequential 3000 (lit "dev:0.0") (error_analysis Spec.sample_error);
        Context7 600999 (lit "typescript") (lit "TS2339") doc_error ]
  ∧ holds (create defaultConfig)
      (Rika 1000 3000 (Some (lit "dev:0.0")))
      (KRika 3000)
      [ Rika 1001 3000 None; Rika 5000 8080 None; Rika 120999 3000 None ].
Proof.
  cbv zeta.
  assert (H1 : Forall (λ c, callKey c = Some (KSequential (lit "dev:0.0")) →
                            (callTime c - 1000 < sequentialDebounceMs)%Z)
    [ Sequential 1001 (lit "dev:0.0") (error_analysis Spec.sample_error);
      Context7 1002 (lit "typescript") (lit "TS2339") doc_error;
      Sequential 300999 (lit "dev:0.0") (multiple_errors_analysis [Spec.sample_error]) ])
    by (repeat constructor; intros _; vm_compute; reflexivity).
  assert (H2 : Forall (λ c, callKey c = Some (KContext7 (lit "typescript") doc_error) →
                            (callTime c - 1000 < context7DebounceMs)%Z)
    [ Context7 2000 (lit "typescript") (lit "TS2551") doc_error;
      Sequential 3000 (lit "dev:0.0") (error_analysis Spec.sample_error);
      Context7 600999 (lit "typescript") (lit "TS2339") doc_error ])
    by (repeat constructor; intros _; vm_compute; reflexivity).
  assert (H3 : Forall (λ c, callKey c = Some (KRika 3000) →
                            (callTime c - 1000 < rikaDebounceMs)%Z)
    [ Rika 1001 3000 None; Rika 5000 8080 None; Rika 120999 3000 None ])
    by (repeat constructor; intros _; vm_compute; reflexivity).
  split; [|split].
  - split; [split; [reflexivity | split; [reflexivity | exact H1]]|].
    exact (C8_cooldown_per_recorded_key (create defaultConfig)
             (Sequential 1000 (lit "dev:0.0") (error_analysis Spec.sample_error))
             (KSequential (lit "dev:0.0")) _ eq_refl eq_refl H1).
  - split; [split; [reflexivity | split; [reflexivity | exact H2]]|].
    exact (C8_cooldown_per_recorded_key (create defaultConfig)
             (Context7 1000 (lit "typescript") (lit "TS2339") doc_error)
             (KContext7 (lit "typescript") doc_error) _ eq_refl eq_refl H2).
  - split; [split; [reflexivity | split; [reflexivity | exact H3]]|].
    exact (C8_cooldown_per_recorded_key (create defaultConfig)
             (Rika 1000 3000 (Some (lit "dev:0.0")))
             (KRika 3000) _ eq_refl eq_refl H3).
Defined.

(** C8, as stated, fails.  The single-error, multi-error and crash analyses
    of a pane are recorded under one key.  A crash analysis fires at time
    0; five minutes later an error analysis of the same pane fires and
    moves the shared record; the crash that follows a minute after that is
    absorbed, although no crash analysis has fired for six minutes and the
    window is five: only the [mcp_event] is emitted. *)
Lemma C8_categories_share_one_record :
  let pane := lit "dev:0.0" in
  let health :=
    {| h_paneId := pane; h_processName := lit "node"; h_pid := 4242;
       h_restartCount := 0 |} in
  let crashed := handleProcessCrash 0 health (create defaultConfig) in
  let failed := handleError 300000 Spec.sample_error crashed in
  let again := handleProcessCrash 360000 health failed in
  Spec.triggersOf Spec.process_crash_analysis pane crashed
  = [trigger_sequential pane (crash_analysis health) 0]
  ∧ Spec.triggersOf Spec.single_error_analysis pane failed
    = [trigger_sequential pane (error_analysis Spec.sample_error) 300000]
  ∧ Spec.triggersOf Spec.process_crash_analysis pane failed
    = Spec.triggersOf Spec.process_crash_analysis pane crashed
  ∧ (sequentialDebounceMs ≤ 360000 - 0)%Z
  ∧ Spec.triggersOf Spec.process_crash_analysis pane again
    = Spec.triggersOf Spec.process_crash_analysis pane crashed
  ∧ emitted again = emitted failed ++ [mcp_event (lit "process_crashed") pane 360000].
Proof. repeat split; vm_compute; (reflexivity || discriminate). Qed.

(** The scenario of the integrator's test: the same error handled twice in
    a row requests one analysis. *)
Example handleError_twice_one_trigger :
  let once := handleError 1000 Spec.sample_error (create defaultConfig) in
  let twice := handleError 1001 Spec.sample_error once in
  length (triggersFor (KSequential (lit "dev:0.0")) once) = 1
  ∧ length (triggersFor (KSequential (lit "dev:0.0")) twice) = 1.
Proof. split; vm_compute; reflexivity. Qed.

End Cooldown.

Section Marks.
Import McpIntegrator.

Lemma triggerSequentialAnalysis_unmarks now paneId params self :
  activeAnalyses self = ∅ →
  activeAnalyses (triggerSequentialAnalysis now paneId params self) = ∅.
Proof.
  intros Hq. unfold triggerSequentialAnalysis.
  case_bool_decide; [done|]. destruct (debounced _ _ _ _); [done|].
  cbn. rewrite Hq. apply set_eq. intros x.
  rewrite elem_of_difference, elem_of_union. split; [|by intros ?%elem_of_empty].
  intros [[?|?%elem_of_empty] ?]; done.
Qed.

Lemma triggerDocumentationLookup_marks now library query type self :
  activeAnalyses (triggerDocumentationLookup now library query type self)
  = activeAnalyses self.
Proof. unfold triggerDocumentationLookup. by destruct (debounced _ _ _ _). Qed.

Lemma triggerRikaTest_marks now port paneId self :
  activeAnalyses (triggerRikaTest now port paneId self) = activeAnalyses self.
Proof. unfold triggerRikaTest. by destruct (debounced _ _ _ _). Qed.

Lemma isNewErrorPattern_marks now entry self :
  activeAnalyses (isNewErrorPattern now entry self).2 = activeAnalyses self.
Proof.
  unfold isNewErrorPattern.
  by destruct (lastTriggers self !! noveltyKey entry); [case_bool_decide|].
Qed.

(** The mark of an active analysis is set and removed within one call:
    between the calls of the integrator no analysis is marked active. *)
Lemma no_analysis_stays_active self :
  activeAnalyses self = ∅ →
  (∀ c, activeAnalyses (step self c) = ∅)
  ∧ (∀ now entry, activeAnalyses (handleError now entry self) = ∅)
  ∧ (∀ now paneId entries, activeAnalyses (handleMultipleErrors now paneId entries self) = ∅)
  ∧ (∀ now health, activeAnalyses (handleProcessCrash now health self) = ∅)
  ∧ (∀ now port opened paneId, activeAnalyses (handlePortChange now port opened paneId self) = ∅)
  ∧ activeAnalyses (clearHistory self) = ∅.
Proof.
  intros Hq. split; [|split; [|split; [|split; [|split]]]].
  - intros [now p params|now l q ty|now port p|now e]; cbn [step].
    + by apply triggerSequentialAnalysis_unmarks.
    + by rewrite triggerDocumentationLookup_marks.
    + by rewrite triggerRikaTest_marks.
    + by rewrite isNewErrorPattern_marks.
  - intros now entry. unfold handleError. cbn zeta.
    set (self1 := emit _ _).
    set (self2 := if _ && _ then _ else self1).
    assert (H2 : activeAnalyses self2 = ∅).
    { subst self2. destruct (_ && _); [by apply triggerSequentialAnalysis_unmarks | done]. }
    clearbody self2. clear self1.
    destruct (context7Docs_enabled (config self2) && onErrorPattern (config self2));
      [|done].
    destruct (given (e_language entry)); [|done].
    destruct (isNewErrorPattern now entry self2) as [fresh self3] eqn:E.
    assert (H3 : activeAnalyses self3 = ∅).
    { pose proof (isNewErrorPattern_marks now entry self2) as H. rewrite E in H. cbn in H.
      by rewrite H. }
    destruct fresh; [by rewrite triggerDocumentationLookup_marks | done].
  - intros now paneId entries. unfold handleMultipleErrors. cbn zeta.
    destruct (_ && _); [by apply triggerSequentialAnalysis_unmarks | done].
  - intros now health. unfold handleProcessCrash. cbn zeta.
    destruct (_ && _); [by apply triggerSequentialAnalysis_unmarks | done].
  - intros now port opened paneId. unfold handlePortChange.
    destruct (_ || _); [done|]. cbn zeta.
    destruct (_ && _); [by rewrite triggerRikaTest_marks | done].
  - done.
Qed.

End Marks.

(** ** The integrator's switches, its novelty check and its reset *)

Section Switches.
Import McpIntegrator.

(** X21.  The novelty check looks at the type of an error and the first
    fifty units of its message.  Once an error was reported as new at time
    [now], every error of that type whose message starts with the same
    fifty units is reported as known until more than thirty minutes have
    passed; at exactly thirty minutes it is still known. *)
Theorem isNewErrorPattern_window
    (now later : Z) (entry other : ErrorEntry) (self : t) :
  (isNewErrorPattern now entry self).1 = true →
  e_type other = e_type entry →
  take 50 (e_message other) = take 50 (e_message entry) →
  (isNewErrorPattern later other (isNewErrorPattern now entry self).2).1
  = bool_decide (30 * 60 * 1000 < later - now)%Z.
Proof.
  intros Hnew Hty Hmsg.
  assert (Hkey : noveltyKey other = noveltyKey entry)
    by (unfold noveltyKey; by rewrite Hty, Hmsg).
  assert (Hseen : lastTriggers (isNewErrorPattern now entry self).2 !! noveltyKey entry
                  = Some now).
  { revert Hnew. unfold isNewErrorPattern.
    destruct (lastTriggers self !! noveltyKey entry); [case_bool_decide|];
      cbn; try done; intros _; apply lookup_insert_eq. }
  unfold isNewErrorPattern at 1. rewrite Hkey, Hseen.
  case_bool_decide as H1; case_bool_decide as H2; cbn; try done; lia.
Qed.

Lemma isNewErrorPattern_window_witness :
  let seen :=
    {| e_id := lit "dev:0.0:1000:a"; e_paneId := lit "dev:0.0"; e_file := None;
       e_line := None; e_column := None;
       e_message := lit "Cannot find module './components/Button' or its corresponding type declarations.";
       e_type := error; e_language := Some (lit "typescript"); e_timestamp := 1000 |} in
  let other :=
    {| e_id := lit "dev:0.1:2000:b"; e_paneId := lit "dev:0.1"; e_file := None;
       e_line := None; e_column := None;
       e_message := lit "Cannot find module './components/Button' or its copy.";
       e_type := error; e_language := Some (lit "typescript"); e_timestamp := 2000 |} in
  (isNewErrorPattern (1000 + 30 * 60 * 1000) other
     (isNewErrorPattern 1000 seen (create defaultConfig)).2).1
  = bool_decide (30 * 60 * 1000 < 1000 + 30 * 60 * 1000 - 1000)%Z.
Proof.
  cbv zeta.
  apply (isNewErrorPattern_window 1000 (1000 + 30 * 60 * 1000)).
  - reflexivity.
  - reflexivity.
  - reflexivity.
Defined.

Lemma triggersFor_log k level msg self :
  triggersFor k (log level msg self) = triggersFor k self.
Proof. reflexivity. Qed.

(** X22.  [clearHistory] ends every cooldown: whatever was recorded, the
    next qualifying event of any key emits its trigger. *)
Theorem clearHistory_ends_every_cooldown (self : t) (c : Call) (k : TriggerKey) :
  callKey c = Some k →
  ∃ e, emittedKey e = Some k
       ∧ triggersFor k (step (clearHistory self) c) = triggersFor k self ++ [e].
Proof.
  intros Hk.
  destruct c as [now p params|now l q ty|now port p|now e]; cbn in Hk; simplify_eq;
    cbn [step].
  - unfold triggerSequentialAnalysis, clearHistory, debounced.
    cbn [activeAnalyses lastTriggers log].
    rewrite bool_decide_eq_false_2 by apply not_elem_of_empty.
    rewrite lookup_empty. eexists. split; [|unfold triggersFor; cbn; rewrite filter_app;
      cbn; by rewrite decide_True]. done.
  - unfold triggerDocumentationLookup, clearHistory, debounced.
    cbn [activeAnalyses lastTriggers log]. rewrite lookup_empty.
    eexists. split; [|unfold triggersFor; cbn; rewrite filter_app;
      cbn; by rewrite decide_True]. done.
  - unfold triggerRikaTest, clearHistory, debounced.
    cbn [activeAnalyses lastTriggers log]. rewrite lookup_empty.
    eexists. split; [|unfold triggersFor; cbn; rewrite filter_app;
      cbn; by rewrite decide_True]. done.
Qed.

Lemma clearHistory_ends_every_cooldown_witness :
  ∃ e, emittedKey e = Some (KSequential (lit "dev:0.0"))
       ∧ triggersFor (KSequential (lit "dev:0.0"))
           (step (clearHistory
                    (step (create defaultConfig)
                       (Sequential 1000 (lit "dev:0.0") (error_analysis Spec.sample_error))))
              (Sequential 1001 (lit "dev:0.0") (error_analysis Spec.sample_error)))
         = triggersFor (KSequential (lit "dev:0.0"))
             (step (create defaultConfig)
                (Sequential 1000 (lit "dev:0.0") (error_analysis Spec.sample_error)))
           ++ [e].
Proof.
  apply (clearHistory_ends_every_cooldown
           (step (create defaultConfig)
              (Sequential 1000 (lit "dev:0.0") (error_analysis Spec.sample_error)))
           (Sequential 1001 (lit "dev:0.0") (error_analysis Spec.sample_error))
           (KSequential (lit "dev:0.0"))).
  reflexivity.
Defined.

(** The triggers among the emitted events. *)
Lemma triggers_sequential_skipped now paneId params self :
  (∀ k, k ≠ KSequential paneId →
        triggersFor k (triggerSequentialAnalysis now paneId params self) = triggersFor k self).
Proof.
  intros k Hk. unfold triggerSequentialAnalysis.
  case_bool_decide; [done|]. destruct (debounced _ _ _ _); [done|].
  unfold triggersFor. cbn. rewrite filter_app. cbn.
  rewrite decide_False by congruence. by rewrite app_nil_r.
Qed.

Lemma triggers_documentation_skipped now library query type self :
  (∀ k, k ≠ KContext7 library type →
        triggersFor k (triggerDocumentationLookup now library query type self)
        = triggersFor k self).
Proof.
  intros k Hk. unfold triggerDocumentationLookup.
  destruct (debounced _ _ _ _); [done|].
  unfold triggersFor. cbn. rewrite filter_app. cbn.
  rewrite decide_False by congruence. by rewrite app_nil_r.
Qed.

Lemma isNewErrorPattern_emitted now entry self :
  emitted (isNewErrorPattern now entry self).2 = emitted self.
Proof.
  unfold isNewErrorPattern.
  by destruct (lastTriggers self !! noveltyKey entry); [case_bool_decide|].
Qed.

(** X23.  The switches are obeyed.  With sequential thinking switched off
    no handler emits a sequential trigger; with the documentation lookup
    switched off [handleError] emits no lookup and records no sighting; a
    batch of fewer errors than the configured number emits nothing; and
    with UI testing or its port trigger switched off, as by default,
    [handlePortChange] does nothing at all. *)
Theorem switched_off_features_stay_silent (now : Z) (self : t) :
  (sequentialThinking_enabled (config self) = false →
   ∀ p entry entries paneId health,
     triggersFor (KSequential p) (handleError now entry self)
     = triggersFor (KSequential p) self
     ∧ triggersFor (KSequential p) (handleMultipleErrors now paneId entries self)
       = triggersFor (KSequential p) self
     ∧ triggersFor (KSequential p) (handleProcessCrash now health self)
       = triggersFor (KSequential p) self)
  ∧ (context7Docs_enabled (config self) = false →
     ∀ library type entry,
       triggersFor (KContext7 library type) (handleError now entry self)
       = triggersFor (KContext7 library type) self
       ∧ lastTriggers (handleError now entry self) !! noveltyKey entry
         = lastTriggers self !! noveltyKey entry)
  ∧ (∀ paneId entries,
       (Z.of_nat (length entries) < onMultipleErrors (config self))%Z →
       emitted (handleMultipleErrors now paneId entries self) = emitted self
       ∧ lastTriggers (handleMultipleErrors now paneId entries self) = lastTriggers self)
  ∧ (rikaTesting_enabled (config self) = false ∨ onPortChange (config self) = false →
     ∀ port opened paneId, handlePortChange now port opened paneId self = self).
Proof.
  split; [|split; [|split]].
  - intros Hoff p entry entries paneId health. split; [|split].
    + unfold handleError. cbn [config log emit]. rewrite Hoff. cbn [andb config log emit].
      destruct (context7Docs_enabled (config self) && onErrorPattern (config self));
        [|by unfold triggersFor; cbn [emitted emit log]; rewrite filter_app, app_nil_r].
      destruct (given (e_language entry)) as [language|];
        [|by unfold triggersFor; cbn [emitted emit log]; rewrite filter_app, app_nil_r].
      destruct (isNewErrorPattern now entry _) as [fresh self3] eqn:E.
      assert (He : emitted self3 = emitted self ++ [mcp_event (lit "error_detected")
                                                     (e_paneId entry) now]).
      { change self3 with (fresh, self3).2. rewrite <- E.
        by rewrite isNewErrorPattern_emitted. }
      destruct fresh.
      * rewrite triggers_documentation_skipped by done.
        unfold triggersFor. rewrite He, filter_app. cbn. by rewrite app_nil_r.
      * unfold triggersFor. rewrite He, filter_app. cbn. by rewrite app_nil_r.
    + unfold handleMultipleErrors. cbn [config log]. by rewrite Hoff.
    + unfold handleProcessCrash. cbn [config log emit]. rewrite Hoff. cbn [andb].
      unfold triggersFor. cbn [emitted emit log]. by rewrite filter_app, app_nil_r.
  - intros Hoff library type entry. unfold handleError.
    destruct (sequentialThinking_enabled _ && onError _) eqn:Hseq.
    + assert (Hcfg : config (triggerSequentialAnalysis now (e_paneId entry)
                               (error_analysis entry)
                               (emit (mcp_event (lit "error_detected") (e_paneId entry) now)
                                  (log DEBUG (lit "Processing error event for pane "
                                              ++ e_paneId entry ++ lit ": "
                                              ++ e_message entry) self)))
                     = config self).
      { unfold triggerSequentialAnalysis. case_bool_decide; [done|].
        by destruct (debounced _ _ _ _). }
      rewrite Hcfg, Hoff. cbn [andb]. split.
      * rewrite triggers_sequential_skipped by done.
        unfold triggersFor. cbn [emitted emit log]. by rewrite filter_app, app_nil_r.
      * unfold triggerSequentialAnalysis. case_bool_decide; [done|].
        destruct (debounced _ _ _ _); [done|]. cbn.
        rewrite lookup_insert_ne; [done|].
        apply (keyString_novelty (KSequential (e_paneId entry))).
    + cbn [config log emit]. rewrite Hoff. cbn [andb]. split; [|done].
      unfold triggersFor. cbn [emitted emit log]. by rewrite filter_app, app_nil_r.
  - intros paneId entries Hfew. unfold handleMultipleErrors. cbn [config log].
    rewrite (bool_decide_eq_false_2 (_ ≤ _)%Z) by lia. by rewrite andb_false_r.
  - intros Hoff port opened paneId. unfold handlePortChange.
    by destruct Hoff as [-> | ->]; rewrite ?orb_true_r.
Qed.

End Switches.

(** ** Error queries ([ErrorWatcher]) *)

Section ErrorQueries.

Import ErrorWatcher.

Lemma update_errorCache fw bw cache panes events logs self :
  errorCache (update fw bw cache panes events logs self) = cache.
Proof. reflexivity. Qed.

Lemma update_watchedPanes fw bw cache panes events logs self :
  watchedPanes (update fw bw cache panes events logs self) = panes.
Proof. reflexivity. Qed.

Lemma startBuildWatcher_errorCache pane self :
  errorCache (startBuildWatcher pane self) = errorCache self.
Proof.
  unfold startBuildWatcher.
  destruct (detectLanguage (command pane)); [|done].
  by destruct (JsMap.get _ buildCommands).
Qed.

Lemma startBuildWatcher_watchedPanes pane self :
  watchedPanes (startBuildWatcher pane self) = watchedPanes self.
Proof.
  unfold startBuildWatcher.
  destruct (detectLanguage (command pane)); [|done].
  by destruct (JsMap.get _ buildCommands).
Qed.

(** Starting a watch never creates a cache entry. *)
Lemma startWatching_errorCache fs pane self :
  errorCache (startWatching fs pane self).2 = errorCache self.
Proof.
  unfold startWatching. case_bool_decide; [done|].
  match goal with |- context [if fst ?w then _ else _] => destruct (fst w) end;
    cbn [snd]; rewrite ?update_errorCache, ?startBuildWatcher_errorCache; done.
Qed.

Lemma startWatching_watchedPanes fs pane self :
  id pane ∉ watchedPanes self →
  watchedPanes (startWatching fs pane self).2 = watchedPanes self ++ [id pane].
Proof.
  intros Hnot. unfold startWatching. case_bool_decide; [done|].
  match goal with |- context [if fst ?w then _ else _] => destruct (fst w) end;
    cbn [snd]; rewrite ?update_watchedPanes, ?startBuildWatcher_watchedPanes,
                 ?update_watchedPanes; unfold setAdd; cbn [watchedPanes update];
    by case_bool_decide.
Qed.

(** C9 (as the code has it).  For a target without cached errors,
    [getErrors] and [getErrorSummary] answer the same before and after
    [startWatching]: the empty list and the all-zero summary.  The watch is
    visible only in [getWatchedPanes]. *)
Theorem C9_queries_do_not_show_the_watch
    (fs : FileWatcher.Fs) (pane : TmuxPane) (self : t) :
  truthy (id pane) = true →
  id pane ∉ watchedPanes self →
  JsMap.get (id pane) (errorCache self) = None →
  let watched := (startWatching fs pane self).2 in
  getErrors (id pane) watched = [] ∧ getErrors (id pane) self = []
  ∧ getErrorSummary (Some (id pane)) watched = Spec.no_errors
  ∧ getErrorSummary (Some (id pane)) self = Spec.no_errors
  ∧ id pane ∈ getWatchedPanes watched
  ∧ id pane ∉ getWatchedPanes self.
Proof.
  intros Hid Hnot Hnone watched.
  assert (Hcache : errorCache watched = errorCache self)
    by apply startWatching_errorCache.
  unfold getErrors, getErrorSummary, getWatchedPanes, given.
  rewrite Hid, Hcache, Hnone. cbn.
  repeat split; try done.
  subst watched. rewrite startWatching_watchedPanes by done.
  apply elem_of_app. right. by apply list_elem_of_singleton.
Qed.

Lemma C9_queries_do_not_show_the_watch_witness :
  let fs := Spec.one_file (lit "/logs/dev_0_0.log") [] in
  let self := create defaultOptions in
  let watched := (startWatching fs Spec.dev_pane self).2 in
  getErrors (lit "dev:0.0") watched = [] ∧ getErrors (lit "dev:0.0") self = []
  ∧ getErrorSummary (Some (lit "dev:0.0")) watched = Spec.no_errors
  ∧ getErrorSummary (Some (lit "dev:0.0")) self = Spec.no_errors
  ∧ lit "dev:0.0" ∈ getWatchedPanes watched
  ∧ lit "dev:0.0" ∉ getWatchedPanes self.
Proof.
  apply (C9_queries_do_not_show_the_watch
           (Spec.one_file (lit "/logs/dev_0_0.log") []) Spec.dev_pane
           (create defaultOptions)).
  - reflexivity.
  - apply (bool_decide_unpack _). vm_compute. reflexivity.
  - reflexivity.
Defined.

(** C9, as stated, fails: a target that is watched and has produced no
    error and a target that was never watched get equal answers from both
    queries. *)
Lemma C9_watched_and_unwatched_look_alike :
  let fs := Spec.one_file (lit "/logs/dev_0_0.log") [] in
  let never := create defaultOptions in
  let started := startWatching fs Spec.dev_pane never in
  started.1 = true
  ∧ getWatchedPanes started.2 = [lit "dev:0.0"]
  ∧ getWatchedPanes never = []
  ∧ getErrors (lit "dev:0.0") started.2 = getErrors (lit "dev:0.0") never
  ∧ getErrorSummary (Some (lit "dev:0.0")) started.2
    = getErrorSummary (Some (lit "dev:0.0")) never.
Proof. repeat split; vm_compute; reflexivity. Qed.

End ErrorQueries.

(** ** The error watcher's cache and events *)

Section ErrorCache.
Import ErrorWatcher.

(** X24.  The history of a pane holds its last hundred entries.
    [addError] appends the entry to the history of the entry's pane and
    drops the oldest entries beyond one hundred; the histories of other
    panes are not touched. *)
Theorem addError_keeps_the_last_hundred (entry : ErrorEntry) (self : t) :
  let before := getErrors (e_paneId entry) self in
  let after := getErrors (e_paneId entry) (addError entry self) in
  after = drop (length (before ++ [entry]) - 100) (before ++ [entry])
  ∧ length after ≤ 100
  ∧ last after = Some entry
  ∧ ∀ paneId, paneId ≠ e_paneId entry →
      getErrors paneId (addError entry self) = getErrors paneId self.
Proof.
  cbn zeta. unfold getErrors, addError. cbn [errorCache update].
  rewrite get_set_eq.
  set (all := default [] (JsMap.get (e_paneId entry) (errorCache self)) ++ [entry]).
  assert (Hkept : (if bool_decide (100 < length all) then drop (length all - 100) all else all)
                  = drop (length all - 100) all).
  { case_bool_decide; [done|]. replace (length all - 100) with 0 by lia. done. }
  rewrite Hkept. cbn [default]. unfold Datatypes.id. split; [done|]. split; [rewrite length_drop; lia|]. split.
  - subst all. rewrite length_app. cbn [length].
    rewrite drop_app_le by lia. apply last_snoc.
  - intros paneId Hne. by rewrite get_set_ne.
Qed.

Lemma matchFirst_entry now salt ps line paneId language entry :
  matchFirst now salt ps line paneId language = Some entry →
  e_paneId entry = paneId
  ∧ (∃ p, p ∈ ps ∧ e_type entry = ep_type p)
  ∧ (∀ l, language = Some l → truthy l = true → e_language entry = Some l).
Proof.
  induction ps as [|p ps IH]; [done|]. cbn [matchFirst].
  assert (Hrest : matchFirst now salt ps line paneId language = Some entry →
            e_paneId entry = paneId
            ∧ (∃ p0, p0 ∈ p :: ps ∧ e_type entry = ep_type p0)
            ∧ (∀ l, language = Some l → truthy l = true → e_language entry = Some l)).
  { intros (H1 & (q & Hq & H2) & H3)%IH. split; [done|]. split; [|done].
    exists q. split; [by apply list_elem_of_further | done]. }
  destruct (given language) as [l0|] eqn:Hl; destruct (given (ep_language p)) as [pl|] eqn:Hpl.
  - case_bool_decide as Hskip; [exact Hrest|].
    destruct (exec (ep_regex p) line) as [m|]; [|exact Hrest].
    intros [= <-]. cbn. split; [done|]. split; [exists p; split; [apply list_elem_of_here|done]|].
    intros l -> Ht. cbn in Hl. rewrite Ht in Hl. injection Hl as <-.
    f_equal. apply dec_stable. by intros ?.
  - destruct (exec (ep_regex p) line) as [m|]; [|exact Hrest].
    intros [= <-]. cbn. split; [done|]. split; [exists p; split; [apply list_elem_of_here|done]|].
    done.
  - destruct (exec (ep_regex p) line) as [m|]; [|exact Hrest].
    intros [= <-]. cbn. split; [done|]. split; [exists p; split; [apply list_elem_of_here|done]|].
    intros l -> Ht. cbn in Hl. by rewrite Ht in Hl.
  - destruct (exec (ep_regex p) line) as [m|]; [|exact Hrest].
    intros [= <-]. cbn. split; [done|]. split; [exists p; split; [apply list_elem_of_here|done]|].
    intros l -> Ht. cbn in Hl. by rewrite Ht in Hl.
Qed.

(** The events that [announce] emits for an entry. *)
Lemma announce_emitted entry self :
  emitted (announce entry self)
  = emitted self ++ match e_type entry with
                    | error => [EvError entry]
                    | warning => [EvWarning entry]
                    | info => []
                    end.
Proof. reflexivity. Qed.

(** What a run of [processLines] for [paneId] does: it keeps the patterns,
    the watches and the file watcher, it leaves the cache of every other
    pane alone, and it emits the events of the entries that the pattern
    list gave for lines of the text, in order. *)
Lemma processLines_run now salt text paneId language self :
  let self' := processLines now salt text paneId language self in
  patterns self' = patterns self
  ∧ watchedPanes self' = watchedPanes self
  ∧ fileWatcher self' = fileWatcher self
  ∧ (∀ q, q ≠ paneId → getErrors q self' = getErrors q self)
  ∧ ∃ entries,
      emitted self'
      = emitted self ++ (entries ≫= λ entry, match e_type entry with
                                             | error => [EvError entry]
                                             | warning => [EvWarning entry]
                                             | info => []
                                             end)
      ∧ Forall (λ entry, ∃ line,
                  matchFirst now salt (patterns self) line paneId language = Some entry)
          entries.
Proof.
  cbn zeta. unfold processLines.
  generalize (filter (λ line, truthy (trim line) = true) (split 10 text)). intros lines.
  revert self. induction lines as [|line lines IH]; intros self.
  - cbn [foldl]. repeat split; try done. exists []. by rewrite app_nil_r.
  - cbn [foldl].
    change (matchErrorPatterns now salt self line paneId language)
      with (matchFirst now salt (patterns self) line paneId language).
    destruct (matchFirst now salt (patterns self) line paneId language) as [entry|] eqn:E;
      [|apply IH].
    destruct (IH (announce entry (addError entry self)))
      as (Hp & Hw & Hf & Hq & entries & Hev & Hall).
    destruct (matchFirst_entry _ _ _ _ _ _ _ E) as (Hpane & _).
    split; [by rewrite Hp|]. split; [by rewrite Hw|]. split; [by rewrite Hf|]. split.
    + intros q Hne. rewrite (Hq q Hne). unfold getErrors, announce, addError.
      cbn [errorCache update]. rewrite get_set_ne by congruence. done.
    + exists (entry :: entries). split.
      * rewrite Hev, announce_emitted. cbn [emitted addError update].
        rewrite app_nil_r, bind_cons. by rewrite <- app_assoc.
      * constructor; [by exists line|]. exact Hall.
Qed.

(** Processing the output of one pane touches that pane only: the
    histories of other panes, the set of watched panes, the pattern list
    and the file watcher stay as they are, and every event emitted carries
    an entry filed under the pane. *)
Theorem processLines_touches_one_pane
    (now : Z) (salt text paneId : list N) (language : option (list N)) (self : t) :
  let self' := processLines now salt text paneId language self in
  patterns self' = patterns self
  ∧ watchedPanes self' = watchedPanes self
  ∧ fileWatcher self' = fileWatcher self
  ∧ (∀ q, q ≠ paneId → getErrors q self' = getErrors q self)
  ∧ ∃ news,
      emitted self' = emitted self ++ news
      ∧ Forall (λ ev, ∃ entry, (ev = EvError entry ∨ ev = EvWarning entry)
                               ∧ e_paneId entry = paneId) news.
Proof.
  destruct (processLines_run now salt text paneId language self)
    as (Hp & Hw & Hf & Hq & entries & Hev & Hall).
  cbn zeta. repeat (split; [done|]). eexists. split; [exact Hev|].
  apply Forall_bind. eapply Forall_impl; [exact Hall|].
  intros entry (line & (Hpane & _)%matchFirst_entry). unfold compose.
  destruct (e_type entry);
    [ apply Forall_singleton; exists entry; auto
    | apply Forall_singleton; exists entry; auto
    | apply Forall_nil_2 ].
Qed.

(** X25.  The seeded patterns of the error watcher are all of type error,
    the one for ESLint's [warning] lines included.  While no custom pattern
    of another type is added, every event that processing emits is an
    ['error'] event; a ['warning'] event is never emitted. *)
Theorem only_error_events_without_custom_patterns
    (now : Z) (salt text paneId : list N) (language : option (list N)) (self : t) :
  Forall (λ p, ep_type p = error) (patterns self) →
  ∃ news,
    emitted (processLines now salt text paneId language self) = emitted self ++ news
    ∧ Forall (λ ev, ∃ entry, ev = EvError entry ∧ e_type entry = error) news.
Proof.
  intros Hseeded.
  destruct (processLines_run now salt text paneId language self)
    as (_ & _ & _ & _ & entries & Hev & Hall).
  eexists. split; [exact Hev|].
  apply Forall_bind. eapply Forall_impl; [exact Hall|].
  intros entry (line & (_ & (p & Hp & Hty) & _)%matchFirst_entry). unfold compose.
  rewrite Forall_forall in Hseeded. rewrite Hty, (Hseeded p Hp).
  apply Forall_singleton. exists entry. split; [done|]. by rewrite Hty, (Hseeded p Hp).
Qed.

Lemma only_error_events_without_custom_patterns_witness :
  ∃ news,
    emitted (processLines 7 (lit "k3x9q2m1z") (lit "  12:5  warning  Unexpected var  no-var")
               (lit "dev:0.0") None (create defaultOptions))
    = emitted (create defaultOptions) ++ news
    ∧ Forall (λ ev, ∃ entry, ev = EvError entry ∧ e_type entry = error) news.
Proof.
  apply (only_error_events_without_custom_patterns 7 (lit "k3x9q2m1z")
           (lit "  12:5  warning  Unexpected var  no-var") (lit "dev:0.0") None
           (create defaultOptions)).
  repeat constructor.
Defined.



End ErrorCache.

Section WatchLifecycle.
Import ErrorWatcher.

Lemma startBuildWatcher_fileWatcher pane self :
  fileWatcher (startBuildWatcher pane self) = fileWatcher self.
Proof.
  unfold startBuildWatcher.
  destruct (detectLanguage (command pane)); [|done].
  by destruct (JsMap.get _ buildCommands).
Qed.

(** What [startWatching] does to the file watcher of a pane that is not
    watched yet and has a log file. *)
Lemma startWatching_fileWatcher fs pane file self :
  id pane ∉ watchedPanes self → logFile pane = Some file → truthy file = true →
  startWatching fs pane self
  = ((FileWatcher.watchFile fs file tailCallback (fileWatcher self)).1,
     (startWatching fs pane self).2)
  ∧ fileWatcher (startWatching fs pane self).2
    = (FileWatcher.watchFile fs file tailCallback (fileWatcher self)).2.
Proof.
  intros Hnot Hfile Htruthy. unfold startWatching.
  rewrite bool_decide_eq_false_2 by done. rewrite Hfile, Htruthy.
  cbn [fileWatcher update].
  destruct (FileWatcher.watchFile fs file tailCallback (fileWatcher self)) as [[|] fw];
    cbn [fst snd fileWatcher update]; [|done].
  by rewrite startBuildWatcher_fileWatcher.
Qed.

(** X27.  A start that fails is not undone.  When the log file of the pane
    cannot be read, [startWatching] throws, but it has already marked the
    pane as watched; every later [startWatching] for the pane then returns
    at once with a warning and leaves the file watcher as it is, so the log
    is never tailed, even once the file exists. *)
Theorem failed_start_blocks_later_starts
    (fs fs' : FileWatcher.Fs) (pane : TmuxPane) (file : list N) (self : t) :
  id pane ∉ watchedPanes self →
  logFile pane = Some file → truthy file = true → fs file = None →
  let failed := startWatching fs pane self in
  failed.1 = false
  ∧ id pane ∈ getWatchedPanes failed.2
  ∧ FileWatcher.getWatchedFiles (fileWatcher failed.2)
    = FileWatcher.getWatchedFiles (fileWatcher self)
  ∧ (startWatching fs' pane failed.2).1 = true
  ∧ fileWatcher (startWatching fs' pane failed.2).2 = fileWatcher failed.2.
Proof.
  intros Hnot Hfile Htruthy Hfs failed.
  destruct (startWatching_fileWatcher fs pane file self Hnot Hfile Htruthy) as [Hpair Hfw].
  assert (Hwatched : id pane ∈ watchedPanes failed.2).
  { subst failed. rewrite startWatching_watchedPanes by done.
    apply elem_of_app. right. apply list_elem_of_here. }
  split; [|split; [done|split; [|split]]].
  - subst failed. rewrite Hpair. cbn [fst]. unfold FileWatcher.watchFile. by rewrite Hfs.
  - subst failed. rewrite Hfw. unfold FileWatcher.watchFile. by rewrite Hfs.
  - unfold startWatching. by rewrite bool_decide_eq_true_2.
  - unfold startWatching. by rewrite bool_decide_eq_true_2.
Qed.

Lemma failed_start_blocks_later_starts_witness :
  let missing : FileWatcher.Fs := λ _, None in
  let present := Spec.one_file Spec.log_path (Spec.bytesOf "error: now it is there") in
  let failed := startWatching missing Spec.dev_pane (create defaultOptions) in
  failed.1 = false
  ∧ id Spec.dev_pane ∈ getWatchedPanes failed.2
  ∧ FileWatcher.getWatchedFiles (fileWatcher failed.2)
    = FileWatcher.getWatchedFiles (fileWatcher (create defaultOptions))
  ∧ (startWatching present Spec.dev_pane failed.2).1 = true
  ∧ fileWatcher (startWatching present Spec.dev_pane failed.2).2 = fileWatcher failed.2.
Proof.
  cbv zeta.
  apply (failed_start_blocks_later_starts (λ _, None)
           (Spec.one_file Spec.log_path (Spec.bytesOf "error: now it is there"))
           Spec.dev_pane Spec.log_path (create defaultOptions)).
  - apply (bool_decide_unpack _). vm_compute. reflexivity.
  - reflexivity.
  - reflexivity.
  - reflexivity.
Defined.

(** X28.  [stopWatching] forgets the pane but does not stop the tail of
    its log.  After a start and a stop the pane is no longer listed and its
    history is empty, yet the file watcher still watches the log file and
    still holds the callback; only [destroy] stops the files. *)
Theorem stopWatching_keeps_the_log_tail
    (fs : FileWatcher.Fs) (pane : TmuxPane) (file : list N) (content : list byte)
    (self : t) :
  id pane ∉ watchedPanes self →
  logFile pane = Some file → truthy file = true → fs file = Some content →
  let stopped := stopWatching (id pane) (startWatching fs pane self).2 in
  (id pane ∉ getWatchedPanes stopped)
  ∧ getErrors (id pane) stopped = []
  ∧ file ∈ FileWatcher.getWatchedFiles (fileWatcher stopped)
  ∧ is_Some (FileWatcher.callbacks (fileWatcher stopped) !! file)
  ∧ FileWatcher.getWatchedFiles (fileWatcher (destroy stopped)) = [].
Proof.
  intros Hnot Hfile Htruthy Hfs stopped.
  destruct (startWatching_fileWatcher fs pane file self Hnot Hfile Htruthy) as [_ Hfw].
  assert (Hfw' : fileWatcher stopped
                 = (FileWatcher.watchFile fs file tailCallback (fileWatcher self)).2)
    by (subst stopped; exact Hfw).
  split; [|split; [|split; [|split]]].
  - subst stopped. unfold getWatchedPanes, stopWatching. cbn [watchedPanes update].
    intros [? _]%list_elem_of_filter. done.
  - subst stopped. unfold getErrors, stopWatching. cbn [errorCache update].
    by rewrite get_delete_eq.
  - rewrite Hfw'. unfold FileWatcher.watchFile, FileWatcher.getWatchedFiles.
    rewrite Hfs. cbn [snd FileWatcher.watchers]. rewrite keys_set.
    case_bool_decide; [done|]. apply elem_of_app. right. apply list_elem_of_here.
  - rewrite Hfw'. unfold FileWatcher.watchFile. rewrite Hfs.
    cbn [snd FileWatcher.callbacks]. rewrite lookup_insert_eq. by eexists.
  - unfold destroy. cbn [fileWatcher update].
    unfold FileWatcher.getWatchedFiles, FileWatcher.stopAll.
    by apply stop_each_watches_nothing.
Qed.

Lemma stopWatching_keeps_the_log_tail_witness :
  let fs := Spec.one_file Spec.log_path (Spec.bytesOf "") in
  let stopped :=
    stopWatching (id Spec.dev_pane)
      (startWatching fs Spec.dev_pane (create defaultOptions)).2 in
  (id Spec.dev_pane ∉ getWatchedPanes stopped)
  ∧ getErrors (id Spec.dev_pane) stopped = []
  ∧ Spec.log_path ∈ FileWatcher.getWatchedFiles (fileWatcher stopped)
  ∧ is_Some (FileWatcher.callbacks (fileWatcher stopped) !! Spec.log_path)
  ∧ FileWatcher.getWatchedFiles (fileWatcher (destroy stopped)) = [].
Proof.
  cbv zeta.
  apply (stopWatching_keeps_the_log_tail (Spec.one_file Spec.log_path (Spec.bytesOf ""))
           Spec.dev_pane Spec.log_path (Spec.bytesOf "") (create defaultOptions)).
  - apply (bool_decide_unpack _). vm_compute. reflexivity.
  - reflexivity.
  - reflexivity.
  - reflexivity.
Defined.

End WatchLifecycle.

(** ** What the tools report about errors *)

Section Analysis.
Import ErrorWatcher.

Lemma countUp_sum {K} `{EqDecision K} (k : K) (m : list (K * nat)) :
  sum_list (snd <$> countUp k m) = S (sum_list (snd <$> m)).
Proof.
  induction m as [|[k' n] r IH]; [done|]. cbn [countUp].
  destruct (decide (k' = k)); cbn in *; [lia|].
  rewrite IH. lia.
Qed.

Lemma insertByCount_sum {K} (x : K * nat) (l : list (K * nat)) :
  sum_list (snd <$> insertByCount x l) = x.2 + sum_list (snd <$> l).
Proof.
  induction l as [|y r IH]; [done|]. cbn [insertByCount].
  case_bool_decide; cbn in *; [lia|]. rewrite IH. lia.
Qed.

Lemma sortByCount_sum {K} (l : list (K * nat)) :
  sum_list (snd <$> sortByCount l) = sum_list (snd <$> l).
Proof.
  unfold sortByCount. induction l as [|x r IH]; [done|]. cbn [foldr].
  rewrite insertByCount_sum. cbn. by rewrite IH.
Qed.

Lemma insertByCount_descending {K} (x : K * nat) (l : list (K * nat)) :
  Spec.descending l →
  Spec.descending (insertByCount x l)
  ∧ ∀ z, z ∈ insertByCount x l → z = x ∨ z ∈ l.
Proof.
  induction l as [|y r IH]; cbn [insertByCount Spec.descending].
  - intros _. split; [by split|]. intros z ->%list_elem_of_singleton. by left.
  - intros [Hy Hr]. case_bool_decide as Hle.
    + split.
      * cbn [Spec.descending]. split; [|done]. constructor; [done|].
        eapply Forall_impl; [exact Hy|]. cbn. intros z Hz. lia.
      * intros z [->|Hz]%elem_of_cons; [by left | by right].
    + destruct (IH Hr) as [IH1 IH2]. split.
      * cbn [Spec.descending]. split; [|done]. apply Forall_forall. intros z Hz.
        destruct (IH2 z Hz) as [->|Hin]; [lia|].
        rewrite Forall_forall in Hy. by apply Hy.
      * intros z [->|Hz]%elem_of_cons; [right; apply list_elem_of_here|].
        destruct (IH2 z Hz) as [->|Hin]; [by left | right; by apply list_elem_of_further].
Qed.

Lemma sortByCount_descending {K} (l : list (K * nat)) :
  Spec.descending (sortByCount l).
Proof.
  unfold sortByCount. induction l as [|x r IH]; [done|]. cbn [foldr].
  by apply insertByCount_descending.
Qed.

Lemma take_descending {K} (n : nat) (l : list (K * nat)) :
  Spec.descending l → Spec.descending (take n l).
Proof.
  revert n. induction l as [|x l IH]; intros [|n]; cbn; try done.
  intros [Hx Hl]. split; [by apply Forall_take | by apply IH].
Qed.

Lemma foldl_countUp_sum {K} `{EqDecision K} (f : ErrorEntry → K) (es : list ErrorEntry)
    (m : list (K * nat)) :
  sum_list (snd <$> foldl (λ m e, countUp (f e) m) m es)
  = sum_list (snd <$> m) + length es.
Proof.
  revert m. induction es as [|e es IH]; intros m; cbn [foldl length]; [lia|].
  rewrite IH, countUp_sum. lia.
Qed.

(** X29.  The figures of [analyzeErrors] fit together.  The counts by type
    add up to the entries of the pane; the errors of the last hour are
    among those of the last day; at most ten recent entries and five files
    are reported; and both rankings run from the highest count down. *)
Theorem analyzeErrors_figures_fit (now : Z) (paneId : list N) (self : t) :
  let a := analyzeErrors now paneId self in
  sum_list (snd <$> errorTypes a) = length (getErrors paneId self)
  ∧ lastHour a ≤ lastDay a ≤ length (getErrors paneId self)
  ∧ length (recentErrors a) ≤ 10
  ∧ length (topFiles a) ≤ 5
  ∧ Spec.descending (topFiles a)
  ∧ Spec.descending (errorTypes a).
Proof.
  cbn zeta. unfold analyzeErrors.
  cbn [errorTypes lastHour lastDay recentErrors topFiles].
  set (errors := getErrors paneId self).
  split; [|split; [|split; [|split; [|split]]]].
  - rewrite sortByCount_sum, foldl_countUp_sum. done.
  - split; [|apply length_filter].
    induction errors as [|e es IH]; [done|].
    rewrite !filter_cons. repeat case_decide; cbn [length]; lia.
  - rewrite length_drop. lia.
  - rewrite length_take. lia.
  - apply take_descending, sortByCount_descending.
  - apply sortByCount_descending.
Qed.

End Analysis.

Section Summary.
Import Tools.

Lemma set_values_Forall {V} (P : V → Prop) (k : list N) (v : V) (m : list (list N * V)) :
  P v → Forall P (snd <$> m) → Forall P (snd <$> JsMap.set k v m).
Proof.
  intros Hv. induction m as [|[k' v'] r IH]; cbn [JsMap.set].
  - intros _. by repeat constructor.
  - intros [H1 H2]%Forall_cons. case_decide; cbn; constructor; auto.
Qed.

Lemma foldl_set_values_Forall {V W} (P : W → Prop) (f : V → W)
    (l : list (list N * V)) (m : list (list N * W)) :
  (∀ v, P (f v)) → Forall P (snd <$> m) →
  Forall P (snd <$> foldl (λ m entry, JsMap.set entry.1 (f entry.2) m) m l).
Proof.
  intros Hf. revert m. induction l as [|e l IH]; intros m Hm; [done|].
  cbn [foldl]. apply IH. by apply set_values_Forall.
Qed.

Lemma totals_are_sums (count : list ErrorEntry → nat) (m : list (list N * list ErrorEntry))
    (stat : list N * list ErrorEntry → option PaneStat) (field : PaneStat → nat) (n : nat) :
  count [] = 0 →
  (∀ entry, match stat entry with
            | Some ps => field ps = count entry.2
            | None => entry.2 = []
            end) →
  foldl (λ n entry, n + count entry.2) n m = n + sum_list (field <$> omap stat m).
Proof.
  intros Hnil Hstat. revert n. induction m as [|e m IH]; intros n; cbn [foldl]; [cbn; lia|].
  rewrite IH. cbn [omap list_omap]. specialize (Hstat e).
  destruct (stat e) as [ps|]; cbn.
  - rewrite Hstat. lia.
  - rewrite Hstat, Hnil. lia.
Qed.

(** X30.  The error summary tool.  Its totals are the sums of the figures
    it lists per pane: a pane that is left out, because none of its entries
    passes the filter, counts nothing.  Every pane listed comes with its
    latest entry.  Without [includeWarnings] the total of warnings and
    every warning figure are zero. *)
Theorem error_summary_is_consistent
    (now : Z) (paneId : option (list N)) (timeRange : TimeRange) (includeWarnings : bool)
    (watcher : ErrorWatcher.t) :
  let r := handleErrorSummary now paneId timeRange includeWarnings watcher in
  r_totalErrors r = sum_list (ps_errors <$> r_paneStats r)
  ∧ r_totalWarnings r = sum_list (ps_warnings <$> r_paneStats r)
  ∧ Forall (λ ps, is_Some (ps_latest ps)) (r_paneStats r)
  ∧ (includeWarnings = false →
     r_totalWarnings r = 0 ∧ Forall (λ ps, ps_warnings ps = 0) (r_paneStats r)).
Proof.
  cbn zeta. unfold handleErrorSummary.
  cbn [r_totalErrors r_totalWarnings r_paneStats].
  set (allErrors := match given paneId with
                    | Some p => [(p, ErrorWatcher.getErrors p watcher)]
                    | None => ErrorWatcher.getAllErrors watcher
                    end).
  set (filteredErrors :=
         foldl (λ m entry, JsMap.set entry.1
                             (filtered now timeRange includeWarnings entry.2) m)
           [] allErrors).
  set (stat := λ entry : list N * list ErrorEntry,
         match entry.2 with
         | [] => None
         | _ :: _ =>
             Some {| ps_paneId := entry.1; ps_errors := errorCount entry.2;
                     ps_warnings := warningCount entry.2; ps_latest := last entry.2 |}
         end).
  assert (He : foldl (λ n entry, n + errorCount entry.2) 0 filteredErrors
               = sum_list (ps_errors <$> omap stat filteredErrors)).
  { rewrite (totals_are_sums errorCount filteredErrors stat ps_errors 0); [done|done|].
    intros [k [|e es]]; done. }
  assert (Hw : foldl (λ n entry, n + warningCount entry.2) 0 filteredErrors
               = sum_list (ps_warnings <$> omap stat filteredErrors)).
  { rewrite (totals_are_sums warningCount filteredErrors stat ps_warnings 0); [done|done|].
    intros [k [|e es]]; done. }
  split; [exact He|]. split; [exact Hw|]. split.
  - apply Forall_forall. intros ps (entry & _ & Hps)%list_elem_of_omap.
    subst stat. cbn beta in Hps. destruct entry.2 as [|e es] eqn:E; [done|].
    injection Hps as <-. cbn [ps_latest]. rewrite <- E.
    destruct (last entry.2) eqn:El; [by eexists|].
    apply last_None in El. congruence.
  - intros ->.
    assert (Hall : Forall (λ v, warningCount v = 0) (snd <$> filteredErrors)).
    { subst filteredErrors.
      apply (foldl_set_values_Forall _ (filtered now timeRange false)); [|constructor].
      intros v. unfold filtered, warningCount.
      rewrite (filter_none (λ e, e_type e = warning)); [done|].
      intros e [He' _]%list_elem_of_filter. congruence. }
    assert (Hstats : Forall (λ ps, ps_warnings ps = 0) (omap stat filteredErrors)).
    { apply Forall_forall. intros ps (entry & Hin & Hps)%list_elem_of_omap.
      rewrite Forall_forall in Hall.
      assert (Hz : warningCount entry.2 = 0).
      { apply Hall. apply list_elem_of_fmap. by exists entry. }
      subst stat. cbn beta in Hps. destruct entry.2 as [|e es]; [done|].
      injection Hps as <-. exact Hz. }
    split; [|done]. rewrite Hw.
    clear -Hstats. induction Hstats as [|ps l Hps _ IH]; [done|].
    cbn. rewrite Hps, IH. done.
Qed.

End Summary.
